(** * low-latency-cpp: memory pool, SPSC ring queue and the parser loops

    A shallow embedding of [types.h], [memory_pool.h], [lock_free_queue.h],
    [thread_affinity.cpp] and [market_data.cpp].

    Conventions.
    - [size_t] and pointers are [N]; the 64-bit wrap-around of unsigned
      arithmetic is written out with [wrap].  [nullptr] is address [0].
    - Raw memory is a finite map from addresses to [MarketData] cells: a
      slot that was never assigned has no entry.
    - [std::vector] is a [list]; [push_back] appends at the end, [back] and
      [pop_back] work on the last element, [v[i]] is a lookup that is
      undefined out of range.
    - The atomics are read and written sequentially: one operation of one
      thread at a time.
    - A loop whose exit depends on the other thread takes [fuel], the
      number of passes it may make; running out of it is its own outcome.
    - What the machine decides (the address of the pool's block, whether
      pinning works, whether an allocation raises) comes in as a parameter. *)

From Stdlib Require Import NArith ZArith Lia String.
From Stdlib Require Import Floats.PrimFloat Numbers.Cyclic.Int63.Uint63.
From stdpp Require Import base option list gmap strings.

Local Open Scope N_scope.

(* [2750.1] is rounded to the nearest double, as the C++ literal is. *)
Set Warnings "-inexact-float".

(** ** types.h *)

(** [char padding[20]] is never read and carries no field here. *)
Record MarketData := {
  symbol : string;
  price : float;
  volume : Z
}.

Abbreviation nullptr := 0%N (only parsing).

(** [alignas(64)]: the record occupies one cache line. *)
Definition sizeof_MarketData : N := 64.

Definition SIZE_MAX : N := 2 ^ 64 - 1.

(** Unsigned 64-bit arithmetic. *)
Definition wrap (x : N) : N := x mod 2 ^ 64.

(** The exceptions the code raises, with the arguments their constructors
    are given.  For [runtime_error] the argument is what [what()] returns;
    [what()] of a [system_error] is [what_arg] followed by a colon and the
    platform's text for [code], which is not modelled. *)
Inductive exception :=
  | bad_alloc
  | runtime_error (what : string)
  | system_error (code : Z) (what_arg : string).

(** What the C++ standard leaves undefined and the code can reach. *)
Inductive undefined :=
  | ModuloByZero
  | IndexOutOfRange
  | NullDereference
  | UninitialisedRead
  | ShiftOutOfRange.

(** ** memory_pool.h *)

Record MemoryPool := {
  storage_ : N;
  free_list_ : list N;
  size_ : N
}.

(** The constructor's loop
    [for (i = 0; i < size; ++i) free_list_.push_back(storage_ + i * sizeof(MarketData))],
    with [n] iterations left. *)
Fixpoint fill_free_list (storage i : N) (n : nat) (fl : list N) : list N :=
  match n with
  | O => fl
  | S n' => fill_free_list storage (i + 1) n' (fl ++ [storage + i * sizeof_MarketData])
  end.

(** [MemoryPool(size)].  [storage] is what the aligned [operator new]
    handed back for the [size * sizeof(MarketData)] bytes. *)
Definition MemoryPool_new (storage size : N) : exception + MemoryPool :=
  if storage =? nullptr then inl bad_alloc
  else inr {| storage_ := storage;
              free_list_ := fill_free_list storage 0 (N.to_nat size) [];
              size_ := size |}.

Definition set_free_list (pool : MemoryPool) (fl : list N) : MemoryPool :=
  {| storage_ := storage_ pool; free_list_ := fl; size_ := size_ pool |}.

(** [allocate()]: the pointer handed out and the pool afterwards. *)
Definition allocate (pool : MemoryPool) : N * MemoryPool :=
  match last (free_list_ pool) with
  | None => (nullptr, pool)
  | Some ptr => (ptr, set_free_list pool (removelast (free_list_ pool)))
  end.

Definition deallocate (ptr : N) (pool : MemoryPool) : MemoryPool :=
  if ptr =? nullptr then pool
  else set_free_list pool (free_list_ pool ++ [ptr]).

(** ** lock_free_queue.h *)

(** The [pool] reference member is threaded through the constructor and the
    destructor, the only two places that use it. *)
Record LockFreeQueue := {
  buffer : list N;
  head : N;
  tail : N;
  capacity : N
}.

(** The constructor's loop, [n] iterations left:
    [buffer[i] = pool.allocate(); if (!buffer[i]) throw ...]. *)
Fixpoint fill_buffer (n : nat) (i : N) (buf : list N) (pool : MemoryPool)
  : MemoryPool * list N * option exception :=
  match n with
  | O => (pool, buf, None)
  | S n' =>
      let '(ptr, pool') := allocate pool in
      let buf' := <[N.to_nat i := ptr]> buf in
      if ptr =? nullptr
      then (pool', buf', Some (runtime_error "Memory pool exhausted"))
      else fill_buffer n' (i + 1) buf' pool'
  end.

(** [LockFreeQueue(capacity, pool)]: [buffer(capacity)] holds [capacity]
    null pointers when the loop starts.  When the loop throws, the object
    was never constructed: its destructor does not run and nothing is
    handed back to the pool. *)
Definition LockFreeQueue_new (cap : N) (pool : MemoryPool)
  : MemoryPool * (exception + LockFreeQueue) :=
  let '(pool', buf, e) :=
    fill_buffer (N.to_nat cap) 0 (replicate (N.to_nat cap) nullptr) pool in
  match e with
  | Some e => (pool', inl e)
  | None => (pool', inr {| buffer := buf; head := 0; tail := 0; capacity := cap |})
  end.

(** [~LockFreeQueue()]: [buffer] holds exactly [capacity] entries. *)
Definition LockFreeQueue_delete (q : LockFreeQueue) (pool : MemoryPool) : MemoryPool :=
  foldl (λ pool ptr, deallocate ptr pool) pool (buffer q).

Definition set_tail (q : LockFreeQueue) (t : N) : LockFreeQueue :=
  {| buffer := buffer q; head := head q; tail := t; capacity := capacity q |}.

Definition set_head (q : LockFreeQueue) (h : N) : LockFreeQueue :=
  {| buffer := buffer q; head := h; tail := tail q; capacity := capacity q |}.

(** [push(item)]: the returned triple is the boolean, the queue and the
    memory after the call. *)
Definition push (item : MarketData) (q : LockFreeQueue) (mem : gmap N MarketData)
  : undefined + bool * LockFreeQueue * gmap N MarketData :=
  let current_tail := tail q in
  if capacity q =? 0 then inl ModuloByZero
  else
    let next_tail := wrap (current_tail + 1) mod capacity q in
    if next_tail =? head q then inr (false, q, mem)
    else
      match buffer q !! N.to_nat current_tail with
      | None => inl IndexOutOfRange
      | Some ptr =>
          if ptr =? nullptr then inl NullDereference
          else inr (true, set_tail q next_tail, <[ptr := item]> mem)
      end.

(** [pop(item)]: [item] is the caller's variable as it stands before the
    call; the result carries it as it stands after. *)
Definition pop (item : MarketData) (q : LockFreeQueue) (mem : gmap N MarketData)
  : undefined + bool * MarketData * LockFreeQueue * gmap N MarketData :=
  let current_head := head q in
  if current_head =? tail q then inr (false, item, q, mem)
  else
    match buffer q !! N.to_nat current_head with
    | None => inl IndexOutOfRange
    | Some ptr =>
        if ptr =? nullptr then inl NullDereference
        else
          match mem !! ptr with
          | None => inl UninitialisedRead
          | Some v =>
              if capacity q =? 0 then inl ModuloByZero
              else inr (true, v, set_head q (wrap (current_head + 1) mod capacity q), mem)
          end
    end.

(** ** thread_affinity.cpp, logger.h *)

(** What the program cannot decide by itself. *)
Record environment := {
  (** [CPU_SETSIZE] of [<sched.h>]. *)
  CPU_SETSIZE : Z;
  (** The return code of [pthread_setaffinity_np] for a one-core set. *)
  pthread_setaffinity_np : Z → Z;
  (** [MarketData data;]: an empty symbol and whatever the stack holds. *)
  default_initialised : MarketData;
  (** Building the vector of batch [batch] may raise, [std::bad_alloc] say. *)
  batch_fault : Z → option exception;
  (** Formatting the line of the item processed after [processed_count]
      others may raise likewise. *)
  format_fault : N → option exception
}.

Definition setThreadAffinity (env : environment) (cpu_core : Z) : exception + unit :=
  if ((cpu_core <? 0) || (cpu_core >=? CPU_SETSIZE env))%Z
  then inl (runtime_error "Invalid CPU core number")
  else
    let result := pthread_setaffinity_np env cpu_core in
    if (result =? 0)%Z then inr ()
    else inl (system_error result "Failed to set thread affinity").

(** The lines the loops hand to [Logger::log], before formatting. *)
Inductive message :=
  | ParserConstructed (packet_count : N)
  | ParserConstructedConsole
  | StartingProducer (packet_count : N)
  | StartingConsumer
  | ProducerAffinitySet
  | ProducerAffinityFailed (e : exception)
  | ProducerAffinityError
  | ProducerStarted (packet_count : N)
  | GeneratingBatch (batch : Z)
  | QueueFullRetrying (symbol : string)
  | PushedToQueue (data : MarketData)
  | ProcessedBatch (packet_count items_pushed : N)
  | ProducerError (e : exception)
  | ProducerExiting (items_pushed : N)
  | ConsumerAffinitySet
  | ConsumerAffinityFailed (e : exception)
  | ConsumerAffinityError
  | ConsumerStarted
  | Processed (data : MarketData)
  | QueueEmptyYielding
  | ConsumerSummary (processed_count : N)
  | ConsumerExiting
  | ConsumerError (e : exception)
  | ConsumerErrorConsole
  | StoppingConsumer.

(** What a loop does to the world outside the parser object. *)
Inductive event :=
  | Log (line : message) (to_console : bool)
  | Yield
  | SleepMicroseconds (us : N)
  | SleepMilliseconds (ms : N).

(** ** market_data.h, market_data.cpp *)

(** The parser object, the memory its queue points into, and what the
    threads have done so far. *)
Record world := {
  running : bool;
  pool : MemoryPool;
  dataQueue : LockFreeQueue;
  packet_count : N;
  memory : gmap N MarketData;
  trace : list event
}.

Definition set_running (b : bool) (w : world) : world :=
  {| running := b; pool := pool w; dataQueue := dataQueue w;
     packet_count := packet_count w; memory := memory w; trace := trace w |}.

Definition set_packet_count (n : N) (w : world) : world :=
  {| running := running w; pool := pool w; dataQueue := dataQueue w;
     packet_count := n; memory := memory w; trace := trace w |}.

Definition set_channel (q : LockFreeQueue) (mem : gmap N MarketData) (w : world) : world :=
  {| running := running w; pool := pool w; dataQueue := q;
     packet_count := packet_count w; memory := mem; trace := trace w |}.

Definition emit (evs : list event) (w : world) : world :=
  {| running := running w; pool := pool w; dataQueue := dataQueue w;
     packet_count := packet_count w; memory := memory w; trace := trace w ++ evs |}.

(** How a stretch of code ends: normally, with an exception in flight,
    in undefined behaviour, or not within the steps allowed.  [a] holds the
    local variables, also at the point of a throw. *)
Inductive outcome (A : Type) :=
  | Returns (a : A) (w : world)
  | Throws (e : exception) (a : A) (w : world)
  | Undefined (u : undefined)
  | OutOfFuel.
Arguments Returns {A} a w.
Arguments Throws {A} e a w.
Arguments Undefined {A} u.
Arguments OutOfFuel {A}.

(** [MarketDataParser()].  [storage] is the block the pool obtains and
    [mem] the memory as it is found. *)
Definition MarketDataParser_new (storage : N) (mem : gmap N MarketData)
  : exception + world :=
  match MemoryPool_new storage 10000 with
  | inl e => inl e
  | inr pool =>
      match LockFreeQueue_new 10000 pool with
      | (_, inl e) => inl e
      | (pool, inr q) =>
          inr {| running := false; pool := pool; dataQueue := q; packet_count := 0;
                 memory := mem;
                 trace := [Log (ParserConstructed 0) false;
                           Log ParserConstructedConsole true] |}
      end
  end.

(** [MarketDataParser::start()], up to the launch of the two threads. *)
Definition start (w : world) : world :=
  let w := set_packet_count 0 (set_running true w) in
  emit [Log (StartingProducer (packet_count w)) false; Log StartingConsumer false] w.

(** [MarketDataParser::stop()], up to the two joins. *)
Definition stop (w : world) : world :=
  emit [SleepMilliseconds 100]
    (emit [Log StoppingConsumer false]
       (set_running false (emit [SleepMilliseconds 1100] w))).

(** *** The producer *)

Definition double_of_int (n : Z) : float := PrimFloat.of_uint63 (Uint63.of_Z n).

Definition batch_data (batch : Z) : list MarketData :=
  [ {| symbol := "AAPL"; price := 150.25 + double_of_int batch; volume := 1000 + batch |};
    {| symbol := "GOOG"; price := 2750.1 + double_of_int batch; volume := 500 + batch |};
    {| symbol := "MSFT"; price := 300.75 + double_of_int batch; volume := 800 + batch |} ].

(** [while (!dataQueue.push(data) && running) { log; sleep 1us }] *)
Fixpoint push_retry (fuel : nat) (data : MarketData) (w : world) : outcome unit :=
  match fuel with
  | O => OutOfFuel
  | S fuel' =>
      match push data (dataQueue w) (memory w) with
      | inl u => Undefined u
      | inr (true, q, mem) => Returns () (set_channel q mem w)
      | inr (false, q, mem) =>
          let w := set_channel q mem w in
          if running w
          then push_retry fuel' data
                 (emit [Log (QueueFullRetrying (symbol data)) false;
                        SleepMicroseconds 1] w)
          else Returns () w
      end
  end.

(** [for (const auto& data : batch_data) { ... }], the local is
    [items_pushed]. *)
Fixpoint push_batch (fuel : nat) (batch : list MarketData) (items_pushed : N)
    (w : world) : outcome N :=
  match batch with
  | [] => Returns items_pushed w
  | data :: batch' =>
      match push_retry fuel data w with
      | Returns _ w =>
          if negb (running w) then Returns items_pushed w
          else push_batch fuel batch' (wrap (items_pushed + 1))
                 (emit [Log (PushedToQueue data) false] w)
      | Throws e _ w => Throws e items_pushed w
      | Undefined u => Undefined u
      | OutOfFuel => OutOfFuel
      end
  end.

(** [for (int batch = ...; batch < 10 && running; ++batch) { ... }] with
    [n] batches to go. *)
Fixpoint batches (n : nat) (fuel : nat) (env : environment) (batch : Z)
    (items_pushed : N) (w : world) : outcome N :=
  match n with
  | O => Returns items_pushed w
  | S n' =>
      if running w then
        match batch_fault env batch with
        | Some e => Throws e items_pushed w
        | None =>
            let w := emit [Log (GeneratingBatch (batch + 1)) false] w in
            match push_batch fuel (batch_data batch) items_pushed w with
            | Returns items_pushed w =>
                let w := set_packet_count (wrap (packet_count w + 1)) w in
                let w := emit [Log (ProcessedBatch (packet_count w) items_pushed) false;
                               SleepMilliseconds 100] w in
                batches n' fuel env (batch + 1) items_pushed w
            | o => o
            end
        end
      else Returns items_pushed w
  end.

Definition generateData (fuel : nat) (env : environment) (w : world) : outcome unit :=
  match setThreadAffinity env 0 with
  | inl e =>
      Returns ()
        (set_running false
           (emit [Log (ProducerAffinityFailed e) false; Log ProducerAffinityError true] w))
  | inr _ =>
      let w := emit [Log ProducerAffinitySet false] w in
      let w := emit [Log (ProducerStarted (packet_count w)) false] w in
      match
        match batches 10 fuel env 0 0 w with
        | Throws e items_pushed w =>
            Returns items_pushed
              (set_running false (emit [Log (ProducerError e) false] w))
        | o => o
        end
      with
      | Returns items_pushed w =>
          Returns () (emit [Log (ProducerExiting items_pushed) false] w)
      | Throws e _ w => Throws e () w
      | Undefined u => Undefined u
      | OutOfFuel => OutOfFuel
      end
  end.

(** *** The consumer *)

Record counters := {
  processed_count : N;
  empty_count : N;
  yield_count : N;
  sleep_count : N
}.

(** The [else] branch of the polling loop: one failed poll. *)
Definition backoff (c : counters) : undefined + counters * list event :=
  let empty_count := wrap (empty_count c + 1) in
  if empty_count <? 10000
  then inr ({| processed_count := processed_count c; empty_count := empty_count;
               yield_count := yield_count c; sleep_count := sleep_count c |}, [])
  else if empty_count <? 100000
  then inr ({| processed_count := processed_count c; empty_count := empty_count;
               yield_count := yield_count c; sleep_count := sleep_count c |}, [Yield])
  else
    let yield_count := wrap (yield_count c + 1) in
    let logged := if yield_count mod 1000 =? 0
                  then [Log QueueEmptyYielding false] else [] in
    if 64 <=? sleep_count c then inl ShiftOutOfRange
    else
      let sleep_us := N.min (wrap (N.shiftl 10 (sleep_count c))) 100 in
      let sleep_count := if sleep_count c <? 4 then wrap (sleep_count c + 1)
                         else sleep_count c in
      inr ({| processed_count := processed_count c; empty_count := 10000;
              yield_count := yield_count; sleep_count := sleep_count |},
           logged ++ [SleepMicroseconds sleep_us]).

(** One pass through the body of [while (running) { ... }]. *)
Definition consumer_body (env : environment) (c : counters) (w : world)
  : outcome counters :=
  match pop (default_initialised env) (dataQueue w) (memory w) with
  | inl u => Undefined u
  | inr (true, data, q, mem) =>
      let w := set_channel q mem w in
      match format_fault env (processed_count c) with
      | Some e => Throws e c w
      | None =>
          Returns {| processed_count := wrap (processed_count c + 1);
                     empty_count := 0; yield_count := 0; sleep_count := 0 |}
                  (emit [Log (Processed data) false] w)
      end
  | inr (false, _, q, mem) =>
      let w := set_channel q mem w in
      match backoff c with
      | inl u => Undefined u
      | inr (c, evs) => Returns c (emit evs w)
      end
  end.

Fixpoint consumer_loop (fuel : nat) (env : environment) (c : counters) (w : world)
  : outcome counters :=
  match fuel with
  | O => OutOfFuel
  | S fuel' =>
      if running w then
        match consumer_body env c w with
        | Returns c w => consumer_loop fuel' env c w
        | o => o
        end
      else Returns c w
  end.

(** [MarketData data; while (dataQueue.pop(data)) { ... }] *)
Fixpoint drain (fuel : nat) (env : environment) (data : MarketData) (c : counters)
    (w : world) : outcome counters :=
  match fuel with
  | O => OutOfFuel
  | S fuel' =>
      match pop data (dataQueue w) (memory w) with
      | inl u => Undefined u
      | inr (true, data, q, mem) =>
          let w := set_channel q mem w in
          match format_fault env (processed_count c) with
          | Some e => Throws e c w
          | None =>
              drain fuel' env data
                {| processed_count := wrap (processed_count c + 1);
                   empty_count := empty_count c; yield_count := yield_count c;
                   sleep_count := sleep_count c |}
                (emit [Log (Processed data) false] w)
          end
      | inr (false, _, q, mem) => Returns c (set_channel q mem w)
      end
  end.

(** The second [try] block of [processData], entered with the locals [c]. *)
Definition consume (fuel : nat) (env : environment) (c : counters) (w : world)
  : outcome unit :=
  match
    match consumer_loop fuel env c w with
    | Returns c w =>
        match drain fuel env (default_initialised env) c w with
        | Returns c w =>
            Returns c (emit [Log (ConsumerSummary (processed_count c)) false;
                             Log ConsumerExiting false] w)
        | o => o
        end
    | o => o
    end
  with
  | Returns _ w => Returns () w
  | Throws e _ w =>
      Returns () (emit [Log (ConsumerError e) false; Log ConsumerErrorConsole true] w)
  | Undefined u => Undefined u
  | OutOfFuel => OutOfFuel
  end.

Definition zero_counters : counters :=
  {| processed_count := 0; empty_count := 0; yield_count := 0; sleep_count := 0 |}.

Definition processData (fuel : nat) (env : environment) (w : world) : outcome unit :=
  match setThreadAffinity env 1 with
  | inl e =>
      Returns ()
        (emit [Log (ConsumerAffinityFailed e) false; Log ConsumerAffinityError true] w)
  | inr _ =>
      consume fuel env zero_counters
        (emit [Log ConsumerStarted false] (emit [Log ConsumerAffinitySet false] w))
  end.

(** [processNext(data)] hands [pop]'s answer on. *)
Definition processNext (data : MarketData) (w : world) : undefined + bool * MarketData * world :=
  match pop data (dataQueue w) (memory w) with
  | inl u => inl u
  | inr (b, data, q, mem) => inr (b, data, set_channel q mem w)
  end.

(** ** logger.h *)

(** The character [\n]. *)
Definition newline : string := String (Ascii.ascii_of_nat 10) "".

(** The logger: whether [hft_system.log] could be opened, and what has been
    written to the file and to [std::cout] since, one entry per [<<]. *)
Record Logger := {
  is_open : bool;
  log_file_ : list string;
  cout : list string
}.

(** [Logger()]: [opened] says whether [log_file_.open] succeeded. *)
Definition Logger_new (opened : bool) : Logger :=
  {| is_open := opened; log_file_ := []; cout := [] |}.

(** [log(message, to_console)], the mutex apart. *)
Definition log (message : string) (to_console : bool) (l : Logger) : Logger :=
  let l :=
    if is_open l
    then {| is_open := is_open l; log_file_ := log_file_ l ++ [message; newline];
            cout := cout l |}
    else l in
  if to_console || negb (is_open l)
  then {| is_open := is_open l; log_file_ := log_file_ l;
          cout := cout l ++ [message; newline] |}
  else l.

(** ** benchmark.cpp *)

(** The pool loop of [run_allocation_benchmark], [n] iterations left:
    [MarketData* data = pool.allocate(); pool.deallocate(data);].  The
    first component collects the pointers [allocate] returned. *)
Fixpoint allocation_loop (n : nat) (pool : MemoryPool) : list N * MemoryPool :=
  match n with
  | O => ([], pool)
  | S n' =>
      let '(data, pool) := allocate pool in
      let pool := deallocate data pool in
      let '(seen, pool) := allocation_loop n' pool in
      (data :: seen, pool)
  end.

(** * Specification vocabulary *)

(** ** Pools *)

(** Every pool a program can hold: built by the constructor, then used
    through [allocate] and [deallocate] with any arguments. *)
Inductive pool_reachable : MemoryPool → Prop :=
  | reach_new storage size pool :
      MemoryPool_new storage size = inr pool → pool_reachable pool
  | reach_allocate pool :
      pool_reachable pool → pool_reachable (allocate pool).2
  | reach_deallocate ptr pool :
      pool_reachable pool → pool_reachable (deallocate ptr pool).

(** The addresses of the [n] slots from slot [i] on. *)
Definition slot_addresses (storage i : N) (n : nat) : list N :=
  (λ k, storage + (i + N.of_nat k) * sizeof_MarketData) <$> seq 0 n.

(** A call a client makes on the pool. *)
Inductive pool_call :=
  | Allocate
  | Deallocate (ptr : N).

(** Drop the first occurrence of [ptr]. *)
Fixpoint give_back (ptr : N) (held : list N) : list N :=
  match held with
  | [] => []
  | p :: held' => if p =? ptr then held' else p :: give_back ptr held'
  end.

(** One call, with the clients' ledger [held] of the pointers that
    [allocate] handed out and that were not passed to [deallocate] since. *)
Definition pool_step (st : MemoryPool * list N) (call : pool_call)
  : MemoryPool * list N :=
  let '(pool, held) := st in
  match call with
  | Allocate =>
      let '(ptr, pool') := allocate pool in
      (pool', if ptr =? nullptr then held else ptr :: held)
  | Deallocate ptr => (deallocate ptr pool, give_back ptr held)
  end.

Definition run_calls (calls : list pool_call) (st : MemoryPool * list N)
  : MemoryPool * list N :=
  foldl pool_step st calls.

(** The caller's side of the contract: what is passed to [deallocate] is
    null or a pointer held at that moment, so nothing is given back twice
    and nothing is given back that was not handed out. *)
Fixpoint respects_contract (calls : list pool_call) (st : MemoryPool * list N) : Prop :=
  match calls with
  | [] => True
  | call :: calls' =>
      match call with
      | Allocate => True
      | Deallocate ptr => ptr = nullptr ∨ ptr ∈ st.2
      end
      ∧ respects_contract calls' (pool_step st call)
  end.

(** Free and held pointers together are the pool's slots, each once. *)
Definition accounted (storage size : N) (st : MemoryPool * list N) : Prop :=
  free_list_ st.1 ++ st.2 ≡ₚ slot_addresses storage 0 (N.to_nat size).

(** ** Rings *)

(** A queue as the constructor leaves it and [push]/[pop] keep it: one
    non-null slot pointer per index, both indices in range.  That the slot
    pointers differ from one another is [NoDup (buffer q)], asked for where
    it matters. *)
Record queue_wf (q : LockFreeQueue) : Prop := {
  wf_capacity : 1 ≤ capacity q ≤ SIZE_MAX;
  wf_length : length (buffer q) = N.to_nat (capacity q);
  wf_nonnull : Forall (λ p, p ≠ nullptr) (buffer q);
  wf_head : head q < capacity q;
  wf_tail : tail q < capacity q
}.

(** The index after [i] on the ring, as both operations compute it. *)
Definition next (q : LockFreeQueue) (i : N) : N := wrap (i + 1) mod capacity q.

(** [stored q mem i items]: walking the ring from index [i] up to the tail,
    the slots hold exactly [items], oldest first. *)
Fixpoint stored (q : LockFreeQueue) (mem : gmap N MarketData) (i : N)
    (items : list MarketData) : Prop :=
  match items with
  | [] => i = tail q
  | x :: items' =>
      i ≠ tail q
      ∧ (∃ ptr, buffer q !! N.to_nat i = Some ptr ∧ mem !! ptr = Some x)
      ∧ stored q mem (next q i) items'
  end.

(** Drivers: a run of [push] calls and a run of [pop] calls on one
    variable, with the value each call returned. *)
Fixpoint push_all (items : list MarketData) (q : LockFreeQueue) (mem : gmap N MarketData)
  : undefined + list bool * LockFreeQueue * gmap N MarketData :=
  match items with
  | [] => inr ([], q, mem)
  | x :: items' =>
      match push x q mem with
      | inl u => inl u
      | inr (b, q', mem') =>
          match push_all items' q' mem' with
          | inl u => inl u
          | inr (bs, q'', mem'') => inr (b :: bs, q'', mem'')
          end
      end
  end.

Fixpoint pop_n (n : nat) (item : MarketData) (q : LockFreeQueue) (mem : gmap N MarketData)
  : undefined + list (bool * MarketData) * MarketData * LockFreeQueue * gmap N MarketData :=
  match n with
  | O => inr ([], item, q, mem)
  | S n' =>
      match pop item q mem with
      | inl u => inl u
      | inr (b, item', q', mem') =>
          match pop_n n' item' q' mem' with
          | inl u => inl u
          | inr (rs, item'', q'', mem'') => inr ((b, item') :: rs, item'', q'', mem'')
          end
      end
  end.

(** Every channel a program can hold: built by the constructor with a
    [size_t] capacity over any pool, found in any memory, then used through
    [push] and [pop] calls that returned. *)
Inductive channel_reachable : LockFreeQueue → gmap N MarketData → Prop :=
  | reach_constructed cap pool pool' q mem :
      cap ≤ SIZE_MAX →
      LockFreeQueue_new cap pool = (pool', inr q) →
      channel_reachable q mem
  | reach_push x q mem b q' mem' :
      channel_reachable q mem →
      push x q mem = inr (b, q', mem') →
      channel_reachable q' mem'
  | reach_pop item q mem b item' q' mem' :
      channel_reachable q mem →
      pop item q mem = inr (b, item', q', mem') →
      channel_reachable q' mem'.

(** What holds of every such channel: with capacity 0 it is the empty
    record the constructor built; otherwise it is well-formed and every
    slot from the head up to the tail has been assigned. *)
Definition channel_inv (q : LockFreeQueue) (mem : gmap N MarketData) : Prop :=
  if capacity q =? 0
  then q = {| buffer := []; head := 0; tail := 0; capacity := 0 |}
  else queue_wf q ∧ ∃ items, stored q mem (head q) items.

(** The slot at ring index [i] has been assigned a value. *)
Definition initialised (q : LockFreeQueue) (mem : gmap N MarketData) (i : N) : Prop :=
  ∃ ptr v, buffer q !! N.to_nat i = Some ptr ∧ mem !! ptr = Some v.

(** ** Loops *)

(** [n] passes through the body of the polling loop, the flag reading true
    before each. *)
Fixpoint consumer_iterations (n : nat) (env : environment) (c : counters) (w : world)
  : outcome counters :=
  match n with
  | O => Returns c w
  | S n' =>
      match consumer_body env c w with
      | Returns c w => consumer_iterations n' env c w
      | o => o
      end
  end.

(** The ladder in the specification's words.  The [j]-th sleep step, counted from
    0, lasts 10, 20, 40, 80 and from then on 100 microseconds; every
    thousandth one is announced in the log first. *)
Definition sleep_step (j : N) : list event :=
  (if wrap (j + 1) mod 1000 =? 0 then [Log QueueEmptyYielding false] else [])
  ++ [SleepMicroseconds (N.min (10 * 2 ^ N.min j 4) 100)].

(** What the [k]-th consecutive failed poll does, [k] counted from 1: the
    sleep steps fall on the polls 100000, 190000, 280000, ... *)
Definition ladder (k : N) : list event :=
  if k <? 10000 then []
  else if k <? 100000 then [Yield]
  else if (k - 100000) mod 90000 =? 0 then sleep_step ((k - 100000) / 90000)
  else [Yield].

(** The loop's locals after [k] consecutive failed polls that followed the
    [p]-th processed item. *)
Definition idle_counters (p k : N) : counters :=
  if k <? 100000
  then {| processed_count := p; empty_count := k; yield_count := 0; sleep_count := 0 |}
  else {| processed_count := p;
          empty_count := 10000 + (k - 100000) mod 90000;
          yield_count := wrap ((k - 100000) / 90000 + 1);
          sleep_count := N.min ((k - 100000) / 90000 + 1) 4 |}.

(** What the polls [k+1], ..., [k+n] do, in a row. *)
Definition ladder_trace (k : N) (n : nat) : list event :=
  concat ((λ i, ladder (k + N.of_nat i)) <$> seq 1 n).

(** [processed_count] after [n] more items: [++processed_count], [n] times. *)
Definition bump (n : nat) (processed_count : N) : N :=
  Nat.iter n (λ p, wrap (p + 1)) processed_count.

Definition set_processed_count (p : N) (c : counters) : counters :=
  {| processed_count := p; empty_count := empty_count c;
     yield_count := yield_count c; sleep_count := sleep_count c |}.

Definition processed_lines (items : list MarketData) : list event :=
  (λ x, Log (Processed x) false) <$> items.

(** [P] holds of the world a stretch of code ends in, however it ends. *)
Definition ends_in {A} (P : world → Prop) (o : outcome A) : Prop :=
  match o with
  | Returns _ w | Throws _ _ w => P w
  | Undefined _ | OutOfFuel => True
  end.

Definition caught {A} (o : outcome A) : Prop :=
  match o with
  | Throws _ _ _ => False
  | _ => True
  end.

(** The world in which the consumer's polling loop starts. *)
Definition consumer_started (w : world) : world :=
  emit [Log ConsumerStarted false] (emit [Log ConsumerAffinitySet false] w).

(** The world in which the producer's batch loop starts. *)
Definition producer_started (w : world) : world :=
  emit [Log (ProducerStarted (packet_count w)) false]
    (emit [Log ProducerAffinitySet false] w).

(** ** Bounded FIFO, the channel's reference model *)

(** How far the tail is ahead of ring index [i]. *)
Definition distance (q : LockFreeQueue) (i : N) : N :=
  if i <=? tail q then tail q - i else tail q + capacity q - i.

(** A call on the channel. *)
Inductive channel_op :=
  | Push (x : MarketData)
  | Pop.

(** A run of calls on the channel, all [pop]s on one variable; each call
    leaves what it returned: the boolean of a [push], the boolean and the
    variable after a [pop]. *)
Fixpoint run_ops (ops : list channel_op) (item : MarketData) (q : LockFreeQueue)
    (mem : gmap N MarketData)
  : undefined + list (bool + bool * MarketData) * MarketData * LockFreeQueue
                * gmap N MarketData :=
  match ops with
  | [] => inr ([], item, q, mem)
  | Push x :: ops' =>
      match push x q mem with
      | inl u => inl u
      | inr (b, q, mem) =>
          match run_ops ops' item q mem with
          | inl u => inl u
          | inr (rs, item, q, mem) => inr (inl b :: rs, item, q, mem)
          end
      end
  | Pop :: ops' =>
      match pop item q mem with
      | inl u => inl u
      | inr (b, item, q, mem) =>
          match run_ops ops' item q mem with
          | inl u => inl u
          | inr (rs, item', q, mem) => inr (inr (b, item) :: rs, item', q, mem)
          end
      end
  end.

(** The same run on a list that holds at most [cap - 1] items. *)
Fixpoint fifo_ops (cap : N) (ops : list channel_op) (item : MarketData)
    (l : list MarketData)
  : list (bool + bool * MarketData) * MarketData * list MarketData :=
  match ops with
  | [] => ([], item, l)
  | Push x :: ops' =>
      if N.of_nat (length l) + 1 <? cap
      then let '(rs, item, l) := fifo_ops cap ops' item (l ++ [x]) in
           (inl true :: rs, item, l)
      else let '(rs, item, l) := fifo_ops cap ops' item l in
           (inl false :: rs, item, l)
  | Pop :: ops' =>
      match l with
      | [] =>
          let '(rs, item', l) := fifo_ops cap ops' item [] in
          (inr (false, item) :: rs, item', l)
      | v :: l =>
          let '(rs, item', l) := fifo_ops cap ops' v l in
          (inr (true, v) :: rs, item', l)
      end
  end.

(** ** Producer and logger runs *)

(** The thirty records of the ten batches, in the order they are built. *)
Definition all_batches : list MarketData :=
  concat (batch_data <$> [0; 1; 2; 3; 4; 5; 6; 7; 8; 9]%Z).

(** The records of the [n] batches from [batch] on. *)
Fixpoint batches_from (n : nat) (batch : Z) : list MarketData :=
  match n with
  | O => []
  | S n' => batch_data batch ++ batches_from n' (batch + 1)
  end.

(** A run of [log] calls. *)
Definition log_all (calls : list (string * bool)) (l : Logger) : Logger :=
  foldl (λ l call, log call.1 call.2 l) l calls.

(** What a run of [log] calls writes to one stream. *)
Definition written (calls : list (string * bool)) : list string :=
  concat ((λ call, [call.1; newline]) <$> calls).

(** The world a producer works in: the flag is up and the ring holds
    [items], in distinct slots. *)
Definition producing (w : world) (items : list MarketData) : Prop :=
  running w = true
  ∧ queue_wf (dataQueue w)
  ∧ NoDup (buffer (dataQueue w))
  ∧ stored (dataQueue w) (memory w) (head (dataQueue w)) items.

(** The polling loop's counters as the loop keeps them: the idle counter
    below the sleep threshold once a pass is over, at most four doublings. *)
Definition counters_ok (c : counters) : Prop :=
  empty_count c < 100000 ∧ sleep_count c ≤ 4.

(** What one pass may do to the thread: nothing, a yield, or a sleep of at
    most 100 microseconds; logging apart. *)
Definition short_pause (ev : event) : Prop :=
  match ev with
  | Log _ _ | Yield => True
  | SleepMicroseconds us => us ≤ 100
  | SleepMilliseconds _ => False
  end.

(** ** Concrete pools, queues and machines *)

(** The three records of the producer's first batch. *)
Definition AAPL : MarketData := {| symbol := "AAPL"; price := 150.25; volume := 1000 |}.
Definition GOOG : MarketData := {| symbol := "GOOG"; price := 2750.1; volume := 500 |}.
Definition MSFT : MarketData := {| symbol := "MSFT"; price := 300.75; volume := 800 |}.

(** A pool of ten slots at address 4096 and the ten-slot queue over it. *)
Definition pool10 : MemoryPool :=
  {| storage_ := 4096; free_list_ := slot_addresses 4096 0 10; size_ := 10 |}.

Definition queue10 : LockFreeQueue :=
  {| buffer := rev (slot_addresses 4096 0 10); head := 0; tail := 0; capacity := 10 |}.

(** A quiet machine: pinning works, nothing ever raises. *)
Definition env0 : environment :=
  {| CPU_SETSIZE := 1024;
     pthread_setaffinity_np := λ _, 0%Z;
     default_initialised := {| symbol := ""; price := 0; volume := 0 |};
     batch_fault := λ _, None;
     format_fault := λ _, None |}.

(** A parser over the ten-slot queue, right after [start()]. *)
Definition world0 : world :=
  start {| running := false; pool := set_free_list pool10 []; dataQueue := queue10;
           packet_count := 0; memory := ∅; trace := [] |}.

(** Five records: the producer's first batch and the start of its second. *)
Definition five_items : list MarketData :=
  batch_data 0 ++ take 2 (batch_data 1).

(** A machine on which pinning fails with [EINVAL]. *)
Definition env_einval : environment :=
  {| CPU_SETSIZE := 1024;
     pthread_setaffinity_np := λ _, 22%Z;
     default_initialised := default_initialised env0;
     batch_fault := λ _, None;
     format_fault := λ _, None |}.

(** A machine on which the fourth batch cannot be allocated. *)
Definition env_bad_alloc : environment :=
  {| CPU_SETSIZE := 1024;
     pthread_setaffinity_np := λ _, 0%Z;
     default_initialised := default_initialised env0;
     batch_fault := λ batch, if (batch =? 3)%Z then Some bad_alloc else None;
     format_fault := λ _, None |}.

(** A machine on which the line of the second item cannot be formatted. *)
Definition env_format_fault : environment :=
  {| CPU_SETSIZE := 1024;
     pthread_setaffinity_np := λ _, 0%Z;
     default_initialised := default_initialised env0;
     batch_fault := λ _, None;
     format_fault := λ n, if n =? 1 then Some bad_alloc else None |}.

(** A machine whose CPU set has a single core. *)
Definition env_one_core : environment :=
  {| CPU_SETSIZE := 1;
     pthread_setaffinity_np := λ _, 0%Z;
     default_initialised := default_initialised env0;
     batch_fault := λ _, None;
     format_fault := λ _, None |}.

(** A pool of forty slots, the forty-slot queue over it, and a parser over
    that queue right after [start()]. *)
Definition pool40 : MemoryPool :=
  {| storage_ := 4096; free_list_ := slot_addresses 4096 0 40; size_ := 40 |}.

Definition queue40 : LockFreeQueue :=
  {| buffer := rev (slot_addresses 4096 0 40); head := 0; tail := 0; capacity := 40 |}.

Definition world40 : world :=
  start {| running := false; pool := set_free_list pool40 []; dataQueue := queue40;
           packet_count := 0; memory := ∅; trace := [] |}.

(** * Memory pool: basic facts *)

Section pool_facts.
Implicit Types (pool : MemoryPool) (fl : list N) (ptr : N).

Lemma snoc_cases {A} (l : list A) : l = [] ∨ ∃ l' x, l = l' ++ [x].
Proof. induction l using rev_ind; eauto. Qed.

Lemma fill_free_list_spec storage n : ∀ i fl,
  fill_free_list storage i n fl = fl ++ slot_addresses storage i n.
Proof.
  unfold slot_addresses.
  induction n as [|n IH]; intros i fl; simpl.
  - by rewrite app_nil_r.
  - rewrite IH, <- app_assoc. f_equal. simpl. f_equal.
    + f_equal. lia.
    + rewrite <- fmap_S_seq, <- list_fmap_compose.
      apply list_fmap_ext. intros _ k _. simpl. f_equal. lia.
Qed.

Lemma MemoryPool_new_free_list storage size pool :
  MemoryPool_new storage size = inr pool →
  storage ≠ nullptr ∧ storage_ pool = storage ∧ size_ pool = size ∧
  free_list_ pool = slot_addresses storage 0 (N.to_nat size).
Proof.
  unfold MemoryPool_new. destruct (N.eqb_spec storage 0); [done|].
  intros [= <-]. simpl. by rewrite fill_free_list_spec.
Qed.

Lemma allocate_nil pool :
  free_list_ pool = [] → allocate pool = (nullptr, pool).
Proof. unfold allocate. by intros ->. Qed.

Lemma allocate_snoc pool fl ptr :
  free_list_ pool = fl ++ [ptr] → allocate pool = (ptr, set_free_list pool fl).
Proof.
  unfold allocate. intros ->. by rewrite last_snoc, removelast_last.
Qed.

Lemma set_free_list_id pool : set_free_list pool (free_list_ pool) = pool.
Proof. by destruct pool. Qed.

Lemma set_free_list_twice pool fl fl' :
  set_free_list (set_free_list pool fl) fl' = set_free_list pool fl'.
Proof. done. Qed.

Lemma slot_addresses_nonnull storage i n :
  storage ≠ nullptr → Forall (λ p, p ≠ nullptr) (slot_addresses storage i n).
Proof.
  intros Hs. unfold slot_addresses. apply Forall_fmap, Forall_forall.
  intros k _. simpl. lia.
Qed.

(** No reachable pool holds a null pointer in its free list. *)
Lemma pool_reachable_nonnull pool :
  pool_reachable pool → Forall (λ p, p ≠ nullptr) (free_list_ pool).
Proof.
  induction 1 as [storage size pool Hnew|pool _ IH|ptr pool _ IH].
  - apply MemoryPool_new_free_list in Hnew as (Hs & _ & _ & ->).
    by apply slot_addresses_nonnull.
  - destruct (snoc_cases (free_list_ pool)) as [Hfl|(fl & x & Hfl)].
    + by rewrite (allocate_nil _ Hfl).
    + rewrite (allocate_snoc _ _ _ Hfl). simpl.
      rewrite Hfl in IH. by apply Forall_app in IH as [? _].
  - unfold deallocate. destruct (N.eqb_spec ptr 0); [done|]. simpl.
    apply Forall_app. split; [done|]. by apply Forall_singleton.
Qed.
End pool_facts.

(** * Queue construction *)

Section construction.
Implicit Types (pool : MemoryPool) (fl done rest taken : list N).

Lemma insert_at_boundary done rest (x y : N) :
  <[N.to_nat (N.of_nat (length done)) := y]> (done ++ x :: rest)
  = (done ++ [y]) ++ rest.
Proof.
  rewrite Nat2N.id, insert_app_r_alt, Nat.sub_diag by lia.
  simpl. by rewrite <- app_assoc.
Qed.

Lemma next_index done (y : N) :
  N.of_nat (length done) + 1 = N.of_nat (length (done ++ [y])).
Proof. rewrite length_app. simpl. lia. Qed.

(** The loop succeeds when the free list holds [n] more pointers: it takes
    them from the back, one per buffer cell. *)
Lemma fill_buffer_ok n : ∀ done rest fl taken pool,
  free_list_ pool = fl ++ taken →
  length taken = n →
  Forall (λ p, p ≠ nullptr) taken →
  (n ≤ length rest)%nat →
  fill_buffer n (N.of_nat (length done)) (done ++ rest) pool
  = (set_free_list pool fl, done ++ rev taken ++ drop n rest, None).
Proof.
  induction n as [|n IH]; intros done rest fl taken pool Hfl Hlen Hnn Hrest.
  - destruct taken; [|done]. rewrite app_nil_r in Hfl. simpl.
    by rewrite <- Hfl, set_free_list_id.
  - destruct (snoc_cases taken) as [->|(taken' & p & ->)]; [discriminate|].
    destruct rest as [|r rest]; [simpl in Hrest; lia|].
    rewrite length_app in Hlen. simpl in Hlen, Hrest.
    apply Forall_app in Hnn as [Hnn Hp]. apply Forall_inv in Hp.
    simpl. rewrite app_assoc in Hfl. rewrite (allocate_snoc _ _ _ Hfl).
    destruct (N.eqb_spec p 0) as [Hz|_]; [by apply Hp in Hz|].
    rewrite insert_at_boundary, (next_index done p).
    rewrite (IH (done ++ [p]) rest fl taken'); [|done|lia|done|lia].
    rewrite set_free_list_twice, rev_app_distr. simpl.
    by rewrite <- app_assoc.
Qed.

(** The loop throws when the free list is too short; by then it has taken
    every pointer the free list held. *)
Lemma fill_buffer_throw n : ∀ done rest pool,
  Forall (λ p, p ≠ nullptr) (free_list_ pool) →
  (length (free_list_ pool) < n)%nat →
  (n ≤ length rest)%nat →
  ∃ buf,
    fill_buffer n (N.of_nat (length done)) (done ++ rest) pool
    = (set_free_list pool [], buf, Some (runtime_error "Memory pool exhausted"))
    ∧ take (length done + length (free_list_ pool)) buf
      = done ++ rev (free_list_ pool).
Proof.
  induction n as [|n IH]; intros done rest pool Hnn Hlen Hrest; [lia|].
  destruct rest as [|r rest]; [simpl in Hrest; lia|]. simpl in Hrest.
  destruct (snoc_cases (free_list_ pool)) as [Hfl|(fl & p & Hfl)].
  - simpl. rewrite (allocate_nil _ Hfl). simpl.
    eexists. split.
    + by rewrite <- Hfl, set_free_list_id.
    + rewrite Hfl, Nat2N.id, Nat.add_0_r. simpl.
      rewrite take_insert_ge, take_app_length, app_nil_r by lia. done.
  - rewrite Hfl in Hnn, Hlen. rewrite length_app in Hlen. simpl in Hlen.
    apply Forall_app in Hnn as [Hnn Hp]. apply Forall_inv in Hp.
    simpl. rewrite (allocate_snoc _ _ _ Hfl).
    destruct (N.eqb_spec p 0) as [Hz|_]; [by apply Hp in Hz|].
    rewrite insert_at_boundary, (next_index done p).
    destruct (IH (done ++ [p]) rest (set_free_list pool fl))
      as (buf & Hrun & Htake); [done|simpl; lia|lia|].
    exists buf. split; [done|].
    simpl in Htake. rewrite Hfl, rev_app_distr. simpl.
    rewrite !length_app in *. simpl in *.
    replace (length done + (length fl + 1))%nat
      with (length done + 1 + length fl)%nat by lia.
    by rewrite Htake, <- app_assoc.
Qed.

Lemma LockFreeQueue_new_ok pool cap fl taken :
  free_list_ pool = fl ++ taken →
  length taken = N.to_nat cap →
  Forall (λ p, p ≠ nullptr) taken →
  LockFreeQueue_new cap pool
  = (set_free_list pool fl,
     inr {| buffer := rev taken; head := 0; tail := 0; capacity := cap |}).
Proof.
  intros Hfl Hlen Hnn. unfold LockFreeQueue_new.
  pose proof (fill_buffer_ok (N.to_nat cap) [] (replicate (N.to_nat cap) 0)
                fl taken pool Hfl Hlen Hnn) as Hrun.
  change (N.of_nat (length [])) with 0 in Hrun. simpl in Hrun.
  rewrite Hrun by (by rewrite length_replicate).
  rewrite drop_ge, app_nil_r by (by rewrite length_replicate). done.
Qed.

Lemma LockFreeQueue_new_throw pool cap :
  Forall (λ p, p ≠ nullptr) (free_list_ pool) →
  (length (free_list_ pool) < N.to_nat cap)%nat →
  LockFreeQueue_new cap pool
  = (set_free_list pool [], inl (runtime_error "Memory pool exhausted")).
Proof.
  intros Hnn Hlen. unfold LockFreeQueue_new.
  destruct (fill_buffer_throw (N.to_nat cap) [] (replicate (N.to_nat cap) 0)
              pool Hnn Hlen) as (buf & Hrun & _).
  { by rewrite length_replicate. }
  change (N.of_nat (length [])) with 0 in Hrun. simpl in Hrun.
  by rewrite Hrun.
Qed.

(** How a free list of at least [n] entries splits for the loop. *)
Lemma split_back fl (n : nat) :
  (n ≤ length fl)%nat →
  fl = take (length fl - n) fl ++ drop (length fl - n) fl
  ∧ length (drop (length fl - n) fl) = n.
Proof. intros H. rewrite take_drop, length_drop. split; [done|lia]. Qed.
End construction.

(** * Ring invariants *)

Section ring_facts.
Implicit Types (q : LockFreeQueue) (mem : gmap N MarketData)
  (items : list MarketData) (x item : MarketData) (i : N).

Lemma wrap_small n : n ≤ SIZE_MAX → wrap n = n.
Proof. unfold wrap, SIZE_MAX. intros H. apply N.mod_small. lia. Qed.

Lemma next_spec q i :
  1 ≤ capacity q ≤ SIZE_MAX → i < capacity q →
  next q i = if i + 1 =? capacity q then 0 else i + 1.
Proof.
  intros Hc Hi. unfold next. rewrite wrap_small by lia.
  destruct (N.eqb_spec (i + 1) (capacity q)) as [->|Hne].
  - apply N.Div0.mod_same.
  - apply N.mod_small. lia.
Qed.

Lemma next_lt q i :
  1 ≤ capacity q ≤ SIZE_MAX → i < capacity q → next q i < capacity q.
Proof.
  intros Hc Hi. rewrite next_spec by done.
  destruct (N.eqb_spec (i + 1) (capacity q)); lia.
Qed.

Lemma next_inj q i j :
  1 ≤ capacity q ≤ SIZE_MAX → i < capacity q → j < capacity q →
  next q i = next q j → i = j.
Proof.
  intros Hc Hi Hj. rewrite !next_spec by done.
  destruct (N.eqb_spec (i + 1) (capacity q)),
           (N.eqb_spec (j + 1) (capacity q)); lia.
Qed.

Lemma next_set_tail q t i : next (set_tail q t) i = next q i.
Proof. done. Qed.

Lemma next_set_head q h i : next (set_head q h) i = next q i.
Proof. done. Qed.

Lemma stored_set_head q mem h i items :
  stored (set_head q h) mem i items ↔ stored q mem i items.
Proof. revert i. induction items as [|x items IH]; intros i; simpl; [done|].
  by rewrite IH. Qed.

Lemma queue_wf_set_tail q t :
  queue_wf q → t < capacity q → queue_wf (set_tail q t).
Proof. intros []. by split. Qed.

Lemma queue_wf_set_head q h :
  queue_wf q → h < capacity q → queue_wf (set_head q h).
Proof. intros []. by split. Qed.

Lemma buffer_lookup q i :
  queue_wf q → i < capacity q →
  ∃ ptr, buffer q !! N.to_nat i = Some ptr ∧ ptr ≠ nullptr.
Proof.
  intros Hwf Hi.
  destruct (lookup_lt_is_Some_2 (buffer q) (N.to_nat i)) as [ptr Hptr].
  { rewrite (wf_length _ Hwf). lia. }
  exists ptr. split; [done|].
  eapply (proj1 (Forall_lookup _ _) (wf_nonnull _ Hwf)); done.
Qed.

(** What [push] does on a well-formed queue. *)
Lemma push_wf x q mem :
  queue_wf q →
  (next q (tail q) = head q ∧ push x q mem = inr (false, q, mem))
  ∨ (next q (tail q) ≠ head q ∧
     ∃ ptr, buffer q !! N.to_nat (tail q) = Some ptr ∧ ptr ≠ nullptr ∧
       push x q mem
       = inr (true, set_tail q (next q (tail q)), <[ptr := x]> mem)).
Proof.
  intros Hwf. pose proof (wf_capacity _ Hwf) as Hc.
  unfold push. fold (next q (tail q)).
  destruct (N.eqb_spec (capacity q) 0) as [|_]; [lia|].
  destruct (N.eqb_spec (next q (tail q)) (head q)) as [Hfull|Hroom].
  - by left.
  - right. split; [done|].
    destruct (buffer_lookup q (tail q) Hwf (wf_tail _ Hwf)) as (ptr & Hptr & Hnn).
    exists ptr. rewrite Hptr.
    by destruct (N.eqb_spec ptr 0).
Qed.

(** A slot further back on the ring is not the one [push] writes. *)
Lemma stored_push q mem x ptr items : ∀ i,
  queue_wf q → NoDup (buffer q) →
  buffer q !! N.to_nat (tail q) = Some ptr →
  i < capacity q →
  i ≠ next q (tail q) →
  stored q mem i items →
  stored (set_tail q (next q (tail q))) (<[ptr := x]> mem) i (items ++ [x]).
Proof.
  intros i Hwf Hnd Hptr. revert i.
  pose proof (wf_capacity _ Hwf) as Hc. pose proof (wf_tail _ Hwf) as Ht.
  induction items as [|y items IH]; intros i Hi Hne Hst; simpl in *.
  - subst i. split; [done|]. split; [|done].
    exists ptr. by rewrite lookup_insert_eq.
  - destruct Hst as (Hit & (pi & Hpi & Hy) & Hst).
    split; [done|]. split.
    + exists pi. split; [done|]. rewrite lookup_insert_ne; [done|].
      intros ->. apply Hit.
      apply N2Nat.inj. eapply NoDup_lookup; [apply Hnd|done..].
    + rewrite next_set_tail. apply IH; [by apply next_lt| |done].
      intros Heq. apply Hit. by apply (next_inj q).
Qed.

Lemma push_true x q mem q' mem' items :
  queue_wf q → NoDup (buffer q) → stored q mem (head q) items →
  push x q mem = inr (true, q', mem') →
  queue_wf q' ∧ buffer q' = buffer q ∧ head q' = head q
  ∧ stored q' mem' (head q') (items ++ [x]).
Proof.
  intros Hwf Hnd Hst Hpush.
  destruct (push_wf x q mem Hwf) as [[_ Hp]|(Hroom & ptr & Hptr & _ & Hp)];
    rewrite Hp in Hpush; [done|].
  injection Hpush as <- <-.
  pose proof (wf_capacity _ Hwf). pose proof (wf_tail _ Hwf).
  split; [|split; [done|split; [done|]]].
  - apply queue_wf_set_tail; [done|]. by apply next_lt.
  - apply stored_push; [done|done|done|apply (wf_head _ Hwf)|done|done].
Qed.

Lemma push_all_true items : ∀ q mem q' mem' bs old,
  queue_wf q → NoDup (buffer q) → stored q mem (head q) old →
  push_all items q mem = inr (bs, q', mem') →
  Forall (λ b, b = true) bs →
  queue_wf q' ∧ buffer q' = buffer q ∧ head q' = head q
  ∧ stored q' mem' (head q') (old ++ items).
Proof.
  induction items as [|x items IH];
    intros q mem q' mem' bs old Hwf Hnd Hst Hrun Hbs; simpl in Hrun.
  - injection Hrun as <- <- <-. by rewrite app_nil_r.
  - destruct (push x q mem) as [|[[b q1] mem1]] eqn:Hp; [done|].
    destruct (push_all items q1 mem1) as [|[[bs' q2] mem2]] eqn:Hps; [done|].
    injection Hrun as <- <- <-.
    apply Forall_cons in Hbs as [-> Hbs].
    destruct (push_true _ _ _ _ _ _ Hwf Hnd Hst Hp) as (Hwf1 & Hb1 & Hh1 & Hst1).
    rewrite <- Hb1 in Hnd.
    destruct (IH _ _ _ _ _ _ Hwf1 Hnd Hst1 Hps Hbs) as (Hwf2 & Hb2 & Hh2 & Hst2).
    split; [done|]. split; [congruence|]. split; [congruence|].
    by rewrite <- app_assoc in Hst2.
Qed.

(** What [pop] does when the ring holds something. *)
Lemma pop_stored item q mem x items :
  queue_wf q → stored q mem (head q) (x :: items) →
  pop item q mem = inr (true, x, set_head q (next q (head q)), mem)
  ∧ queue_wf (set_head q (next q (head q)))
  ∧ stored (set_head q (next q (head q))) mem (next q (head q)) items.
Proof.
  intros Hwf (Hne & (ptr & Hptr & Hx) & Hst).
  pose proof (wf_capacity _ Hwf) as Hc.
  split; [|split].
  - unfold pop. fold (next q (head q)).
    destruct (N.eqb_spec (head q) (tail q)) as [|_]; [done|].
    rewrite Hptr.
    assert (ptr ≠ 0) as Hnn.
    { eapply (proj1 (Forall_lookup _ _) (wf_nonnull _ Hwf)); done. }
    destruct (N.eqb_spec ptr 0) as [|_]; [done|].
    rewrite Hx.
    destruct (N.eqb_spec (capacity q) 0) as [|_]; [lia|]. done.
  - apply queue_wf_set_head; [done|]. apply next_lt; [done|apply (wf_head _ Hwf)].
  - by apply stored_set_head.
Qed.

Lemma pop_empty item q mem :
  head q = tail q → pop item q mem = inr (false, item, q, mem).
Proof. intros H. unfold pop. by rewrite H, N.eqb_refl. Qed.

Lemma last_cons_default {A} (l : list A) : ∀ a d : A,
  default d (last (a :: l)) = default a (last l).
Proof.
  induction l as [|b l IH]; intros a d; [done|].
  change (last (a :: b :: l)) with (last (b :: l)).
  by rewrite (IH b d), (IH b a).
Qed.

Lemma pop_n_snoc n : ∀ item q mem rs item' q' mem' b item'' q'' mem'',
  pop_n n item q mem = inr (rs, item', q', mem') →
  pop item' q' mem' = inr (b, item'', q'', mem'') →
  pop_n (S n) item q mem = inr (rs ++ [(b, item'')], item'', q'', mem'').
Proof.
  induction n as [|n IH]; intros item q mem rs item' q' mem' b item'' q'' mem''.
  - intros [= <- <- <- <-] Hpop. simpl. by rewrite Hpop.
  - intros Hrun Hpop. simpl in Hrun.
    destruct (pop item q mem) as [|[[[b1 i1] q1] m1]] eqn:Hp1; [done|].
    destruct (pop_n n i1 q1 m1) as [|[[[rs1 i2] q2] m2]] eqn:Hrun1; [done|].
    injection Hrun as <- <- <- <-.
    specialize (IH _ _ _ _ _ _ _ _ _ _ _ Hrun1 Hpop).
    change (pop_n (S (S n)) item q mem)
      with (match pop item q mem with
            | inl u => inl u
            | inr (b, item', q', mem') =>
                match pop_n (S n) item' q' mem' with
                | inl u => inl u
                | inr (rs, item'', q'', mem'') =>
                    inr ((b, item') :: rs, item'', q'', mem'')
                end
            end).
    by rewrite Hp1, IH.
Qed.

(** Draining by [pop]: the stored items come out oldest first and leave
    the ring empty. *)
Lemma pop_n_stored items : ∀ item q mem,
  queue_wf q → stored q mem (head q) items →
  ∃ q',
    pop_n (length items) item q mem
    = inr ((λ x, (true, x)) <$> items, default item (last items), q', mem)
    ∧ queue_wf q' ∧ head q' = tail q' ∧ tail q' = tail q.
Proof.
  induction items as [|x items IH]; intros item q mem Hwf Hst.
  - exists q. simpl in *. done.
  - destruct (pop_stored item q mem x items Hwf Hst) as (Hpop & Hwf' & Hst').
    destruct (IH x _ mem Hwf' Hst') as (q' & Hrun & Hwf'' & Hemp & Htl).
    exists q'. simpl. rewrite Hpop, Hrun.
    split; [|done]. do 3 f_equal.
    by rewrite last_cons_default.
Qed.
End ring_facts.

(** * Constructed queues *)

Section constructed.
Implicit Types (pool : MemoryPool) (q : LockFreeQueue) (cap : N).

(** A loop that did not throw took [n] non-null pointers off the back. *)
Lemma fill_buffer_None_inv n : ∀ i buf pool pool' buf',
  fill_buffer n i buf pool = (pool', buf', None) →
  ∃ fl taken, free_list_ pool = fl ++ taken ∧ length taken = n
              ∧ Forall (λ p, p ≠ nullptr) taken.
Proof.
  induction n as [|n IH]; intros i buf pool pool' buf' Hrun; simpl in Hrun.
  - exists (free_list_ pool), []. by rewrite app_nil_r.
  - destruct (snoc_cases (free_list_ pool)) as [Hfl|(fl & p & Hfl)].
    + by rewrite (allocate_nil _ Hfl) in Hrun.
    + rewrite (allocate_snoc _ _ _ Hfl) in Hrun.
      destruct (N.eqb_spec p 0) as [|Hp]; [done|].
      apply IH in Hrun as (fl' & taken & Hfl' & Hlen & Hnn).
      simpl in Hfl'. subst fl.
      exists fl', (taken ++ [p]). rewrite Hfl, length_app, Forall_app, <- app_assoc.
      simpl. repeat split; [lia|done|]. by apply Forall_singleton.
Qed.

Lemma LockFreeQueue_new_inv cap pool pool' q :
  LockFreeQueue_new cap pool = (pool', inr q) →
  ∃ fl taken,
    free_list_ pool = fl ++ taken ∧ length taken = N.to_nat cap
    ∧ Forall (λ p, p ≠ nullptr) taken
    ∧ pool' = set_free_list pool fl
    ∧ q = {| buffer := rev taken; head := 0; tail := 0; capacity := cap |}.
Proof.
  intros Hnew. pose proof Hnew as Hnew'. unfold LockFreeQueue_new in Hnew'.
  destruct (fill_buffer _ _ _ _) as [[pool1 buf] [e|]] eqn:Hrun; [done|].
  apply fill_buffer_None_inv in Hrun as (fl & taken & Hfl & Hlen & Hnn).
  exists fl, taken. rewrite (LockFreeQueue_new_ok _ _ _ _ Hfl Hlen Hnn) in Hnew.
  injection Hnew as <- <-. done.
Qed.

Lemma LockFreeQueue_new_wf cap pool pool' q :
  1 ≤ cap ≤ SIZE_MAX →
  LockFreeQueue_new cap pool = (pool', inr q) →
  queue_wf q ∧ head q = 0 ∧ tail q = 0 ∧ capacity q = cap.
Proof.
  intros Hc Hnew.
  apply LockFreeQueue_new_inv in Hnew as (fl & taken & _ & Hlen & Hnn & _ & ->).
  split; [|done]. split; simpl; [done| |by apply Forall_rev|lia..].
  by rewrite length_rev.
Qed.

Lemma LockFreeQueue_new_NoDup cap pool pool' q :
  NoDup (free_list_ pool) →
  LockFreeQueue_new cap pool = (pool', inr q) →
  NoDup (buffer q).
Proof.
  intros Hnd Hnew.
  apply LockFreeQueue_new_inv in Hnew as (fl & taken & Hfl & _ & _ & _ & ->).
  simpl. rewrite Hfl in Hnd. apply NoDup_app in Hnd as (_ & _ & Hnd).
  by rewrite <- Permutation_rev.
Qed.

Lemma slot_addresses_NoDup storage i n : NoDup (slot_addresses storage i n).
Proof.
  unfold slot_addresses. apply NoDup_fmap_2_strong; [|apply NoDup_seq].
  intros j k _ _. unfold sizeof_MarketData. lia.
Qed.

Lemma slot_addresses_length storage i n : length (slot_addresses storage i n) = n.
Proof. unfold slot_addresses. by rewrite length_fmap, length_seq. Qed.
End constructed.

Section filling.
Implicit Types (q : LockFreeQueue) (mem : gmap N MarketData)
  (items : list MarketData) (x item : MarketData) (i : N).

Lemma initialised_insert q mem ptr x i :
  initialised q mem i → initialised q (<[ptr := x]> mem) i.
Proof.
  intros (p & v & Hp & Hv). destruct (decide (ptr = p)) as [->|Hne].
  - exists p, x. by rewrite lookup_insert_eq.
  - exists p, v. by rewrite lookup_insert_ne.
Qed.

Lemma initialised_set_tail q mem t i :
  initialised (set_tail q t) mem i ↔ initialised q mem i.
Proof. done. Qed.

(** While the tail stays below [capacity - 1] and the head rests at [0],
    every [push] succeeds and moves the tail up by one. *)
Lemma push_all_room items : ∀ q mem,
  queue_wf q → head q = 0 →
  tail q + N.of_nat (length items) < capacity q →
  ∃ mem',
    push_all items q mem
    = inr (replicate (length items) true,
           set_tail q (tail q + N.of_nat (length items)), mem')
    ∧ (∀ i, initialised q mem i → initialised q mem' i)
    ∧ (∀ i, tail q ≤ i < tail q + N.of_nat (length items) → initialised q mem' i).
Proof.
  induction items as [|x items IH]; intros q mem Hwf Hh Hroom.
  - exists mem. simpl. split; [|split; [done|intros i Hi; simpl in Hi; lia]].
    replace (tail q + N.of_nat 0) with (tail q) by lia. by destruct q.
  - simpl length in *. pose proof (wf_capacity _ Hwf) as Hc.
    assert (next q (tail q) = tail q + 1) as Hnext.
    { rewrite next_spec by (done || lia).
      destruct (N.eqb_spec (tail q + 1) (capacity q)); lia. }
    destruct (push_wf x q mem Hwf) as [[Hfull _]|(_ & ptr & Hptr & _ & Hp)];
      [lia|].
    rewrite Hnext in Hp.
    destruct (IH (set_tail q (tail q + 1)) (<[ptr := x]> mem))
      as (mem' & Hrun & Hmono & Hinit).
    { apply queue_wf_set_tail; [done|lia]. }
    { done. }
    { simpl. lia. }
    exists mem'. simpl. rewrite Hp, Hrun. split; [|split].
    + replace (tail q + N.of_nat (S (length items)))
        with (tail q + 1 + N.of_nat (length items)) by lia. done.
    + intros i Hi. apply Hmono. by apply initialised_insert.
    + intros i Hi. destruct (decide (i = tail q)) as [->|Hne].
      * apply Hmono. exists ptr, x. by rewrite lookup_insert_eq.
      * apply Hinit. simpl. lia.
Qed.
End filling.

Section reachable_channels.
Implicit Types (q : LockFreeQueue) (mem : gmap N MarketData)
  (items : list MarketData) (x item : MarketData) (i : N).

(** Without distinct slot pointers a [push] may overwrite older items, but
    every slot up to the new tail still holds a value. *)
Lemma stored_push_any q mem x ptr items : ∀ i,
  queue_wf q →
  buffer q !! N.to_nat (tail q) = Some ptr →
  i < capacity q →
  i ≠ next q (tail q) →
  stored q mem i items →
  ∃ items',
    stored (set_tail q (next q (tail q))) (<[ptr := x]> mem) i (items' ++ [x]).
Proof.
  intros i Hwf Hptr. revert i.
  pose proof (wf_capacity _ Hwf) as Hc. pose proof (wf_tail _ Hwf) as Ht.
  induction items as [|y items IH]; intros i Hi Hne Hst; simpl in *.
  - subst i. exists []. simpl. split; [done|]. split; [|done].
    exists ptr. by rewrite lookup_insert_eq.
  - destruct Hst as (Hit & (pi & Hpi & Hy) & Hst).
    destruct (IH (next q i)) as (items' & IH'); [by apply next_lt| |done|].
    { intros Heq. apply Hit. by apply (next_inj q). }
    destruct (decide (ptr = pi)) as [->|Hpp].
    + exists (x :: items'). simpl. split; [done|]. split; [|done].
      exists pi. by rewrite lookup_insert_eq.
    + exists (y :: items'). simpl. split; [done|]. split; [|done].
      exists pi. by rewrite lookup_insert_ne.
Qed.

Lemma channel_inv_constructed cap pool pool' q mem :
  cap ≤ SIZE_MAX →
  LockFreeQueue_new cap pool = (pool', inr q) →
  channel_inv q mem.
Proof.
  intros Hcap Hnew. unfold channel_inv.
  destruct (N.eqb_spec (capacity q) 0) as [Hz|Hnz].
  - apply LockFreeQueue_new_inv in Hnew as (fl & taken & _ & Hlen & _ & _ & ->).
    simpl in Hz. subst cap. by destruct taken.
  - assert (capacity q = cap) as Hc.
    { by apply LockFreeQueue_new_inv in Hnew as (? & ? & _ & _ & _ & _ & ->). }
    destruct (LockFreeQueue_new_wf cap pool pool' q) as (Hwf & Hh & Ht & _);
      [lia|done|].
    split; [done|]. exists []. simpl. congruence.
Qed.

Lemma channel_inv_push x q mem b q' mem' :
  channel_inv q mem → push x q mem = inr (b, q', mem') → channel_inv q' mem'.
Proof.
  unfold channel_inv. intros Hinv Hpush.
  destruct (N.eqb_spec (capacity q) 0) as [Hz|Hnz].
  - unfold push in Hpush. by rewrite Hz in Hpush.
  - destruct Hinv as (Hwf & items & Hst).
    pose proof (wf_capacity _ Hwf) as Hc.
    destruct (push_wf x q mem Hwf) as [[_ Hp]|(Hroom & ptr & Hptr & _ & Hp)];
      rewrite Hp in Hpush; injection Hpush as <- <- <-.
    + destruct (N.eqb_spec (capacity q) 0); [done|]. eauto.
    + simpl. destruct (N.eqb_spec (capacity q) 0); [done|].
      split; [apply queue_wf_set_tail; [done|apply next_lt; [done|apply Hwf]]|].
      destruct (stored_push_any q mem x ptr items (head q) Hwf Hptr)
        as (items' & Hst'); [apply Hwf|done|done|].
      by exists (items' ++ [x]).
Qed.

Lemma channel_inv_pop item q mem b item' q' mem' :
  channel_inv q mem → pop item q mem = inr (b, item', q', mem') →
  channel_inv q' mem'.
Proof.
  unfold channel_inv. intros Hinv Hpop.
  destruct (N.eqb_spec (capacity q) 0) as [Hz|Hnz].
  - subst q. by injection Hpop as <- <- <- <-.
  - destruct Hinv as (Hwf & [|y items] & Hst).
    + rewrite pop_empty in Hpop by done. injection Hpop as <- <- <- <-.
      destruct (N.eqb_spec (capacity q) 0); [done|]. split; [done|]. by exists [].
    + destruct (pop_stored item q mem y items Hwf Hst) as (Hp & Hwf' & Hst').
      rewrite Hp in Hpop. injection Hpop as <- <- <- <-. simpl.
      destruct (N.eqb_spec (capacity q) 0); [done|]. split; [done|].
      by exists items.
Qed.

Lemma channel_reachable_inv q mem : channel_reachable q mem → channel_inv q mem.
Proof.
  induction 1 as [cap pool pool' q mem Hcap Hnew
                 |x q mem b q' mem' _ IH Hpush
                 |item q mem b item' q' mem' _ IH Hpop].
  - by apply (channel_inv_constructed cap pool pool').
  - by apply (channel_inv_push x q mem b).
  - by apply (channel_inv_pop item q mem b item').
Qed.
End reachable_channels.

Section parser_facts.
Implicit Types (pool : MemoryPool) (q : LockFreeQueue) (w : world).

(** The producer's first batch is the triple of the end-to-end scenario. *)
Lemma batch_data_0 : batch_data 0 = [AAPL; GOOG; MSFT].
Proof. by vm_compute. Qed.

(** The destructor hands every slot of the ring back to the pool. *)
Lemma LockFreeQueue_delete_free_list q : ∀ pool,
  Forall (λ p, p ≠ nullptr) (buffer q) →
  free_list_ (LockFreeQueue_delete q pool) = free_list_ pool ++ buffer q.
Proof.
  unfold LockFreeQueue_delete.
  induction (buffer q) as [|p buf IH]; intros pool Hnn; simpl.
  - by rewrite app_nil_r.
  - apply Forall_cons in Hnn as [Hp Hnn]. rewrite IH by done.
    unfold deallocate. destruct (N.eqb_spec p 0) as [|_]; [done|].
    simpl. by rewrite <- app_assoc.
Qed.

(** The parser the constructor builds: stopped, over an empty ring of
    10000 distinct slots that took the whole pool. *)
Lemma MarketDataParser_new_wf storage mem w :
  MarketDataParser_new storage mem = inr w →
  running w = false
  ∧ queue_wf (dataQueue w)
  ∧ NoDup (buffer (dataQueue w))
  ∧ head (dataQueue w) = tail (dataQueue w)
  ∧ free_list_ (pool w) = [].
Proof.
  unfold MarketDataParser_new.
  destruct (MemoryPool_new storage 10000) as [|pool0] eqn:Hpool; [done|].
  destruct (LockFreeQueue_new 10000 pool0) as [pool1 [e|q]] eqn:Hq; [done|].
  intros [= <-]. cbn [running dataQueue pool].
  apply MemoryPool_new_free_list in Hpool as (_ & _ & _ & Hfl).
  assert (1 ≤ 10000 ≤ SIZE_MAX) as Hcap by (unfold SIZE_MAX; lia).
  destruct (LockFreeQueue_new_wf 10000 pool0 pool1 q Hcap Hq) as (Hwf & Hh & Ht & _).
  split; [done|]. split; [done|]. split; [|split; [congruence|]].
  - eapply LockFreeQueue_new_NoDup; [|done]. rewrite Hfl. apply slot_addresses_NoDup.
  - apply LockFreeQueue_new_inv in Hq as (fl & taken & Hsplit & Hlen & _ & -> & _).
    simpl. apply (f_equal length) in Hsplit.
    rewrite Hfl, slot_addresses_length, length_app, Hlen in Hsplit.
    destruct fl; [done|]. simpl in Hsplit. lia.
Qed.
End parser_facts.

(** * The queue's contract *)

Lemma pool10_new : MemoryPool_new 4096 10 = inr pool10.
Proof. reflexivity. Qed.

Lemma queue10_new :
  LockFreeQueue_new 10 pool10 = (set_free_list pool10 [], inr queue10).
Proof. reflexivity. Qed.

Lemma queue10_wf : queue_wf queue10.
Proof. by apply (LockFreeQueue_new_wf 10 pool10 (set_free_list pool10 [])). Qed.

Lemma queue10_NoDup : NoDup (buffer queue10).
Proof.
  apply (LockFreeQueue_new_NoDup 10 pool10 (set_free_list pool10 [])); [|done].
  apply slot_addresses_NoDup.
Qed.

(** C3: on a channel whose head equals its tail, [pop] returns false, leaves
    the caller's variable as it was, and leaves head, tail and every slot as
    they were. *)
Theorem C3_pop_on_empty (item : MarketData) (q : LockFreeQueue)
    (mem : gmap N MarketData) :
  head q = tail q → pop item q mem = inr (false, item, q, mem).
Proof. apply pop_empty. Qed.

Lemma C3_pop_on_empty_witness :
  let q := {| buffer := [4160; 4096]; head := 1; tail := 1; capacity := 2 |} in
  let mem : gmap N MarketData := <[4160 := GOOG]> ∅ in
  head q = tail q ∧ pop AAPL q mem = inr (false, AAPL, q, mem).
Proof. intros q mem. split; [reflexivity|]. apply C3_pop_on_empty. reflexivity. Defined.

(** C1: FIFO delivery.  On an empty channel with distinct slots, when every
    one of the pushes P1..Pn returns true, the next n pops return true with
    P1..Pn in that order, and the pop after them returns false.  In
    particular, over a pool of size 10 and a channel of capacity 10, after
    pushing AAPL, GOOG, MSFT three pops return these three and a fourth
    reports empty. *)
Theorem C1_fifo_delivery :
  (∀ (q q' : LockFreeQueue) (mem mem' : gmap N MarketData)
     (items : list MarketData) (item : MarketData),
     queue_wf q → NoDup (buffer q) → head q = tail q →
     push_all items q mem = inr (replicate (length items) true, q', mem') →
     ∃ q'',
       pop_n (length items) item q' mem'
       = inr ((λ x, (true, x)) <$> items, default item (last items), q'', mem')
       ∧ pop (default item (last items)) q'' mem'
         = inr (false, default item (last items), q'', mem'))
  ∧ (∀ (storage : N) (pool : MemoryPool) (mem : gmap N MarketData)
       (item : MarketData),
       MemoryPool_new storage 10 = inr pool →
       ∃ pool' q q' mem' q'',
         LockFreeQueue_new 10 pool = (pool', inr q)
         ∧ push_all [AAPL; GOOG; MSFT] q mem = inr ([true; true; true], q', mem')
         ∧ pop_n 4 item q' mem'
           = inr ([(true, AAPL); (true, GOOG); (true, MSFT); (false, MSFT)],
                  MSFT, q'', mem')).
Proof.
  assert (∀ (q q' : LockFreeQueue) (mem mem' : gmap N MarketData)
     (items : list MarketData) (item : MarketData),
     queue_wf q → NoDup (buffer q) → head q = tail q →
     push_all items q mem = inr (replicate (length items) true, q', mem') →
     ∃ q'',
       pop_n (length items) item q' mem'
       = inr ((λ x, (true, x)) <$> items, default item (last items), q'', mem')
       ∧ pop (default item (last items)) q'' mem'
         = inr (false, default item (last items), q'', mem')) as Hfifo.
  { intros q q' mem mem' items item Hwf Hnd Hemp Hrun.
    assert (stored q mem (head q) []) as Hst by done.
    destruct (push_all_true _ _ _ _ _ _ _ Hwf Hnd Hst Hrun)
      as (Hwf' & _ & _ & Hst').
    { by apply Forall_replicate. }
    destruct (pop_n_stored items item q' mem' Hwf' Hst')
      as (q'' & Hpops & _ & Hemp' & _).
    exists q''. split; [done|]. by apply pop_empty. }
  split; [done|].
  intros storage pool mem item Hnew.
  apply MemoryPool_new_free_list in Hnew as (Hs & _ & _ & Hfl).
  pose proof (LockFreeQueue_new_ok pool 10 [] _ Hfl
                (slot_addresses_length _ _ _)
                (slot_addresses_nonnull _ _ _ Hs)) as Hq.
  set (q := {| buffer := rev (slot_addresses storage 0 (N.to_nat 10));
               head := 0; tail := 0; capacity := 10 |}) in *.
  destruct (LockFreeQueue_new_wf 10 pool _ q ltac:(done) Hq)
    as (Hwf & Hh & Ht & Hc).
  assert (NoDup (buffer q)) as Hnd.
  { eapply LockFreeQueue_new_NoDup; [|done]. rewrite Hfl.
    apply slot_addresses_NoDup. }
  destruct (push_all_room [AAPL; GOOG; MSFT] q mem Hwf Hh)
    as (mem' & Hrun & _); [by rewrite Ht, Hc|].
  simpl length in Hrun. simpl replicate in Hrun.
  destruct (Hfifo q (set_tail q (tail q + N.of_nat 3)) mem mem'
              [AAPL; GOOG; MSFT] item Hwf Hnd)
    as (q'' & Hpops & Hlast); [by rewrite Hh, Ht|done|].
  eexists _, q, _, mem', q''. split; [done|]. split; [done|].
  apply (pop_n_snoc _ _ _ _ _ _ _ _ _ _ _ _ Hpops Hlast).
Qed.

Lemma C1_fifo_delivery_witness :
  let mem' : gmap N MarketData :=
    <[4544 := MSFT]> (<[4608 := GOOG]> (<[4672 := AAPL]> ∅)) in
  (queue_wf queue10 ∧ NoDup (buffer queue10) ∧ head queue10 = tail queue10
   ∧ push_all [AAPL; GOOG; MSFT] queue10 ∅
     = inr (replicate 3 true, set_tail queue10 3, mem'))
  ∧ ∃ q'',
      pop_n 3 AAPL (set_tail queue10 3) mem'
      = inr ([(true, AAPL); (true, GOOG); (true, MSFT)], MSFT, q'', mem')
      ∧ pop MSFT q'' mem' = inr (false, MSFT, q'', mem').
Proof.
  intros mem'.
  assert (push_all [AAPL; GOOG; MSFT] queue10 ∅
          = inr (replicate 3 true, set_tail queue10 3, mem')) as Hrun
    by (vm_compute; reflexivity).
  split.
  - split; [exact queue10_wf|]. split; [exact queue10_NoDup|].
    split; [reflexivity|exact Hrun].
  - exact (proj1 C1_fifo_delivery queue10 (set_tail queue10 3) ∅ mem'
             [AAPL; GOOG; MSFT] AAPL queue10_wf queue10_NoDup eq_refl Hrun).
Defined.

(** C2: capacity bound.  On a channel constructed with capacity C >= 2 and
    not yet popped, the first C-1 pushes return true, the C-th returns false
    and changes neither the queue nor any slot, and once a pop has succeeded
    the next push returns true: C-1 slots are usable. *)
Theorem C2_capacity_bound (pool pool' : MemoryPool) (C : N) (q : LockFreeQueue)
    (items : list MarketData) (extra another item : MarketData)
    (mem : gmap N MarketData) :
  2 ≤ C ≤ SIZE_MAX →
  LockFreeQueue_new C pool = (pool', inr q) →
  length items = N.to_nat (C - 1) →
  ∃ q1 mem1,
    push_all items q mem = inr (replicate (N.to_nat (C - 1)) true, q1, mem1)
    ∧ push extra q1 mem1 = inr (false, q1, mem1)
    ∧ ∃ v q2,
        pop item q1 mem1 = inr (true, v, q2, mem1)
        ∧ ∃ q3 mem3, push another q2 mem1 = inr (true, q3, mem3).
Proof.
  intros HC Hnew Hlen.
  destruct (LockFreeQueue_new_wf C pool pool' q ltac:(lia) Hnew)
    as (Hwf & Hh & Ht & Hc).
  destruct (push_all_room items q mem Hwf Hh) as (mem1 & Hrun & _ & Hinit);
    [lia|].
  rewrite Hlen in Hrun. rewrite Ht in Hrun, Hinit.
  set (q1 := set_tail q (0 + N.of_nat (N.to_nat (C - 1)))) in *.
  assert (queue_wf q1) as Hwf1 by (apply queue_wf_set_tail; [done|lia]).
  assert (tail q1 = C - 1) as Ht1 by (simpl; lia).
  assert (next q (C - 1) = 0) as Hnext.
  { rewrite next_spec by lia. destruct (N.eqb_spec (C - 1 + 1) (capacity q)); lia. }
  exists q1, mem1. split; [done|]. split.
  - destruct (push_wf extra q1 mem1 Hwf1) as [[_ Hp]|(Hroom & _)]; [done|].
    exfalso. apply Hroom. rewrite Ht1. unfold q1. rewrite next_set_tail.
    simpl. congruence.
  - destruct (Hinit 0) as (ptr & v & Hptr & Hv); [lia|].
    destruct (buffer_lookup q 0 Hwf) as (ptr' & Hptr' & Hnn); [lia|].
    assert (ptr' = ptr) as -> by congruence.
    set (q2 := set_head q1 (next q1 (head q1))).
    exists v, q2. split.
    + unfold pop. fold (next q1 (head q1)). fold q2.
      destruct (N.eqb_spec (head q1) (tail q1)) as [Heq|_].
      { rewrite Ht1 in Heq. simpl in Heq. lia. }
      replace (head q1) with 0 by done.
      change (buffer q1) with (buffer q). rewrite Hptr.
      destruct (N.eqb_spec ptr 0) as [|_]; [done|]. rewrite Hv.
      change (capacity q1) with (capacity q).
      destruct (N.eqb_spec (capacity q) 0) as [|_]; [lia|]. done.
    + assert (queue_wf q2) as Hwf2.
      { apply queue_wf_set_head; [done|]. apply next_lt; [|apply (wf_head _ Hwf1)].
        apply (wf_capacity _ Hwf1). }
      destruct (push_wf another q2 mem1 Hwf2) as [[Hfull _]|(_ & p & _ & _ & Hp)];
        [|by eauto].
      exfalso. revert Hfull. unfold q2. rewrite next_set_head. simpl.
      replace (0 + N.of_nat (N.to_nat (C - 1))) with (C - 1) by lia.
      unfold q1. rewrite !next_set_tail, Hnext, Hh, next_spec by lia.
      destruct (N.eqb_spec (0 + 1) (capacity q)); lia.
Qed.

Lemma C2_capacity_bound_witness :
  (2 ≤ 4 ≤ SIZE_MAX
   ∧ LockFreeQueue_new 4 pool10
     = (set_free_list pool10 (take 6 (free_list_ pool10)),
        inr {| buffer := [4672; 4608; 4544; 4480]; head := 0; tail := 0;
               capacity := 4 |})
   ∧ length [AAPL; GOOG; MSFT] = N.to_nat (4 - 1))
  ∧ ∃ q1 mem1,
      push_all [AAPL; GOOG; MSFT]
        {| buffer := [4672; 4608; 4544; 4480]; head := 0; tail := 0;
           capacity := 4 |} ∅
      = inr (replicate (N.to_nat (4 - 1)) true, q1, mem1)
      ∧ push AAPL q1 mem1 = inr (false, q1, mem1)
      ∧ ∃ v q2,
          pop MSFT q1 mem1 = inr (true, v, q2, mem1)
          ∧ ∃ q3 mem3, push GOOG q2 mem1 = inr (true, q3, mem3).
Proof.
  assert (2 ≤ 4 ≤ SIZE_MAX) as HC by (vm_compute; split; discriminate).
  split; [split; [exact HC|split; reflexivity]|].
  exact (C2_capacity_bound pool10 _ 4 _ [AAPL; GOOG; MSFT] AAPL GOOG MSFT ∅
           HC eq_refl eq_refl).
Defined.

(** C7: constructing a channel of a given capacity over a pool takes exactly
    that many slots off the pool's free list, and throws
    [runtime_error("Memory pool exhausted")] exactly when the free list holds
    fewer than [capacity] slots. *)
Theorem C7_construction (pool : MemoryPool) (cap : N) :
  pool_reachable pool →
  let fl := free_list_ pool in
  let k := length fl in
  ((∃ pool' e, LockFreeQueue_new cap pool = (pool', inl e)) ↔ (k < N.to_nat cap)%nat)
  ∧ ((k < N.to_nat cap)%nat →
     ∃ pool', LockFreeQueue_new cap pool
              = (pool', inl (runtime_error "Memory pool exhausted")))
  ∧ ((N.to_nat cap ≤ k)%nat →
     LockFreeQueue_new cap pool
     = (set_free_list pool (take (k - N.to_nat cap) fl),
        inr {| buffer := rev (drop (k - N.to_nat cap) fl);
               head := 0; tail := 0; capacity := cap |})
     ∧ length (drop (k - N.to_nat cap) fl) = N.to_nat cap
     ∧ length (take (k - N.to_nat cap) fl) = (k - N.to_nat cap)%nat).
Proof.
  intros Hreach fl k.
  pose proof (pool_reachable_nonnull pool Hreach) as Hnn. fold fl in Hnn.
  assert ((N.to_nat cap ≤ k)%nat →
     LockFreeQueue_new cap pool
     = (set_free_list pool (take (k - N.to_nat cap) fl),
        inr {| buffer := rev (drop (k - N.to_nat cap) fl);
               head := 0; tail := 0; capacity := cap |})
     ∧ length (drop (k - N.to_nat cap) fl) = N.to_nat cap
     ∧ length (take (k - N.to_nat cap) fl) = (k - N.to_nat cap)%nat) as Hok.
  { intros Hle. destruct (split_back fl (N.to_nat cap) Hle) as [Hsplit Hlen].
    fold k in Hsplit, Hlen. split; [|split; [done|rewrite length_take; lia]].
    apply LockFreeQueue_new_ok; [done|done|].
    rewrite Hsplit in Hnn. by apply Forall_app in Hnn as [_ ?]. }
  split; [split|split; [|done]].
  - intros (pool' & e & Hnew).
    destruct (decide (k < N.to_nat cap)%nat) as [|Hge]; [done|].
    destruct Hok as [Hok _]; [lia|]. congruence.
  - intros Hlt. eexists _, _. by apply LockFreeQueue_new_throw.
  - intros Hlt. eexists. by apply LockFreeQueue_new_throw.
Qed.

Lemma pool10_reachable : pool_reachable pool10.
Proof. exact (reach_new 4096 10 pool10 pool10_new). Qed.

Lemma C7_construction_witness :
  pool_reachable pool10
  ∧ LockFreeQueue_new 4 pool10
    = (set_free_list pool10 [4096; 4160; 4224; 4288; 4352; 4416],
       inr {| buffer := [4672; 4608; 4544; 4480]; head := 0; tail := 0;
              capacity := 4 |})
  ∧ ∃ pool', LockFreeQueue_new 11 pool10
             = (pool', inl (runtime_error "Memory pool exhausted")).
Proof.
  split; [exact pool10_reachable|]. split.
  - refine (proj1 (proj2 (proj2 (C7_construction pool10 4 pool10_reachable)) _)).
    vm_compute. lia.
  - refine (proj1 (proj2 (C7_construction pool10 11 pool10_reachable)) _).
    vm_compute. lia.
Defined.

(** C9: a failed construction is not undone.  Over a pool with k free slots
    and for a capacity above k, the constructor throws only once the loop has
    moved all k slots into the buffer it was filling; nothing gives them
    back, so the pool is left with an empty free list. *)
Theorem C9_failed_construction_leaks (pool : MemoryPool) (cap : N) :
  pool_reachable pool →
  (length (free_list_ pool) < N.to_nat cap)%nat →
  ∃ pool',
    LockFreeQueue_new cap pool = (pool', inl (runtime_error "Memory pool exhausted"))
    ∧ free_list_ pool' = []
    ∧ (free_list_ pool ≠ [] → pool' ≠ pool)
    ∧ ∃ buf,
        fill_buffer (N.to_nat cap) 0 (replicate (N.to_nat cap) nullptr) pool
        = (pool', buf, Some (runtime_error "Memory pool exhausted"))
        ∧ take (length (free_list_ pool)) buf = rev (free_list_ pool).
Proof.
  intros Hreach Hlt.
  pose proof (pool_reachable_nonnull pool Hreach) as Hnn.
  exists (set_free_list pool []).
  split; [by apply LockFreeQueue_new_throw|]. split; [done|]. split.
  - intros Hne Heq. apply Hne. by rewrite <- Heq.
  - destruct (fill_buffer_throw (N.to_nat cap) [] (replicate (N.to_nat cap) 0)
                pool Hnn Hlt) as (buf & Hrun & Htake).
    { by rewrite length_replicate. }
    by exists buf.
Qed.

Lemma C9_failed_construction_leaks_witness :
  (pool_reachable pool10 ∧ (length (free_list_ pool10) < N.to_nat 11)%nat)
  ∧ ∃ pool',
      LockFreeQueue_new 11 pool10
      = (pool', inl (runtime_error "Memory pool exhausted"))
      ∧ free_list_ pool' = []
      ∧ (free_list_ pool10 ≠ [] → pool' ≠ pool10)
      ∧ ∃ buf,
          fill_buffer (N.to_nat 11) 0 (replicate (N.to_nat 11) nullptr) pool10
          = (pool', buf, Some (runtime_error "Memory pool exhausted"))
          ∧ take (length (free_list_ pool10)) buf = rev (free_list_ pool10).
Proof.
  assert (length (free_list_ pool10) < N.to_nat 11)%nat as Hlt by (vm_compute; lia).
  split; [split; [exact pool10_reachable|exact Hlt]|].
  exact (C9_failed_construction_leaks pool10 11 pool10_reachable Hlt).
Defined.

(** C10, as the code has it: capacity >= 1 is an unchecked precondition.
    On every channel of capacity >= 1 that a program can hold, [push] and
    [pop] return.  The constructor accepts capacity 0; on such a channel
    every [push] takes the modulo by zero, while every [pop] finds head
    equal to tail and returns false before it reaches its modulo. *)
Theorem C10_capacity_precondition (q : LockFreeQueue) (mem : gmap N MarketData)
    (x item : MarketData) :
  channel_reachable q mem →
  (1 ≤ capacity q →
     (∃ b q' mem', push x q mem = inr (b, q', mem'))
     ∧ (∃ b item' q', pop item q mem = inr (b, item', q', mem)))
  ∧ (capacity q = 0 →
       push x q mem = inl ModuloByZero
       ∧ pop item q mem = inr (false, item, q, mem))
  ∧ (∀ pool, LockFreeQueue_new 0 pool
             = (pool, inr {| buffer := []; head := 0; tail := 0; capacity := 0 |})).
Proof.
  intros Hinv%channel_reachable_inv. unfold channel_inv in Hinv.
  split; [|split; [|done]].
  - intros Hcap. destruct (N.eqb_spec (capacity q) 0) as [|_]; [lia|].
    destruct Hinv as (Hwf & items & Hst). split.
    + destruct (push_wf x q mem Hwf) as [[_ Hp]|(_ & ptr & _ & _ & Hp)];
        rewrite Hp; eauto.
    + destruct items as [|y items].
      * rewrite pop_empty by done. eauto.
      * destruct (pop_stored item q mem y items Hwf Hst) as (Hp & _). eauto.
  - intros Hz. rewrite Hz in Hinv. simpl in Hinv. by subst q.
Qed.

Lemma C10_capacity_precondition_witness :
  channel_reachable queue10 ∅
  ∧ (∃ b q' mem', push AAPL queue10 ∅ = inr (b, q', mem'))
  ∧ (∃ b item' q', pop GOOG queue10 ∅ = inr (b, item', q', ∅)).
Proof.
  assert (10 ≤ SIZE_MAX) as Hcap by (vm_compute; discriminate).
  pose proof (reach_constructed 10 pool10 _ queue10 ∅ Hcap queue10_new) as Hreach.
  split; [exact Hreach|].
  refine (proj1 (C10_capacity_precondition queue10 ∅ AAPL GOOG Hreach) _).
  vm_compute. discriminate.
Defined.

(** C10 as the specification states it fails: [pop] on the capacity-0
    channel the constructor returns performs no modulo at all. *)
Lemma C10_counterexample :
  let q0 := {| buffer := []; head := 0; tail := 0; capacity := 0 |} in
  LockFreeQueue_new 0 pool10 = (pool10, inr q0)
  ∧ pop AAPL q0 ∅ = inr (false, AAPL, q0, ∅)
  ∧ pop AAPL q0 ∅ ≠ inl ModuloByZero.
Proof. intros q0. split; [reflexivity|]. split; [reflexivity|discriminate]. Qed.

(** * Pool clients *)

Section pool_clients.
Variables (storage size : N).
Hypothesis storage_nonnull : storage ≠ nullptr.

Lemma give_back_Permutation ptr held :
  ptr ∈ held → held ≡ₚ ptr :: give_back ptr held.
Proof.
  induction held as [|p held IH]; intros Hin; [by apply elem_of_nil in Hin|].
  simpl. destruct (N.eqb_spec p ptr) as [->|Hne]; [done|].
  apply elem_of_cons in Hin as [->|Hin]; [done|].
  rewrite (IH Hin) at 1. apply perm_swap.
Qed.

Lemma give_back_absent ptr held : ptr ∉ held → give_back ptr held = held.
Proof.
  induction held as [|p held IH]; intros Hnin; [done|].
  apply not_elem_of_cons in Hnin as [Hne Hnin]. simpl.
  destruct (N.eqb_spec p ptr) as [->|_]; [done|]. by rewrite IH.
Qed.

Lemma accounted_nonnull st ptr :
  accounted storage size st → ptr ∈ free_list_ st.1 ++ st.2 → ptr ≠ nullptr.
Proof.
  unfold accounted. intros Hacc Hin. rewrite Hacc in Hin.
  pose proof (slot_addresses_nonnull storage 0 (N.to_nat size) storage_nonnull) as Hnn.
  by apply (proj1 (Forall_forall _ _) Hnn).
Qed.

Lemma pool_step_accounted st call :
  accounted storage size st →
  match call with
  | Allocate => True
  | Deallocate ptr => ptr = nullptr ∨ ptr ∈ st.2
  end →
  accounted storage size (pool_step st call).
Proof.
  destruct st as [pool held]. intros Hacc Hok.
  destruct call as [|ptr]; simpl.
  - destruct (snoc_cases (free_list_ pool)) as [Hfl|(fl & p & Hfl)].
    + by rewrite (allocate_nil _ Hfl).
    + rewrite (allocate_snoc _ _ _ Hfl).
      assert (p ≠ 0) as Hp.
      { apply (accounted_nonnull (pool, held)); [done|]. simpl. rewrite Hfl.
        set_solver. }
      destruct (N.eqb_spec p 0) as [|_]; [done|].
      unfold accounted in *. simpl in *.
      by rewrite <- Hacc, Hfl, <- app_assoc.
  - destruct Hok as [->|Hin].
    + unfold deallocate. simpl. rewrite give_back_absent; [done|].
      intros Hin. eapply (accounted_nonnull (pool, held)); [done| |done].
      simpl. set_solver.
    + assert (ptr ≠ 0) as Hp.
      { apply (accounted_nonnull (pool, held)); [done|]. simpl. set_solver. }
      unfold deallocate. destruct (N.eqb_spec ptr 0) as [|_]; [done|].
      unfold accounted in *. simpl in *.
      rewrite <- Hacc, <- app_assoc. simpl. apply Permutation_app_head.
      symmetry. by apply give_back_Permutation.
Qed.

Lemma run_calls_accounted calls : ∀ st,
  accounted storage size st → respects_contract calls st →
  accounted storage size (run_calls calls st).
Proof.
  induction calls as [|call calls IH]; intros st Hacc Hok; [done|].
  destruct Hok as [Hcall Hok]. simpl. apply IH; [|done].
  by apply pool_step_accounted.
Qed.

Lemma MemoryPool_new_accounted pool :
  MemoryPool_new storage size = inr pool → accounted storage size (pool, []).
Proof.
  intros Hnew. apply MemoryPool_new_free_list in Hnew as (_ & _ & _ & Hfl).
  unfold accounted. simpl. by rewrite Hfl, app_nil_r.
Qed.

(** What the permutation says slot by slot. *)
Lemma accounted_facts st :
  accounted storage size st →
  NoDup st.2
  ∧ (∀ slot, slot ∈ slot_addresses storage 0 (N.to_nat size) →
       (count_occ N.eq_dec (free_list_ st.1) slot = 1%nat
        ∧ count_occ N.eq_dec st.2 slot = 0%nat)
       ∨ (count_occ N.eq_dec (free_list_ st.1) slot = 0%nat
          ∧ count_occ N.eq_dec st.2 slot = 1%nat))
  ∧ ((allocate st.1).1 = nullptr ↔ length st.2 = N.to_nat size).
Proof.
  intros Hacc. pose proof Hacc as Hperm. unfold accounted in Hperm.
  assert (NoDup (free_list_ st.1 ++ st.2)) as Hnd.
  { rewrite Hperm. apply slot_addresses_NoDup. }
  split; [by apply NoDup_app in Hnd as (_ & _ & ?)|]. split.
  - intros slot Hin.
    assert (count_occ N.eq_dec (free_list_ st.1 ++ st.2) slot = 1%nat) as Hcount.
    { apply NoDup_ListNoDup in Hnd.
      apply (proj1 (NoDup_count_occ' N.eq_dec _) Hnd).
      apply list_elem_of_In. by rewrite Hperm. }
    rewrite count_occ_app in Hcount. lia.
  - assert (length (free_list_ st.1) + length st.2 = N.to_nat size)%nat as Hlen.
    { rewrite <- length_app, Hperm. apply slot_addresses_length. }
    destruct (snoc_cases (free_list_ st.1)) as [Hfl|(fl & p & Hfl)].
    + rewrite (allocate_nil _ Hfl). rewrite Hfl in Hlen. simpl in *. done.
    + rewrite (allocate_snoc _ _ _ Hfl). rewrite Hfl, length_app in Hlen.
      simpl in *. split; [|lia]. intros ->.
      exfalso. apply (accounted_nonnull st 0 Hacc); [|done]. rewrite Hfl.
      set_solver.
Qed.
End pool_clients.

(** C4: pool slot uniqueness.  Over any run of [allocate] and [deallocate]
    calls on a fresh pool of size N in which [deallocate] only receives
    pointers that are held at that moment, the held pointers are pairwise
    distinct, every slot address is either once in the free list and not
    held, or held once and not in the free list, and [allocate] returns null
    exactly when all N slots are held. *)
Theorem C4_pool_slot_uniqueness (storage size : N) (pool0 : MemoryPool)
    (calls : list pool_call) :
  MemoryPool_new storage size = inr pool0 →
  respects_contract calls (pool0, []) →
  let st := run_calls calls (pool0, []) in
  NoDup st.2
  ∧ (∀ slot, slot ∈ slot_addresses storage 0 (N.to_nat size) →
       (count_occ N.eq_dec (free_list_ st.1) slot = 1%nat
        ∧ count_occ N.eq_dec st.2 slot = 0%nat)
       ∨ (count_occ N.eq_dec (free_list_ st.1) slot = 0%nat
          ∧ count_occ N.eq_dec st.2 slot = 1%nat))
  ∧ ((allocate st.1).1 = nullptr ↔ length st.2 = N.to_nat size).
Proof.
  intros Hnew Hok st.
  pose proof (MemoryPool_new_free_list _ _ _ Hnew) as (Hs & _).
  apply (accounted_facts storage size Hs).
  apply run_calls_accounted; [done| |done].
  by apply MemoryPool_new_accounted.
Qed.

Lemma C4_pool_slot_uniqueness_witness :
  let calls := [Allocate; Allocate; Deallocate 4224; Allocate; Allocate; Allocate] in
  let pool0 := {| storage_ := 4096; free_list_ := [4096; 4160; 4224]; size_ := 3 |} in
  (MemoryPool_new 4096 3 = inr pool0 ∧ respects_contract calls (pool0, []))
  ∧ let st := run_calls calls (pool0, []) in
    NoDup st.2
    ∧ (∀ slot, slot ∈ slot_addresses 4096 0 (N.to_nat 3) →
         (count_occ N.eq_dec (free_list_ st.1) slot = 1%nat
          ∧ count_occ N.eq_dec st.2 slot = 0%nat)
         ∨ (count_occ N.eq_dec (free_list_ st.1) slot = 0%nat
            ∧ count_occ N.eq_dec st.2 slot = 1%nat))
    ∧ ((allocate st.1).1 = nullptr ↔ length st.2 = N.to_nat 3).
Proof.
  intros calls pool0.
  assert (respects_contract calls (pool0, [])) as Hok.
  { simpl. repeat split. right. apply list_elem_of_further, list_elem_of_here. }
  split; [split; [reflexivity|exact Hok]|].
  exact (C4_pool_slot_uniqueness 4096 3 pool0 calls eq_refl Hok).
Defined.

(** * The consumer's backoff ladder *)

Ltac divmod := zify; Z.to_euclidean_division_equations; lia.

Section backoff_facts.
Implicit Types (c : counters) (p k j r : N).

Lemma backoff_spin c :
  empty_count c + 1 < 10000 →
  backoff c
  = inr ({| processed_count := processed_count c; empty_count := empty_count c + 1;
            yield_count := yield_count c; sleep_count := sleep_count c |}, []).
Proof.
  intros H. unfold backoff. rewrite wrap_small by (unfold SIZE_MAX; lia).
  by destruct (N.ltb_spec (empty_count c + 1) 10000); [|lia].
Qed.

Lemma backoff_yield c :
  10000 ≤ empty_count c + 1 < 100000 →
  backoff c
  = inr ({| processed_count := processed_count c; empty_count := empty_count c + 1;
            yield_count := yield_count c; sleep_count := sleep_count c |}, [Yield]).
Proof.
  intros H. unfold backoff. rewrite wrap_small by (unfold SIZE_MAX; lia).
  destruct (N.ltb_spec (empty_count c + 1) 10000); [lia|].
  by destruct (N.ltb_spec (empty_count c + 1) 100000); [|lia].
Qed.

Lemma shift_ten s : s ≤ 4 → wrap (N.shiftl 10 s) = 10 * 2 ^ s.
Proof.
  intros H. rewrite N.shiftl_mul_pow2. apply wrap_small.
  assert (s = 0 ∨ s = 1 ∨ s = 2 ∨ s = 3 ∨ s = 4) as Hs by lia.
  destruct Hs as [->|[->|[->|[->| ->]]]]; by vm_compute.
Qed.

Lemma backoff_sleep c :
  empty_count c + 1 = 100000 → sleep_count c ≤ 4 →
  backoff c
  = inr ({| processed_count := processed_count c; empty_count := 10000;
            yield_count := wrap (yield_count c + 1);
            sleep_count := N.min (sleep_count c + 1) 4 |},
         (if wrap (yield_count c + 1) mod 1000 =? 0
          then [Log QueueEmptyYielding false] else [])
         ++ [SleepMicroseconds (N.min (10 * 2 ^ sleep_count c) 100)]).
Proof.
  intros He Hs. unfold backoff. rewrite (wrap_small (empty_count c + 1)), He
    by (unfold SIZE_MAX; lia).
  change (100000 <? 10000) with false. change (100000 <? 100000) with false.
  cbv iota. destruct (N.leb_spec 64 (sleep_count c)); [lia|].
  rewrite shift_ten by done. do 3 f_equal.
  destruct (N.ltb_spec (sleep_count c) 4).
  - rewrite wrap_small by (unfold SIZE_MAX; lia). lia.
  - lia.
Qed.

(** One more failed poll. *)
Lemma backoff_idle p k :
  backoff (idle_counters p k) = inr (idle_counters p (k + 1), ladder (k + 1)).
Proof.
  unfold idle_counters, ladder.
  destruct (N.ltb_spec k 100000) as [Hk|Hk].
  - destruct (N.ltb_spec (k + 1) 10000) as [H1|H1].
    { rewrite backoff_spin by (cbn [empty_count sleep_count]; divmod). simpl.
      by destruct (N.ltb_spec (k + 1) 100000); [|lia]. }
    destruct (N.ltb_spec (k + 1) 100000) as [H2|H2].
    { by rewrite backoff_yield by (cbn [empty_count sleep_count]; divmod). }
    assert (k + 1 = 100000) as Hk1 by lia.
    rewrite backoff_sleep by (cbn [empty_count sleep_count]; divmod). simpl. rewrite Hk1.
    by vm_compute.
  - destruct (N.ltb_spec (k + 1) 10000) as [|_]; [lia|].
    destruct (N.ltb_spec (k + 1) 100000) as [|_]; [lia|].
    set (m := k - 100000). replace (k + 1 - 100000) with (m + 1) by lia.
    clearbody m.
    destruct (N.eqb_spec ((m + 1) mod 90000) 0) as [Hr|Hr].
    + assert (m mod 90000 = 89999 ∧ (m + 1) / 90000 = m / 90000 + 1)
        as [Hr' Hj] by divmod.
      rewrite backoff_sleep by (cbn [empty_count sleep_count]; divmod). simpl.
      rewrite Hr, Hj. unfold sleep_step, wrap.
      assert (∀ a, (a mod 2 ^ 64 + 1) mod 2 ^ 64 = (a + 1) mod 2 ^ 64) as Hw
        by (intros; divmod).
      rewrite Hw.
      replace (N.min (N.min (m / 90000 + 1) 4 + 1) 4)
        with (N.min (m / 90000 + 1 + 1) 4) by lia.
      done.
    + assert ((m + 1) mod 90000 = m mod 90000 + 1 ∧ (m + 1) / 90000 = m / 90000)
        as [Hr' Hj] by divmod.
      assert (m mod 90000 < 89999) by divmod.
      rewrite backoff_yield by (cbn [empty_count sleep_count]; divmod). simpl.
      rewrite Hr', Hj. do 3 f_equal. lia.
Qed.

Lemma ladder_spin k : k < 10000 → ladder k = [].
Proof. intros H. unfold ladder. by destruct (N.ltb_spec k 10000); [|lia]. Qed.

Lemma ladder_yield k : 10000 ≤ k < 100000 → ladder k = [Yield].
Proof.
  intros H. unfold ladder. destruct (N.ltb_spec k 10000); [lia|].
  by destruct (N.ltb_spec k 100000); [|lia].
Qed.

Lemma ladder_sleep j r :
  r < 90000 →
  ladder (100000 + 90000 * j + r) = if r =? 0 then sleep_step j else [Yield].
Proof.
  intros H. unfold ladder.
  destruct (N.ltb_spec (100000 + 90000 * j + r) 10000); [lia|].
  destruct (N.ltb_spec (100000 + 90000 * j + r) 100000); [lia|].
  replace (100000 + 90000 * j + r - 100000) with (90000 * j + r) by lia.
  assert ((90000 * j + r) / 90000 = j ∧ (90000 * j + r) mod 90000 = r)
    as [-> ->] by divmod.
  done.
Qed.

Lemma sleep_step_duration j :
  ∃ logged,
    sleep_step j
    = logged ++ [SleepMicroseconds
                   (if j =? 0 then 10 else if j =? 1 then 20 else if j =? 2 then 40
                    else if j =? 3 then 80 else 100)]
    ∧ (logged = [] ∨ logged = [Log QueueEmptyYielding false]).
Proof.
  unfold sleep_step.
  exists (if wrap (j + 1) mod 1000 =? 0 then [Log QueueEmptyYielding false] else []).
  split; [|destruct (wrap (j + 1) mod 1000 =? 0); eauto].
  do 3 f_equal.
  destruct (N.le_gt_cases 4 j) as [H4|H4].
  - rewrite (N.min_r j 4) by done.
    destruct (N.eqb_spec j 0), (N.eqb_spec j 1), (N.eqb_spec j 2),
      (N.eqb_spec j 3); try lia.
  - rewrite (N.min_l j 4) by lia.
    assert (j = 0 ∨ j = 1 ∨ j = 2 ∨ j = 3) as Hj by lia.
    destruct Hj as [->|[->|[->| ->]]]; by vm_compute.
Qed.
End backoff_facts.

Section consumer_facts.
Implicit Types (env : environment) (w : world) (c : counters) (p k : N).

Lemma set_channel_id w : set_channel (dataQueue w) (memory w) w = w.
Proof. by destruct w. Qed.

Lemma emit_nil w : emit [] w = w.
Proof. destruct w. unfold emit. simpl. by rewrite app_nil_r. Qed.

Lemma emit_emit evs1 evs2 w : emit evs2 (emit evs1 w) = emit (evs1 ++ evs2) w.
Proof. unfold emit. simpl. by rewrite app_assoc. Qed.

(** A failed poll touches nothing but the locals and the trace. *)
Lemma consumer_body_empty env c w :
  head (dataQueue w) = tail (dataQueue w) →
  consumer_body env c w
  = match backoff c with
    | inl u => Undefined u
    | inr (c', evs) => Returns c' (emit evs w)
    end.
Proof.
  intros Hemp. unfold consumer_body. rewrite pop_empty by done.
  by rewrite set_channel_id.
Qed.

Lemma ladder_trace_S k n :
  ladder_trace k (S n) = ladder (k + 1) ++ ladder_trace (k + 1) n.
Proof.
  unfold ladder_trace. simpl. f_equal. rewrite <- fmap_S_seq, <- list_fmap_compose.
  f_equal. apply list_fmap_ext. intros _ i _. simpl. f_equal. lia.
Qed.

Lemma consumer_iterations_idle env p n : ∀ k w,
  head (dataQueue w) = tail (dataQueue w) →
  consumer_iterations n env (idle_counters p k) w
  = Returns (idle_counters p (k + N.of_nat n)) (emit (ladder_trace k n) w).
Proof.
  induction n as [|n IH]; intros k w Hemp.
  - simpl. by rewrite N.add_0_r, emit_nil.
  - simpl consumer_iterations.
    rewrite consumer_body_empty, backoff_idle, IH by done.
    rewrite emit_emit, ladder_trace_S. do 2 f_equal. lia.
Qed.

(** A successful poll sends the ladder back to its first rung. *)
Lemma consumer_body_item env c w x items :
  queue_wf (dataQueue w) →
  stored (dataQueue w) (memory w) (head (dataQueue w)) (x :: items) →
  format_fault env (processed_count c) = None →
  consumer_body env c w
  = Returns (idle_counters (wrap (processed_count c + 1)) 0)
      (emit [Log (Processed x) false]
         (set_channel (set_head (dataQueue w) (next (dataQueue w) (head (dataQueue w))))
            (memory w) w)).
Proof.
  intros Hwf Hst Hfault. unfold consumer_body.
  destruct (pop_stored (default_initialised env) _ _ _ _ Hwf Hst) as (-> & _).
  by rewrite Hfault.
Qed.
End consumer_facts.

(** C5, as the code has it: with the channel empty throughout, the k-th
    consecutive failed poll re-polls at once for k below 10,000, yields for
    k from 10,000 up to 99,999, and sleeps at k = 100,000; each sleep puts
    the idle counter back to 10,000, so the next sleep comes 90,000 polls
    later, after 89,999 yields.  The sleep steps last 10, 20, 40, 80 and
    then always 100 microseconds.  A successful pop sends the ladder back
    to its first rung. *)
Theorem C5_backoff_ladder (env : environment) (w : world) (p : N) (n : nat) :
  head (dataQueue w) = tail (dataQueue w) →
  consumer_iterations n env (idle_counters p 0) w
  = Returns (idle_counters p (N.of_nat n)) (emit (ladder_trace 0 n) w)
  ∧ consumer_body env (idle_counters p (N.of_nat n)) (emit (ladder_trace 0 n) w)
    = Returns (idle_counters p (N.of_nat n + 1))
        (emit (ladder (N.of_nat n + 1)) (emit (ladder_trace 0 n) w))
  ∧ (∀ k, 1 ≤ k < 10000 → ladder k = [])
  ∧ (∀ k, 10000 ≤ k < 100000 → ladder k = [Yield])
  ∧ (∀ j r, r < 90000 →
       ladder (100000 + 90000 * j + r) = if r =? 0 then sleep_step j else [Yield])
  ∧ (∀ j, ∃ logged,
       sleep_step j
       = logged ++ [SleepMicroseconds
                      (if j =? 0 then 10 else if j =? 1 then 20
                       else if j =? 2 then 40 else if j =? 3 then 80 else 100)]
       ∧ (logged = [] ∨ logged = [Log QueueEmptyYielding false]))
  ∧ (∀ c w' x items,
       queue_wf (dataQueue w') →
       stored (dataQueue w') (memory w') (head (dataQueue w')) (x :: items) →
       format_fault env (processed_count c) = None →
       ∃ w'', consumer_body env c w' = Returns (idle_counters (wrap (processed_count c + 1)) 0) w'')
  ∧ (∃ w',
       consumer_iterations n env (idle_counters p 0) w
       = Returns (idle_counters p (N.of_nat n)) w'
       ∧ trace w' = trace w ++ ladder_trace 0 n
       ∧ dataQueue w' = dataQueue w ∧ memory w' = memory w
       ∧ running w' = running w).
Proof.
  intros Hemp. split; [|split].
  - by rewrite consumer_iterations_idle.
  - by rewrite consumer_body_empty, backoff_idle.
  - split; [intros; apply ladder_spin; lia|].
    split; [apply ladder_yield|]. split; [apply ladder_sleep|].
    split; [apply sleep_step_duration|]. split.
    + intros c w' x items Hwf Hst Hfault. eexists.
      by apply (consumer_body_item env c w' x items).
    + eexists. split; [by apply consumer_iterations_idle|]. done.
Qed.

Lemma C5_backoff_ladder_witness :
  head (dataQueue world0) = tail (dataQueue world0)
  ∧ consumer_iterations (N.to_nat 100000) env0 (idle_counters 7 0) world0
    = Returns (idle_counters 7 (N.of_nat (N.to_nat 100000)))
        (emit (ladder_trace 0 (N.to_nat 100000)) world0).
Proof.
  split; [reflexivity|].
  exact (proj1 (C5_backoff_ladder env0 world0 7 (N.to_nat 100000) eq_refl)).
Defined.

(** C5 as the specification states it fails: the failed poll that follows
    the first sleep, the 100,001st in a row, yields and does not sleep. *)
Lemma C5_counterexample :
  ∃ c w,
    consumer_iterations (N.to_nat 100000) env0 zero_counters world0 = Returns c w
    ∧ ∃ c' w',
        consumer_body env0 c w = Returns c' w'
        ∧ w' = emit [Yield] w
        ∧ trace w' = trace w ++ [Yield].
Proof.
  eexists _, _. split.
  - by apply (consumer_iterations_idle env0 0 (N.to_nat 100000) 0 world0).
  - eexists _, _. rewrite consumer_body_empty, backoff_idle by done.
    rewrite N2Nat.id. split; [reflexivity|]. split; reflexivity.
Qed.

(** * Draining on stop *)

Section drain_facts.
Implicit Types (env : environment) (w : world) (c : counters)
  (items : list MarketData) (data : MarketData).

Lemma bump_S n p : bump n (wrap (p + 1)) = bump (S n) p.
Proof. unfold bump. by rewrite Nat.iter_succ_r. Qed.

Lemma consumer_loop_stopped fuel env c w :
  running w = false → consumer_loop (S fuel) env c w = Returns c w.
Proof. intros H. simpl. by rewrite H. Qed.

(** The drain pass pops until the ring is empty and logs every item it
    finds, oldest first. *)
Lemma drain_stored env items : ∀ fuel data c w,
  (∀ n, format_fault env n = None) →
  queue_wf (dataQueue w) →
  stored (dataQueue w) (memory w) (head (dataQueue w)) items →
  (length items < fuel)%nat →
  ∃ q',
    drain fuel env data c w
    = Returns (set_processed_count (bump (length items) (processed_count c)) c)
        (emit (processed_lines items) (set_channel q' (memory w) w))
    ∧ queue_wf q' ∧ head q' = tail q'.
Proof.
  induction items as [|x items IH]; intros fuel data c w Hfault Hwf Hst Hfuel;
    (destruct fuel as [|fuel]; [simpl in Hfuel; lia|]).
  - exists (dataQueue w). simpl in Hst. simpl drain. rewrite pop_empty by done.
    rewrite emit_nil. by destruct c.
  - destruct (pop_stored data _ _ _ _ Hwf Hst) as (Hpop & Hwf' & Hst').
    simpl drain. rewrite Hpop, Hfault.
    set (w1 := emit [Log (Processed x) false] (set_channel _ (memory w) w)).
    destruct (IH fuel x (set_processed_count (wrap (processed_count c + 1)) c) w1
                Hfault Hwf' Hst') as (q' & Hrun & Hwf'' & Hemp).
    { simpl in Hfuel. lia. }
    exists q'. split; [|done].
    unfold set_processed_count in *. simpl in *. rewrite Hrun.
    rewrite bump_S. f_equal.
    unfold w1, emit, set_channel. simpl. by rewrite <- app_assoc.
Qed.

Lemma consume_stopped env items fuel c w :
  (∀ n, format_fault env n = None) →
  running w = false →
  queue_wf (dataQueue w) →
  stored (dataQueue w) (memory w) (head (dataQueue w)) items →
  (length items < fuel)%nat →
  ∃ q',
    consume fuel env c w
    = Returns ()
        (emit (processed_lines items
               ++ [Log (ConsumerSummary (bump (length items) (processed_count c))) false;
                   Log ConsumerExiting false])
           (set_channel q' (memory w) w))
    ∧ head q' = tail q'.
Proof.
  intros Hfault Hstop Hwf Hst Hfuel.
  destruct (drain_stored env items fuel (default_initialised env) c w
              Hfault Hwf Hst Hfuel) as (q' & Hrun & _ & Hemp).
  exists q'. split; [|done]. unfold consume.
  destruct fuel as [|fuel]; [lia|].
  rewrite consumer_loop_stopped, Hrun by done.
  by rewrite emit_emit.
Qed.

Lemma setThreadAffinity_ok env cpu_core :
  (0 ≤ cpu_core < CPU_SETSIZE env)%Z →
  pthread_setaffinity_np env cpu_core = 0%Z →
  setThreadAffinity env cpu_core = inr ().
Proof.
  intros Hcore Hret. unfold setThreadAffinity.
  destruct (Z.ltb_spec cpu_core 0); [lia|].
  destruct (Z.geb_spec cpu_core (CPU_SETSIZE env)); [lia|]. simpl.
  by rewrite Hret.
Qed.
End drain_facts.

(** C6, as the code has it: drain on stop.  Provided the consumer was
    pinned to its core and no exception is raised while a line is
    formatted, a consumer that finds the running flag false leaves its
    polling loop without a pass, and its drain pass pops until the channel
    is empty and logs every item that was enqueued, oldest first, each
    once, followed by the summary with their number.  In particular, when
    items were pushed and [stop()] came before any pop, with no push after
    it, the consumer's log is exactly the pushed items in push order (so
    with five pushes, all five) and the channel ends empty. *)
Theorem C6_drain_on_stop (env : environment) (fuel : nat) :
  (∀ n, format_fault env n = None) →
  (∀ (c : counters) (w : world) (items : list MarketData),
     running w = false →
     queue_wf (dataQueue w) →
     stored (dataQueue w) (memory w) (head (dataQueue w)) items →
     (length items < fuel)%nat →
     consumer_loop fuel env c w = Returns c w
     ∧ (∃ c' w',
          drain fuel env (default_initialised env) c w = Returns c' w'
          ∧ c' = set_processed_count (bump (length items) (processed_count c)) c
          ∧ trace w' = trace w ++ processed_lines items
          ∧ head (dataQueue w') = tail (dataQueue w')
          ∧ memory w' = memory w ∧ running w' = false
          ∧ pool w' = pool w ∧ packet_count w' = packet_count w)
     ∧ (∃ w',
          consume fuel env c w = Returns () w'
          ∧ trace w'
            = trace w ++ processed_lines items
              ++ [Log (ConsumerSummary (bump (length items) (processed_count c))) false;
                  Log ConsumerExiting false]
          ∧ head (dataQueue w') = tail (dataQueue w')
          ∧ memory w' = memory w ∧ running w' = false
          ∧ pool w' = pool w ∧ packet_count w' = packet_count w))
  ∧ (∀ (w : world) (items : list MarketData) (q' : LockFreeQueue)
       (mem' : gmap N MarketData),
       setThreadAffinity env 1 = inr () →
       queue_wf (dataQueue w) → NoDup (buffer (dataQueue w)) →
       head (dataQueue w) = tail (dataQueue w) →
       push_all items (dataQueue w) (memory w)
       = inr (replicate (length items) true, q', mem') →
       (length items < fuel)%nat →
       ∃ w',
         processData fuel env (stop (set_channel q' mem' w)) = Returns () w'
         ∧ trace w'
           = trace w
             ++ [SleepMilliseconds 1100; Log StoppingConsumer false;
                 SleepMilliseconds 100;
                 Log ConsumerAffinitySet false; Log ConsumerStarted false]
             ++ processed_lines items
             ++ [Log (ConsumerSummary (bump (length items) 0)) false;
                 Log ConsumerExiting false]
         ∧ head (dataQueue w') = tail (dataQueue w')
         ∧ memory w' = mem' ∧ running w' = false).
Proof.
  intros Hfault. split.
  - intros c w items Hstop Hwf Hst Hfuel.
    destruct fuel as [|fuel']; [lia|].
    split; [by apply consumer_loop_stopped|].
    destruct (drain_stored env items (S fuel') (default_initialised env) c w
                Hfault Hwf Hst Hfuel) as (q' & Hdrain & _ & Hemp).
    split.
    + eexists _, _. split; [exact Hdrain|]. by repeat split.
    + eexists. split.
      { unfold consume. rewrite consumer_loop_stopped, Hdrain by done. reflexivity. }
      cbn [trace dataQueue memory running pool packet_count emit set_channel
           processed_count set_processed_count].
      rewrite <- !app_assoc. by repeat split.
  - intros w items q' mem' Haff Hwf Hnd Hemp Hrun Hfuel.
    assert (stored (dataQueue w) (memory w) (head (dataQueue w)) []) as Hst by done.
    destruct (push_all_true _ _ _ _ _ _ _ Hwf Hnd Hst Hrun)
      as (Hwf' & _ & _ & Hst'); [by apply Forall_replicate|].
    set (w1 := emit [Log ConsumerStarted false]
                 (emit [Log ConsumerAffinitySet false] (stop (set_channel q' mem' w)))).
    destruct (consume_stopped env items fuel zero_counters w1 Hfault)
      as (q'' & Hcons & Hemp'); [done..|].
    eexists. split.
    { unfold processData. rewrite Haff. fold w1. exact Hcons. }
    cbn [trace dataQueue memory running pool packet_count emit set_channel
         set_running stop w1 processed_count zero_counters].
    rewrite <- !app_assoc. by repeat split.
Qed.

Lemma C6_drain_on_stop_witness :
  (∀ n, format_fault env0 n = None)
  ∧ ∃ q' mem' w',
      push_all five_items (dataQueue world0) (memory world0)
      = inr (replicate 5 true, q', mem')
      ∧ processData 6 env0 (stop (set_channel q' mem' world0)) = Returns () w'
      ∧ trace w'
        = trace world0
          ++ [SleepMilliseconds 1100; Log StoppingConsumer false;
              SleepMilliseconds 100;
              Log ConsumerAffinitySet false; Log ConsumerStarted false]
          ++ processed_lines five_items
          ++ [Log (ConsumerSummary (bump (length five_items) 0)) false;
              Log ConsumerExiting false]
      ∧ head (dataQueue w') = tail (dataQueue w')
      ∧ memory w' = mem' ∧ running w' = false.
Proof.
  split; [exact (λ _, eq_refl)|].
  destruct (push_all_room five_items queue10 ∅ queue10_wf eq_refl)
    as (mem' & Hrun & _); [by vm_compute|].
  exists (set_tail queue10 (tail queue10 + N.of_nat (length five_items))), mem'.
  destruct (proj2 (C6_drain_on_stop env0 6 (λ _, eq_refl)) world0 five_items _ mem'
              eq_refl queue10_wf queue10_NoDup eq_refl Hrun)
    as (w' & Hproc & Htrace & Hemp & Hmem & Hstop); [simpl; lia|].
  exists w'. split; [exact Hrun|]. split; [exact Hproc|].
  split; [exact Htrace|]. split; [exact Hemp|]. split; [exact Hmem|exact Hstop].
Defined.

(** C6 as the specification states it fails: items enqueued before
    [stop()] are left behind.  Five items are pushed and [stop()] comes
    before any pop.  On a machine that refuses the pinning, the consumer
    returns at once and none of the five is popped.  When the line of the
    second item cannot be formatted, the consumer logs the first, has the
    second in hand when it leaves, and the last three stay in the channel.
    And a record the producer pushes after the drain pass has emptied the
    channel is enqueued, with nobody left to pop it. *)
Lemma C6_counterexample :
  ∃ q' mem',
    push_all five_items (dataQueue world0) (memory world0)
    = inr (replicate 5 true, q', mem')
    ∧ let w := stop (set_channel q' mem' world0) in
      (∃ e w',
         processData 6 env_einval w = Returns () w'
         ∧ trace w' = trace w ++ [Log (ConsumerAffinityFailed e) false;
                                  Log ConsumerAffinityError true]
         ∧ stored (dataQueue w') (memory w') (head (dataQueue w')) five_items)
      ∧ (∃ w',
           processData 6 env_format_fault w = Returns () w'
           ∧ trace w'
             = trace w ++ [Log ConsumerAffinitySet false; Log ConsumerStarted false]
               ++ processed_lines (take 1 five_items)
               ++ [Log (ConsumerError bad_alloc) false; Log ConsumerErrorConsole true]
           ∧ stored (dataQueue w') (memory w') (head (dataQueue w'))
               (drop 2 five_items))
      ∧ (∃ w1 w2,
           processData 6 env0 w = Returns () w1
           ∧ head (dataQueue w1) = tail (dataQueue w1)
           ∧ push_batch 1 (drop 2 (batch_data 1)) 5 w1 = Returns 5 w2
           ∧ trace w2 = trace w1
           ∧ stored (dataQueue w2) (memory w2) (head (dataQueue w2))
               (drop 2 (batch_data 1))).
Proof.
  eexists _, _. split; [vm_compute; reflexivity|].
  cbv zeta. split; [|split].
  - eexists _, _. split; [vm_compute; reflexivity|].
    split; [vm_compute; reflexivity|].
    repeat (split; [discriminate|split; [eexists; split; reflexivity|]]).
    reflexivity.
  - eexists. split; [vm_compute; reflexivity|].
    split; [vm_compute; reflexivity|].
    repeat (split; [discriminate|split; [eexists; split; reflexivity|]]).
    reflexivity.
  - eexists _, _. split; [vm_compute; reflexivity|].
    split; [reflexivity|]. split; [vm_compute; reflexivity|].
    split; [reflexivity|].
    repeat (split; [discriminate|split; [eexists; split; reflexivity|]]).
    reflexivity.
Qed.

(** * Failures inside the loops *)

Section failure_facts.
Implicit Types (env : environment) (w : world) (c : counters).

Lemma consumer_body_running env c w :
  ends_in (λ w', running w' = running w) (consumer_body env c w).
Proof.
  unfold consumer_body.
  destruct (pop _ _ _) as [|[[[[] data] q] mem]]; simpl; [done| |].
  - by destruct (format_fault _ _).
  - by destruct (backoff c) as [|[]].
Qed.

Lemma consumer_loop_running env fuel : ∀ c w,
  ends_in (λ w', running w' = running w) (consumer_loop fuel env c w).
Proof.
  induction fuel as [|fuel IH]; intros c w; simpl; [done|].
  destruct (running w) eqn:Hrun; [|done].
  pose proof (consumer_body_running env c w) as Hbody.
  destruct (consumer_body env c w) as [c' w'| | |]; simpl in *; [|congruence|done..].
  specialize (IH c' w').
  destruct (consumer_loop fuel env c' w'); simpl in *; congruence.
Qed.

Lemma drain_running env fuel : ∀ data c w,
  ends_in (λ w', running w' = running w) (drain fuel env data c w).
Proof.
  induction fuel as [|fuel IH]; intros data c w; simpl; [done|].
  destruct (pop _ _ _) as [|[[[[] data'] q] mem]]; simpl; [done| |done].
  destruct (format_fault _ _); [done|].
  match goal with |- ends_in _ (drain fuel env ?d ?c' ?w') =>
    specialize (IH d c' w'); destruct (drain fuel env d c' w') end;
    simpl in *; done.
Qed.

(** The consumer never writes the flag and lets no exception out. *)
Lemma processData_running env fuel w :
  ends_in (λ w', running w' = running w) (processData fuel env w)
  ∧ caught (processData fuel env w).
Proof.
  unfold processData. destruct (setThreadAffinity env 1) as [e|_]; [done|].
  set (w1 := emit _ (emit _ w)). change (running w) with (running w1).
  unfold consume.
  pose proof (consumer_loop_running env fuel zero_counters w1) as Hloop.
  destruct (consumer_loop fuel env zero_counters w1) as [c2 w2| | |];
    simpl in *; [|done..].
  pose proof (drain_running env fuel (default_initialised env) c2 w2) as Hdrain.
  destruct (drain fuel env _ c2 w2); simpl in *; split; congruence || done.
Qed.

Lemma push_retry_running fuel data : ∀ w,
  ends_in (λ w', running w' = running w) (push_retry fuel data w).
Proof.
  induction fuel as [|fuel IH]; intros w; simpl; [done|].
  destruct (push _ _ _) as [|[[[] q] mem]]; simpl; [done..|].
  destruct (running w) eqn:Hrun; [|done].
  match goal with |- ends_in _ (push_retry fuel data ?w') =>
    specialize (IH w'); destruct (push_retry fuel data w') end;
    simpl in *; congruence.
Qed.

Lemma push_batch_running fuel batch : ∀ items_pushed w,
  ends_in (λ w', running w' = running w) (push_batch fuel batch items_pushed w)
  ∧ caught (push_batch fuel batch items_pushed w).
Proof.
  induction batch as [|data batch IH]; intros items_pushed w; simpl; [done|].
  pose proof (push_retry_running fuel data w) as Hretry.
  assert (caught (push_retry fuel data w)) as Hcaught.
  { clear. revert w. induction fuel as [|fuel IH]; intros w; simpl; [done|].
    destruct (push _ _ _) as [|[[[] q] mem]]; simpl; [done..|].
    destruct (running w); [apply IH|done]. }
  destruct (push_retry fuel data w) as [[] w1| | |]; simpl in *; [|done..].
  destruct (running w1) eqn:Hrun1; simpl; [|split; [congruence|done]].
  match goal with |- ends_in _ (push_batch fuel batch ?n ?w') ∧ _ =>
    destruct (IH n w') as [IHr IHc];
    destruct (push_batch fuel batch n w') end; simpl in *; split; congruence || done.
Qed.

(** The batch loop leaves the flag alone; it can only end in an exception
    that the allocation of a batch raised. *)
Lemma batches_running env fuel n : ∀ batch items_pushed w,
  ends_in (λ w', running w' = running w) (batches n fuel env batch items_pushed w).
Proof.
  induction n as [|n IH]; intros batch items_pushed w; cbn [batches]; [done|].
  destruct (running w) eqn:Hrun; [|done].
  destruct (batch_fault env batch); [done|].
  match goal with |- context [push_batch fuel ?b ?i ?w'] =>
    destruct (push_batch_running fuel b i w') as [Hb _];
    destruct (push_batch fuel b i w') as [i2 w2| | |] end; simpl in *;
    [|congruence|done..].
  match goal with |- ends_in _ (batches n fuel env ?b ?i ?w') =>
    specialize (IH b i w'); destruct (batches n fuel env b i w') end;
    simpl in *; congruence.
Qed.

Lemma generateData_caught env fuel w : caught (generateData fuel env w).
Proof.
  unfold generateData. destruct (setThreadAffinity env 0); [done|].
  by destruct (batches _ _ _ _ _ _).
Qed.
End failure_facts.

Lemma generateData_pinned env fuel w :
  setThreadAffinity env 0 = inr () →
  generateData fuel env w
  = match batches 10 fuel env 0 0 (producer_started w) with
    | Returns items_pushed w' =>
        Returns () (emit [Log (ProducerExiting items_pushed) false] w')
    | Throws e items_pushed w' =>
        Returns ()
          (emit [Log (ProducerExiting items_pushed) false]
             (set_running false (emit [Log (ProducerError e) false] w')))
    | Undefined u => Undefined u
    | OutOfFuel => OutOfFuel
    end.
Proof.
  intros Haff. unfold generateData. rewrite Haff.
  change (batches 10 fuel env 0 0 _)
    with (batches 10 fuel env 0 0 (producer_started w)).
  by destruct (batches 10 fuel env 0 0 (producer_started w)).
Qed.

(** C8, as the code has it: every exception raised in the producer or the
    consumer thread function is caught inside it, so both return normally.
    The consumer's handlers only log: the running flag stays as it was.
    The producer's two handlers also store false into the running flag; a
    consumer that reads the flag after that leaves its polling loop.  A
    producer that meets no exception leaves the flag alone. *)
Theorem C8_loop_failure_isolation (env : environment) (fuel : nat) (w : world) :
  caught (generateData fuel env w)
  ∧ caught (processData fuel env w)
  ∧ ends_in (λ w', running w' = running w) (processData fuel env w)
  ∧ (∀ e, setThreadAffinity env 1 = inl e →
       processData fuel env w
       = Returns ()
           (emit [Log (ConsumerAffinityFailed e) false; Log ConsumerAffinityError true] w))
  ∧ (∀ e c w',
       setThreadAffinity env 1 = inr () →
       consumer_loop fuel env zero_counters (consumer_started w) = Throws e c w' →
       processData fuel env w
       = Returns ()
           (emit [Log (ConsumerError e) false; Log ConsumerErrorConsole true] w'))
  ∧ (∀ e, setThreadAffinity env 0 = inl e →
       generateData fuel env w
       = Returns ()
           (set_running false
              (emit [Log (ProducerAffinityFailed e) false;
                     Log ProducerAffinityError true] w)))
  ∧ (∀ e items_pushed w',
       setThreadAffinity env 0 = inr () →
       batches 10 fuel env 0 0 (producer_started w) = Throws e items_pushed w' →
       generateData fuel env w
       = Returns ()
           (emit [Log (ProducerExiting items_pushed) false]
              (set_running false (emit [Log (ProducerError e) false] w'))))
  ∧ (∀ items_pushed w',
       setThreadAffinity env 0 = inr () →
       batches 10 fuel env 0 0 (producer_started w) = Returns items_pushed w' →
       generateData fuel env w
       = Returns () (emit [Log (ProducerExiting items_pushed) false] w')
       ∧ running w' = running w)
  ∧ (∀ c w', running w' = false → consumer_loop (S fuel) env c w' = Returns c w').
Proof.
  split; [apply generateData_caught|].
  destruct (processData_running env fuel w) as [Hrun Hcaught].
  split; [done|]. split; [done|]. split; [|split; [|split; [|split; [|split]]]].
  - intros e He. unfold processData. by rewrite He.
  - intros e c w' Haff Hloop. unfold processData, consume. rewrite Haff.
    fold (consumer_started w). by rewrite Hloop.
  - intros e He. unfold generateData. by rewrite He.
  - intros e items_pushed w' Haff Hb. rewrite generateData_pinned by done.
    by rewrite Hb.
  - intros items_pushed w' Haff Hb. rewrite generateData_pinned by done.
    rewrite Hb. split; [done|].
    pose proof (batches_running env fuel 10 0%Z 0 (producer_started w)) as H.
    by rewrite Hb in H.
  - intros c w' Hstop. by apply consumer_loop_stopped.
Qed.

(** C8 as the specification states it fails: the producer's handlers do
    change the flag the consumer reads, on a pinning failure and on an
    exception in the batch loop alike. *)
Lemma C8_counterexample :
  running world0 = true
  ∧ (∃ w', generateData 1 env_einval world0 = Returns () w' ∧ running w' = false)
  ∧ (∃ w', generateData 1 env_bad_alloc world0 = Returns () w' ∧ running w' = false).
Proof.
  split; [reflexivity|]. split.
  - eexists. split; reflexivity.
  - eexists. split; vm_compute; reflexivity.
Qed.

(** * Further properties of the pool *)

Section pool_round_trips.
Implicit Types (pool : MemoryPool) (fl : list N) (ptr : N).

Lemma deallocate_allocate pool ptr :
  ptr ≠ nullptr → allocate (deallocate ptr pool) = (ptr, pool).
Proof.
  intros Hp. unfold deallocate. destruct (N.eqb_spec ptr 0) as [|_]; [done|].
  rewrite (allocate_snoc _ (free_list_ pool) ptr) by done.
  by rewrite set_free_list_twice, set_free_list_id.
Qed.

Lemma allocate_deallocate pool pool' ptr :
  allocate pool = (ptr, pool') → ptr ≠ nullptr → deallocate ptr pool' = pool.
Proof.
  intros Hal Hp.
  destruct (snoc_cases (free_list_ pool)) as [Hfl|(fl & p & Hfl)].
  - rewrite (allocate_nil _ Hfl) in Hal. by injection Hal as <- <-.
  - rewrite (allocate_snoc _ _ _ Hfl) in Hal. injection Hal as <- <-.
    unfold deallocate. destruct (N.eqb_spec p 0) as [|_]; [done|].
    simpl. by rewrite set_free_list_twice, <- Hfl, set_free_list_id.
Qed.

Lemma slot_addresses_snoc storage n :
  slot_addresses storage 0 (S n)
  = slot_addresses storage 0 n ++ [storage + N.of_nat n * sizeof_MarketData].
Proof.
  unfold slot_addresses. rewrite seq_S, fmap_app. simpl. by rewrite N.add_0_l.
Qed.

Lemma allocation_loop_top n : ∀ pool fl ptr,
  free_list_ pool = fl ++ [ptr] → ptr ≠ nullptr →
  allocation_loop n pool = (replicate n ptr, pool).
Proof.
  induction n as [|n IH]; intros pool fl ptr Hfl Hp; [done|].
  simpl. rewrite (allocate_snoc _ _ _ Hfl).
  unfold deallocate. destruct (N.eqb_spec ptr 0) as [|_]; [done|].
  simpl. rewrite set_free_list_twice, <- Hfl, set_free_list_id.
  by rewrite (IH pool fl ptr).
Qed.
End pool_round_trips.

(** X1: the free list is a stack.  A pointer given back is the very next
    one handed out, and the pool is then as before; giving back what
    [allocate] just handed out restores the pool as well. *)
Theorem X1_allocate_deallocate_round_trip (pool : MemoryPool) (ptr : N) :
  ptr ≠ nullptr →
  allocate (deallocate ptr pool) = (ptr, pool)
  ∧ (∀ pool', allocate pool = (ptr, pool') → deallocate ptr pool' = pool).
Proof.
  intros Hp. split; [by apply deallocate_allocate|].
  intros pool' Hal. by apply (allocate_deallocate pool).
Qed.

Lemma X1_allocate_deallocate_round_trip_witness :
  4672 ≠ nullptr
  ∧ allocate (deallocate 4672 pool10) = (4672, pool10)
  ∧ (∀ pool', allocate pool10 = (4672, pool') → deallocate 4672 pool' = pool10).
Proof.
  assert (4672 ≠ 0) as Hp by discriminate.
  split; [exact Hp|]. exact (X1_allocate_deallocate_round_trip pool10 4672 Hp).
Defined.

(** X2: [deallocate] checks nothing but null.  A pointer given back twice
    is handed out twice in a row, to two holders at once, and a pointer the
    pool never owned is handed out like a slot. *)
Theorem X2_double_deallocate_aliases (pool : MemoryPool) (ptr : N) :
  ptr ≠ nullptr →
  let pool2 := deallocate ptr (deallocate ptr pool) in
  (allocate pool2).1 = ptr
  ∧ (allocate (allocate pool2).2).1 = ptr
  ∧ (allocate (allocate pool2).2).2 = pool
  ∧ length (free_list_ pool2) = S (S (length (free_list_ pool))).
Proof.
  intros Hp pool2. unfold pool2.
  rewrite !deallocate_allocate by done. simpl.
  rewrite !deallocate_allocate by done. simpl. split; [done|]. split; [done|].
  split; [done|]. unfold deallocate.
  destruct (N.eqb_spec ptr 0) as [|_]; [done|]. simpl.
  rewrite !length_app. simpl. lia.
Qed.

Lemma X2_double_deallocate_aliases_witness :
  4096 ≠ nullptr
  ∧ (allocate (deallocate 4096 (deallocate 4096 (set_free_list pool10 [])))).1 = 4096
  ∧ (allocate (allocate (deallocate 4096
                 (deallocate 4096 (set_free_list pool10 [])))).2).1 = 4096.
Proof.
  assert (4096 ≠ 0) as Hp by discriminate.
  split; [exact Hp|].
  pose proof (X2_double_deallocate_aliases (set_free_list pool10 []) 4096 Hp)
    as (H1 & H2 & _).
  exact (conj H1 H2).
Defined.

(** X3: the pool loop of the allocation benchmark.  On a pool built with
    at least one slot, every iteration is handed the same slot, the one at
    the highest address, never null, and leaves the pool as it found it. *)
Theorem X3_allocation_loop (storage size : N) (pool : MemoryPool) (n : nat) :
  1 ≤ size →
  MemoryPool_new storage size = inr pool →
  allocation_loop n pool
  = (replicate n (storage + (size - 1) * sizeof_MarketData), pool)
  ∧ storage + (size - 1) * sizeof_MarketData ≠ nullptr.
Proof.
  intros Hsize Hnew.
  apply MemoryPool_new_free_list in Hnew as (Hs & _ & _ & Hfl).
  assert (storage + (size - 1) * sizeof_MarketData ≠ 0) as Hp
    by (unfold sizeof_MarketData; lia).
  split; [|done].
  destruct (N.to_nat size) as [|m] eqn:Hm; [lia|].
  rewrite slot_addresses_snoc in Hfl.
  replace (N.of_nat m) with (size - 1) in Hfl by lia.
  by apply (allocation_loop_top n pool _ _ Hfl).
Qed.

Lemma X3_allocation_loop_witness :
  (1 ≤ 10 ∧ MemoryPool_new 4096 10 = inr pool10)
  ∧ allocation_loop 3 pool10 = ([4672; 4672; 4672], pool10).
Proof.
  assert (1 ≤ 10) as Hsize by (vm_compute; discriminate).
  split; [split; [exact Hsize|reflexivity]|].
  exact (proj1 (X3_allocation_loop 4096 10 pool10 3 Hsize eq_refl)).
Defined.

(** * Further properties of construction *)

Section construct_destroy.
Implicit Types (pool : MemoryPool) (q : LockFreeQueue) (cap : N).

Lemma deallocate_all buf : ∀ pool,
  Forall (λ p, p ≠ nullptr) buf →
  foldl (λ pool ptr, deallocate ptr pool) pool buf
  = set_free_list pool (free_list_ pool ++ buf).
Proof.
  induction buf as [|p buf IH]; intros pool Hnn; simpl.
  - by rewrite app_nil_r, set_free_list_id.
  - apply Forall_cons in Hnn as [Hp Hnn]. rewrite IH by done.
    unfold deallocate. destruct (N.eqb_spec p 0) as [|_]; [done|].
    simpl. by rewrite set_free_list_twice, <- app_assoc.
Qed.

Lemma MarketDataParser_new_ok storage mem :
  storage ≠ nullptr →
  ∃ pool q,
    MemoryPool_new storage 10000 = inr pool
    ∧ LockFreeQueue_new 10000 pool = (set_free_list pool [], inr q)
    ∧ MarketDataParser_new storage mem
      = inr {| running := false; pool := set_free_list pool []; dataQueue := q;
               packet_count := 0; memory := mem;
               trace := [Log (ParserConstructed 0) false;
                         Log ParserConstructedConsole true] |}.
Proof.
  intros Hs.
  destruct (MemoryPool_new storage 10000) as [|pool] eqn:Hpool.
  { unfold MemoryPool_new in Hpool. by destruct (N.eqb_spec storage 0). }
  pose proof (MemoryPool_new_free_list _ _ _ Hpool) as (_ & _ & _ & Hfl).
  pose proof (LockFreeQueue_new_ok pool 10000 [] _ Hfl
                (slot_addresses_length _ _ _)
                (slot_addresses_nonnull _ _ _ Hs)) as Hq.
  eexists pool, _. split; [done|]. split; [exact Hq|].
  unfold MarketDataParser_new. by rewrite Hpool, Hq.
Qed.
End construct_destroy.

(** X4: construction and destruction of a queue are a round trip on the
    pool.  The destructor gives back exactly the slots the constructor took:
    the free list afterwards is a rearrangement of the one before, and a
    queue of the same capacity can be built again, over the same slots in
    the opposite order. *)
Theorem X4_construct_destroy (pool pool' : MemoryPool) (cap : N) (q : LockFreeQueue) :
  LockFreeQueue_new cap pool = (pool', inr q) →
  let pool'' := LockFreeQueue_delete q pool' in
  free_list_ pool'' ≡ₚ free_list_ pool
  ∧ storage_ pool'' = storage_ pool ∧ size_ pool'' = size_ pool
  ∧ LockFreeQueue_new cap pool''
    = (pool', inr {| buffer := rev (buffer q); head := 0; tail := 0;
                     capacity := cap |}).
Proof.
  intros Hnew pool''.
  apply LockFreeQueue_new_inv in Hnew as (fl & taken & Hfl & Hlen & Hnn & -> & ->).
  assert (Forall (λ p, p ≠ 0) (rev taken)) as Hnn' by (by apply Forall_rev).
  assert (pool'' = set_free_list pool (fl ++ rev taken)) as Hpool''.
  { unfold pool'', LockFreeQueue_delete. simpl buffer.
    by rewrite deallocate_all. }
  rewrite Hpool''. simpl. split; [|split; [done|split; [done|]]].
  - rewrite Hfl. apply Permutation_app_head. symmetry. apply Permutation_rev.
  - rewrite (LockFreeQueue_new_ok _ cap fl (rev taken)); [done|done| |done].
    by rewrite length_rev.
Qed.

Lemma X4_construct_destroy_witness :
  LockFreeQueue_new 10 pool10 = (set_free_list pool10 [], inr queue10)
  ∧ free_list_ (LockFreeQueue_delete queue10 (set_free_list pool10 []))
    ≡ₚ free_list_ pool10
  ∧ LockFreeQueue_new 10 (LockFreeQueue_delete queue10 (set_free_list pool10 []))
    = (set_free_list pool10 [],
       inr {| buffer := rev (buffer queue10); head := 0; tail := 0; capacity := 10 |}).
Proof.
  split; [reflexivity|].
  pose proof (X4_construct_destroy pool10 _ 10 queue10 eq_refl) as (H1 & _ & _ & H2).
  exact (conj H1 H2).
Defined.

(** X5: the parser's constructor asks the pool for exactly as many slots
    as the pool has.  Whenever the pool's block is obtained it cannot fail:
    the parser comes out stopped, with an empty, well-formed ring of 10000
    distinct slots, and its pool has nothing left to hand out. *)
Theorem X5_parser_construction (storage : N) (mem : gmap N MarketData) :
  (storage = nullptr ∧ MarketDataParser_new storage mem = inl bad_alloc)
  ∨ (storage ≠ nullptr
     ∧ ∃ w, MarketDataParser_new storage mem = inr w
            ∧ running w = false ∧ packet_count w = 0 ∧ memory w = mem
            ∧ queue_wf (dataQueue w) ∧ NoDup (buffer (dataQueue w))
            ∧ capacity (dataQueue w) = 10000
            ∧ head (dataQueue w) = tail (dataQueue w)
            ∧ allocate (pool w) = (nullptr, pool w)).
Proof.
  destruct (decide (storage = 0)) as [->|Hs]; [by left|right].
  split; [done|].
  destruct (MarketDataParser_new_ok storage mem Hs) as (pool0 & q & Hpool & Hq & Hnew).
  eexists. split; [exact Hnew|].
  destruct (MarketDataParser_new_wf _ _ _ Hnew) as (Hrun & Hwf & Hnd & Hemp & Hfree).
  cbn [running packet_count memory dataQueue pool] in *.
  repeat (split; [done|]). split.
  - by apply LockFreeQueue_new_inv in Hq as (? & ? & _ & _ & _ & _ & ->).
  - split; [done|]. by apply allocate_nil.
Qed.

(** * The ring as a bounded FIFO *)

Section ring_size.
Implicit Types (q : LockFreeQueue) (mem : gmap N MarketData)
  (items : list MarketData) (x item : MarketData) (i : N).

Lemma distance_step q i :
  1 ≤ capacity q ≤ SIZE_MAX → i < capacity q → tail q < capacity q →
  i ≠ tail q → distance q i = 1 + distance q (next q i).
Proof.
  intros Hc Hi Ht Hne. rewrite next_spec by done. unfold distance.
  destruct (N.eqb_spec (i + 1) (capacity q)), (N.leb_spec i (tail q)),
    (N.leb_spec 0 (tail q)), (N.leb_spec (i + 1) (tail q)); lia.
Qed.

Lemma distance_lt q i :
  i < capacity q → tail q < capacity q → distance q i < capacity q.
Proof. intros Hi Ht. unfold distance. destruct (N.leb_spec i (tail q)); lia. Qed.

(** The ring holds as many items as the tail is ahead of the head. *)
Lemma stored_length q mem items : ∀ i,
  queue_wf q → i < capacity q → stored q mem i items →
  N.of_nat (length items) = distance q i.
Proof.
  intros i Hwf. revert i.
  pose proof (wf_capacity _ Hwf) as Hc. pose proof (wf_tail _ Hwf) as Ht.
  induction items as [|y items IH]; intros i Hi Hst; simpl in Hst.
  - subst i. unfold distance. destruct (N.leb_spec (tail q) (tail q)); simpl; lia.
  - destruct Hst as (Hne & _ & Hst).
    rewrite (distance_step q i) by done.
    rewrite <- (IH (next q i)); [|by apply next_lt|done].
    simpl length. lia.
Qed.

Lemma full_iff q :
  queue_wf q →
  next q (tail q) = head q ↔ distance q (head q) + 1 = capacity q.
Proof.
  intros Hwf. pose proof (wf_capacity _ Hwf) as Hc.
  pose proof (wf_tail _ Hwf) as Ht. pose proof (wf_head _ Hwf) as Hh.
  rewrite next_spec by done. unfold distance.
  destruct (N.eqb_spec (tail q + 1) (capacity q)), (N.leb_spec (head q) (tail q));
    lia.
Qed.

(** [push] on a ring of distinct slots, told by the number of items. *)
Lemma push_stored x q mem items :
  queue_wf q → NoDup (buffer q) → stored q mem (head q) items →
  if N.of_nat (length items) + 1 <? capacity q
  then ∃ q' mem',
         push x q mem = inr (true, q', mem')
         ∧ queue_wf q' ∧ buffer q' = buffer q ∧ capacity q' = capacity q
         ∧ head q' = head q ∧ stored q' mem' (head q') (items ++ [x])
  else push x q mem = inr (false, q, mem).
Proof.
  intros Hwf Hnd Hst.
  pose proof (stored_length q mem items (head q) Hwf (wf_head _ Hwf) Hst) as Hlen.
  pose proof (distance_lt q (head q) (wf_head _ Hwf) (wf_tail _ Hwf)) as Hlt.
  pose proof (full_iff q Hwf) as Hfull.
  destruct (push_wf x q mem Hwf) as [[Hf Hp]|(Hroom & ptr & Hptr & _ & Hp)].
  - destruct (N.ltb_spec (N.of_nat (length items) + 1) (capacity q)); [|done].
    apply Hfull in Hf. lia.
  - destruct (N.ltb_spec (N.of_nat (length items) + 1) (capacity q)) as [_|Hge].
    + destruct (push_true x q mem _ _ items Hwf Hnd Hst Hp)
        as (Hwf' & Hb & Hh & Hst').
      exists (set_tail q (next q (tail q))), (<[ptr := x]> mem).
      split; [done|]. split; [done|]. split; [done|]. split; [done|].
      split; [done|]. done.
    + exfalso. apply Hroom, Hfull. lia.
Qed.

(** Any run of calls on the ring behaves as the same run on a list. *)
Lemma run_ops_fifo ops : ∀ item q mem items,
  queue_wf q → NoDup (buffer q) → stored q mem (head q) items →
  ∃ q' mem',
    run_ops ops item q mem
    = inr ((fifo_ops (capacity q) ops item items).1.1,
           (fifo_ops (capacity q) ops item items).1.2, q', mem')
    ∧ queue_wf q' ∧ NoDup (buffer q') ∧ capacity q' = capacity q
    ∧ stored q' mem' (head q') (fifo_ops (capacity q) ops item items).2.
Proof.
  induction ops as [|[x|] ops IH]; intros item q mem items Hwf Hnd Hst.
  - exists q, mem. simpl. done.
  - pose proof (push_stored x q mem items Hwf Hnd Hst) as Hpush.
    simpl. destruct (N.ltb_spec (N.of_nat (length items) + 1) (capacity q)).
    + destruct Hpush as (q1 & mem1 & Hp & Hwf1 & Hb1 & Hc1 & _ & Hst1).
      rewrite <- Hb1 in Hnd.
      destruct (IH item q1 mem1 _ Hwf1 Hnd Hst1) as (q' & mem' & Hrun & Hrest).
      rewrite Hc1 in Hrun, Hrest. rewrite Hp, Hrun.
      destruct (fifo_ops (capacity q) ops item (items ++ [x])) as [[rs it] l].
      exists q', mem'. simpl in *. split; [done|].
      destruct Hrest as (Hwf' & Hnd' & Hc' & Hst').
      split; [done|]. split; [done|]. split; [congruence|done].
    + destruct (IH item q mem _ Hwf Hnd Hst) as (q' & mem' & Hrun & Hrest).
      rewrite Hpush, Hrun.
      destruct (fifo_ops (capacity q) ops item items) as [[rs it] l].
      exists q', mem'. simpl in *. done.
  - destruct items as [|v items].
    + destruct (IH item q mem _ Hwf Hnd Hst) as (q' & mem' & Hrun & Hrest).
      simpl. rewrite pop_empty, Hrun by done.
      destruct (fifo_ops (capacity q) ops item []) as [[rs it] l].
      exists q', mem'. simpl in *. done.
    + destruct (pop_stored item q mem v items Hwf Hst) as (Hp & Hwf1 & Hst1).
      destruct (IH v _ mem _ Hwf1 Hnd Hst1) as (q' & mem' & Hrun & Hrest).
      simpl in Hrun, Hrest. simpl. rewrite Hp, Hrun.
      destruct (fifo_ops (capacity q) ops v items) as [[rs it] l].
      exists q', mem'. simpl in *. done.
Qed.
End ring_size.

(** X6: the number of items in the ring is the distance from head to tail
    and never reaches the capacity.  [push] returns false exactly when
    capacity - 1 items are stored, and [pop] returns false exactly when none
    is. *)
Theorem X6_ring_occupancy (q : LockFreeQueue) (mem : gmap N MarketData)
    (items : list MarketData) (x item : MarketData) :
  queue_wf q → stored q mem (head q) items →
  N.of_nat (length items) = distance q (head q)
  ∧ N.of_nat (length items) + 1 ≤ capacity q
  ∧ (push x q mem = inr (false, q, mem) ↔ N.of_nat (length items) + 1 = capacity q)
  ∧ ((∃ q' mem', push x q mem = inr (true, q', mem'))
     ↔ N.of_nat (length items) + 1 < capacity q)
  ∧ (pop item q mem = inr (false, item, q, mem) ↔ items = []).
Proof.
  intros Hwf Hst.
  pose proof (stored_length q mem items (head q) Hwf (wf_head _ Hwf) Hst) as Hlen.
  pose proof (distance_lt q (head q) (wf_head _ Hwf) (wf_tail _ Hwf)) as Hlt.
  pose proof (full_iff q Hwf) as Hfull.
  split; [done|]. split; [lia|].
  destruct (push_wf x q mem Hwf) as [[Hf Hp]|(Hroom & ptr & Hptr & _ & Hp)].
  - apply Hfull in Hf. split; [|split].
    + split; [lia|done].
    + split; [|lia]. intros (q' & mem' & Hp'). congruence.
    + destruct items as [|v items]; [by rewrite pop_empty|].
      destruct (pop_stored item q mem v items Hwf Hst) as (Hpop & _).
      rewrite Hpop. split; discriminate.
  - assert (N.of_nat (length items) + 1 ≠ capacity q) as Hnf.
    { intros Heq. apply Hroom, Hfull. lia. }
    split; [|split].
    + split; [congruence|done].
    + split; [lia|eauto].
    + destruct items as [|v items]; [by rewrite pop_empty|].
      destruct (pop_stored item q mem v items Hwf Hst) as (Hpop & _).
      rewrite Hpop. split; discriminate.
Qed.

Lemma X6_ring_occupancy_witness :
  (queue_wf queue10 ∧ stored queue10 ∅ (head queue10) [])
  ∧ N.of_nat (length (@nil MarketData)) = distance queue10 (head queue10)
  ∧ (pop GOOG queue10 ∅ = inr (false, GOOG, queue10, ∅) ↔ @nil MarketData = []).
Proof.
  assert (stored queue10 ∅ (head queue10) []) as Hst by reflexivity.
  split; [split; [exact queue10_wf|exact Hst]|].
  pose proof (X6_ring_occupancy queue10 ∅ [] AAPL GOOG queue10_wf Hst)
    as (H1 & _ & _ & _ & H2).
  exact (conj H1 H2).
Defined.

(** X7: no loss, no duplication, no reordering.  On a ring of distinct
    slots, any run of [push] and [pop] calls returns what the same run
    returns on a first-in first-out list bounded by capacity - 1, and leaves
    in the ring what that run leaves in the list. *)
Theorem X7_bounded_fifo (ops : list channel_op) (item : MarketData)
    (q : LockFreeQueue) (mem : gmap N MarketData) (items : list MarketData) :
  queue_wf q → NoDup (buffer q) → stored q mem (head q) items →
  ∃ q' mem',
    run_ops ops item q mem
    = inr ((fifo_ops (capacity q) ops item items).1.1,
           (fifo_ops (capacity q) ops item items).1.2, q', mem')
    ∧ queue_wf q' ∧ NoDup (buffer q') ∧ capacity q' = capacity q
    ∧ stored q' mem' (head q') (fifo_ops (capacity q) ops item items).2.
Proof. apply run_ops_fifo. Qed.

Lemma X7_bounded_fifo_witness :
  (queue_wf queue10 ∧ NoDup (buffer queue10)
   ∧ stored queue10 ∅ (head queue10) [])
  ∧ ∃ q' mem',
      run_ops [Pop; Push AAPL; Push GOOG; Pop; Push MSFT; Pop; Pop; Pop] GOOG
        queue10 ∅
      = inr ([inr (false, GOOG); inl true; inl true; inr (true, AAPL); inl true;
              inr (true, GOOG); inr (true, MSFT); inr (false, MSFT)],
             MSFT, q', mem').
Proof.
  assert (stored queue10 ∅ (head queue10) []) as Hst by reflexivity.
  split; [split; [exact queue10_wf|split; [exact queue10_NoDup|exact Hst]]|].
  destruct (X7_bounded_fifo
              [Pop; Push AAPL; Push GOOG; Pop; Push MSFT; Pop; Pop; Pop] GOOG
              queue10 ∅ [] queue10_wf queue10_NoDup Hst)
    as (q' & mem' & Hrun & _).
  exists q', mem'. exact Hrun.
Defined.

(** X8: the two ends do not disturb each other.  On a ring of distinct
    slots that is neither empty nor full, a [push] followed by a [pop]
    returns the same values and ends in the same state as the [pop] followed
    by the [push]. *)
Theorem X8_push_pop_commute (q : LockFreeQueue) (mem : gmap N MarketData)
    (v : MarketData) (items : list MarketData) (x item : MarketData) :
  queue_wf q → NoDup (buffer q) →
  stored q mem (head q) (v :: items) →
  N.of_nat (length (v :: items)) + 1 < capacity q →
  ∃ q1 mem1 q2 q' mem',
    push x q mem = inr (true, q1, mem1)
    ∧ pop item q1 mem1 = inr (true, v, q', mem')
    ∧ pop item q mem = inr (true, v, q2, mem)
    ∧ push x q2 mem = inr (true, q', mem').
Proof.
  intros Hwf Hnd Hst Hroom.
  pose proof (push_stored x q mem (v :: items) Hwf Hnd Hst) as Hpush.
  destruct (N.ltb_spec (N.of_nat (length (v :: items)) + 1) (capacity q));
    [|lia].
  destruct Hpush as (q1 & mem1 & Hp1 & Hwf1 & Hb1 & Hc1 & Hh1 & Hst1).
  destruct (pop_stored item q1 mem1 v (items ++ [x]) Hwf1 Hst1) as (Hpop1 & _).
  destruct (pop_stored item q mem v items Hwf Hst) as (Hpop2 & Hwf2 & Hst2).
  set (q2 := set_head q (next q (head q))) in *.
  pose proof (push_stored x q2 mem items Hwf2 Hnd Hst2) as Hpush2.
  destruct (N.ltb_spec (N.of_nat (length items) + 1) (capacity q2));
    [|simpl in *; lia].
  destruct Hpush2 as (q3 & mem3 & Hp2 & _).
  exists q1, mem1, q2, q3, mem3. split; [done|]. split; [|done].
  rewrite Hpop1.
  destruct (push_wf x q mem Hwf) as [[_ Hf]|(_ & ptr & Hptr & _ & Hp)];
    [congruence|].
  rewrite Hp in Hp1. injection Hp1 as <- <-.
  destruct (push_wf x q2 mem Hwf2) as [[_ Hf]|(_ & ptr2 & Hptr2 & _ & Hp')];
    [congruence|].
  rewrite Hp' in Hp2. injection Hp2 as <- <-.
  unfold q2 in Hptr2. simpl in Hptr2.
  assert (ptr2 = ptr) as -> by congruence. done.
Qed.

Lemma X8_push_pop_commute_witness :
  let q := set_tail queue10 1 in
  let mem : gmap N MarketData := <[4672 := AAPL]> ∅ in
  (queue_wf q ∧ NoDup (buffer q) ∧ stored q mem (head q) [AAPL]
   ∧ N.of_nat (length [AAPL]) + 1 < capacity q)
  ∧ ∃ q1 mem1 q2 q' mem',
      push GOOG q mem = inr (true, q1, mem1)
      ∧ pop MSFT q1 mem1 = inr (true, AAPL, q', mem')
      ∧ pop MSFT q mem = inr (true, AAPL, q2, mem)
      ∧ push GOOG q2 mem = inr (true, q', mem').
Proof.
  intros q mem.
  assert (queue_wf q) as Hwf.
  { apply queue_wf_set_tail; [exact queue10_wf|by vm_compute]. }
  assert (stored q mem (head q) [AAPL]) as Hst.
  { simpl. split; [discriminate|]. split; [|reflexivity].
    exists 4672. split; reflexivity. }
  assert (N.of_nat (length [AAPL]) + 1 < capacity q) as Hroom by (by vm_compute).
  split; [split; [exact Hwf|split; [exact queue10_NoDup|split; [exact Hst|exact Hroom]]]|].
  exact (X8_push_pop_commute q mem AAPL [] GOOG MSFT Hwf queue10_NoDup Hst Hroom).
Defined.

(** * Further properties of the loops *)

Section loop_exits.
Implicit Types (env : environment) (w : world) (c : counters).

(** The polling loop returns only for a flag that reads false, and then
    it has done nothing. *)
Lemma consumer_loop_returns env fuel : ∀ c w c' w',
  consumer_loop fuel env c w = Returns c' w' →
  running w = false ∧ c' = c ∧ w' = w.
Proof.
  induction fuel as [|fuel IH]; intros c w c' w' Hrun; simpl in Hrun; [done|].
  destruct (running w) eqn:Hflag; [|by injection Hrun as <- <-].
  pose proof (consumer_body_running env c w) as Hbody.
  destruct (consumer_body env c w) as [c1 w1| | |]; [|done..].
  simpl in Hbody. apply IH in Hrun as (Hstop & _). congruence.
Qed.

(** The drain loop returns only on an empty ring. *)
Lemma drain_returns env fuel : ∀ data c w c' w',
  drain fuel env data c w = Returns c' w' →
  head (dataQueue w') = tail (dataQueue w').
Proof.
  induction fuel as [|fuel IH]; intros data c w c' w' Hrun; simpl in Hrun; [done|].
  destruct (pop data (dataQueue w) (memory w))
    as [|[[[[] data'] q] mem]] eqn:Hpop; [done| |].
  - destruct (format_fault env (processed_count c)); [done|].
    by apply IH in Hrun.
  - injection Hrun as <- <-. simpl. unfold pop in Hpop.
    destruct (N.eqb_spec (head (dataQueue w)) (tail (dataQueue w))) as [He|_].
    + by injection Hpop as <- <- <-.
    + destruct (buffer (dataQueue w) !! _) as [ptr|]; [|done].
      destruct (ptr =? 0); [done|]. destruct (memory w !! ptr); [|done].
      by destruct (capacity (dataQueue w) =? 0).
Qed.
End loop_exits.

(** X10: the consumer's loops end for their stated reason only.  The
    consumer never lowers the flag itself: left to itself, the polling loop
    returns only if the flag already reads false on entry, without a pass;
    the drain loop returns only on an empty channel; so a consumer that
    returns from both leaves the channel empty. *)
Theorem X10_consumer_exits (env : environment) (fuel : nat) (data : MarketData)
    (c c1 c2 : counters) (w w1 w2 : world) :
  consumer_loop fuel env c w = Returns c1 w1 →
  drain fuel env data c1 w1 = Returns c2 w2 →
  running w = false ∧ c1 = c ∧ w1 = w
  ∧ head (dataQueue w2) = tail (dataQueue w2)
  ∧ running w2 = false.
Proof.
  intros Hloop Hdrain.
  apply consumer_loop_returns in Hloop as (Hstop & -> & ->).
  split; [done|]. split; [done|]. split; [done|].
  split; [by apply drain_returns in Hdrain|].
  pose proof (drain_running env fuel data c w) as Hrun.
  rewrite Hdrain in Hrun. simpl in Hrun. congruence.
Qed.

Lemma X10_consumer_exits_witness :
  let w := stop world0 in
  (consumer_loop 1 env0 zero_counters w = Returns zero_counters w
   ∧ drain 1 env0 AAPL zero_counters w = Returns zero_counters w)
  ∧ running w = false
  ∧ head (dataQueue w) = tail (dataQueue w).
Proof.
  intros w.
  assert (consumer_loop 1 env0 zero_counters w = Returns zero_counters w) as H1
    by reflexivity.
  assert (drain 1 env0 AAPL zero_counters w = Returns zero_counters w) as H2
    by reflexivity.
  split; [exact (conj H1 H2)|].
  pose proof (X10_consumer_exits env0 1 AAPL _ _ _ _ _ _ H1 H2)
    as (Hstop & _ & _ & Hemp & _).
  exact (conj Hstop Hemp).
Defined.

Section producer_facts.
Implicit Types (env : environment) (w : world) (items bs : list MarketData)
  (data : MarketData).

Lemma bump_add a b p : bump a (bump b p) = bump (a + b) p.
Proof. unfold bump. by rewrite Nat.iter_add. Qed.

Lemma batch_data_length batch : length (batch_data batch) = 3%nat.
Proof. done. Qed.

Lemma batches_from_length n : ∀ batch, length (batches_from n batch) = (3 * n)%nat.
Proof.
  induction n as [|n IH]; intros batch; [done|].
  cbn [batches_from]. rewrite length_app, batch_data_length, IH. lia.
Qed.

(** With room in the ring, the retry loop pushes at its first attempt. *)
Lemma push_retry_room fuel data w items :
  producing w items →
  N.of_nat (length items) + 1 < capacity (dataQueue w) →
  ∃ q' mem',
    push_retry (S fuel) data w = Returns () (set_channel q' mem' w)
    ∧ producing (set_channel q' mem' w) (items ++ [data])
    ∧ capacity q' = capacity (dataQueue w).
Proof.
  intros (Hrun & Hwf & Hnd & Hst) Hroom.
  pose proof (push_stored data _ _ items Hwf Hnd Hst) as Hpush.
  destruct (N.ltb_spec (N.of_nat (length items) + 1) (capacity (dataQueue w)));
    [|lia].
  destruct Hpush as (q' & mem' & Hp & Hwf' & Hb & Hc & _ & Hst').
  exists q', mem'. simpl. rewrite Hp. split; [done|]. split; [|done].
  unfold producing. simpl. rewrite Hb. done.
Qed.

Lemma push_batch_room fuel bs : ∀ n w items,
  producing w items →
  N.of_nat (length items) + N.of_nat (length bs) < capacity (dataQueue w) →
  ∃ w',
    push_batch (S fuel) bs n w = Returns (bump (length bs) n) w'
    ∧ producing w' (items ++ bs)
    ∧ capacity (dataQueue w') = capacity (dataQueue w)
    ∧ packet_count w' = packet_count w
    ∧ pool w' = pool w
    ∧ trace w' = trace w ++ ((λ d, Log (PushedToQueue d) false) <$> bs).
Proof.
  induction bs as [|data bs IH]; intros n w items Hprod Hroom.
  - exists w. simpl. by rewrite !app_nil_r.
  - simpl length in Hroom.
    destruct (push_retry_room fuel data w items Hprod) as (q1 & mem1 & Hp & Hprod1 & Hc1);
      [lia|].
    set (w1 := emit [Log (PushedToQueue data) false] (set_channel q1 mem1 w)).
    destruct (IH (wrap (n + 1)) w1 (items ++ [data])) as (w' & Hrun & Hprod' & Hc & Hpc & Hpool & Htr).
    { done. }
    { rewrite length_app. simpl. lia. }
    exists w'. cbn [push_batch]. rewrite Hp.
    destruct Hprod1 as (Hrun1 & _). rewrite Hrun1. cbn [negb]. fold w1.
    rewrite Hrun, bump_S. split; [done|].
    rewrite <- app_assoc in Hprod'. split; [done|].
    split; [by rewrite Hc|]. split; [done|]. split; [done|].
    rewrite Htr. simpl. by rewrite <- app_assoc.
Qed.

(** With room for all of them, [n] batches go into the ring in order. *)
Lemma batches_room env fuel n : ∀ batch items_pushed w items,
  (∀ b, batch_fault env b = None) →
  producing w items →
  N.of_nat (length items) + N.of_nat (3 * n) < capacity (dataQueue w) →
  ∃ w',
    batches n (S fuel) env batch items_pushed w
    = Returns (bump (3 * n) items_pushed) w'
    ∧ producing w' (items ++ batches_from n batch)
    ∧ capacity (dataQueue w') = capacity (dataQueue w)
    ∧ packet_count w' = bump n (packet_count w)
    ∧ pool w' = pool w.
Proof.
  induction n as [|n IH]; intros batch items_pushed w items Hfault Hprod Hroom.
  - exists w. simpl. by rewrite app_nil_r.
  - cbn [batches batches_from]. pose proof Hprod as (Hrun & _). rewrite Hrun, Hfault.
    set (w0 := emit [Log (GeneratingBatch (batch + 1)) false] w).
    destruct (push_batch_room fuel (batch_data batch) items_pushed w0 items)
      as (w1 & Hb & Hprod1 & Hc1 & Hpc1 & Hpool1 & _); [done| |].
    { rewrite batch_data_length. simpl dataQueue. lia. }
    rewrite Hb, batch_data_length.
    set (w2 := emit _ (set_packet_count _ w1)).
    destruct (IH (batch + 1)%Z (bump 3 items_pushed) w2 (items ++ batch_data batch))
      as (w' & Hrun' & Hprod' & Hc' & Hpc' & Hpool'); [done|done| |].
    { rewrite length_app, batch_data_length. simpl dataQueue. rewrite Hc1.
      simpl dataQueue. lia. }
    exists w'. rewrite Hrun', bump_add.
    replace (3 * n + 3)%nat with (3 * S n)%nat by lia.
    split; [done|]. rewrite <- app_assoc in Hprod'. split; [done|].
    split; [by rewrite Hc'|]. split; [|by rewrite Hpool'].
    rewrite Hpc'. simpl packet_count. rewrite Hpc1. simpl packet_count.
    by rewrite bump_S.
Qed.

Lemma generateData_room env fuel w items :
  setThreadAffinity env 0 = inr () →
  (∀ b, batch_fault env b = None) →
  producing w items →
  N.of_nat (length items) + 30 < capacity (dataQueue w) →
  ∃ w',
    generateData (S fuel) env w
    = Returns () (emit [Log (ProducerExiting 30) false] w')
    ∧ producing w' (items ++ all_batches)
    ∧ packet_count w' = bump 10 (packet_count w)
    ∧ pool w' = pool w.
Proof.
  intros Haff Hfault Hprod Hroom.
  destruct (batches_room env fuel 10 0%Z 0 (producer_started w) items Hfault)
    as (w' & Hrun & Hprod' & _ & Hpc & Hpool); [done|simpl dataQueue; lia|].
  exists w'. rewrite generateData_pinned, Hrun by done.
  split; [done|]. split; [|done].
  replace all_batches with (batches_from 10 0) by (by vm_compute). done.
Qed.
End producer_facts.

(** X11: the producer's whole run.  With pinning granted, no allocation
    failing, the flag up and room for thirty more records, [generateData]
    returns after pushing the three records of each of the ten batches, in
    order, behind what the ring already held; it reports thirty items
    pushed, has counted ten batches, and leaves the flag up. *)
Theorem X11_producer_run (env : environment) (fuel : nat) (w : world)
    (items : list MarketData) :
  setThreadAffinity env 0 = inr () →
  (∀ b, batch_fault env b = None) →
  producing w items →
  N.of_nat (length items) + 30 < capacity (dataQueue w) →
  ∃ w',
    generateData (S fuel) env w = Returns () w'
    ∧ running w' = true
    ∧ stored (dataQueue w') (memory w') (head (dataQueue w')) (items ++ all_batches)
    ∧ packet_count w' = bump 10 (packet_count w)
    ∧ last (trace w') = Some (Log (ProducerExiting 30) false).
Proof.
  intros Haff Hfault Hprod Hroom.
  destruct (generateData_room env fuel w items Haff Hfault Hprod Hroom)
    as (w' & Hrun & (Hflag & _ & _ & Hst) & Hpc & _).
  eexists. split; [exact Hrun|]. simpl.
  split; [done|]. split; [done|]. split; [done|]. apply last_snoc.
Qed.

Lemma world40_producing : producing world40 [].
Proof.
  assert (LockFreeQueue_new 40 pool40 = (set_free_list pool40 [], inr queue40))
    as Hnew by reflexivity.
  assert (1 ≤ 40 ≤ SIZE_MAX) as Hcap by (unfold SIZE_MAX; lia).
  split; [reflexivity|]. split; [|split; [|reflexivity]].
  - exact (proj1 (LockFreeQueue_new_wf 40 pool40 _ queue40 Hcap Hnew)).
  - apply (LockFreeQueue_new_NoDup 40 pool40 _ queue40 (slot_addresses_NoDup _ _ _) Hnew).
Qed.

Lemma X11_producer_run_witness :
  (setThreadAffinity env0 0 = inr ()
   ∧ (∀ b, batch_fault env0 b = None)
   ∧ producing world40 []
   ∧ N.of_nat (length (@nil MarketData)) + 30 < capacity (dataQueue world40))
  ∧ ∃ w',
      generateData 1 env0 world40 = Returns () w'
      ∧ running w' = true
      ∧ stored (dataQueue w') (memory w') (head (dataQueue w')) ([] ++ all_batches)
      ∧ packet_count w' = bump 10 (packet_count world40)
      ∧ last (trace w') = Some (Log (ProducerExiting 30) false).
Proof.
  assert (N.of_nat (length (@nil MarketData)) + 30 < capacity (dataQueue world40))
    as Hroom by (by vm_compute).
  split; [split; [reflexivity|split; [exact (λ _, eq_refl)|
            split; [exact world40_producing|exact Hroom]]]|].
  exact (X11_producer_run env0 0 world40 [] eq_refl (λ _, eq_refl)
           world40_producing Hroom).
Defined.

Section pipeline_facts.
Implicit Types (env : environment) (w : world).

Lemma producing_start w :
  queue_wf (dataQueue w) → NoDup (buffer (dataQueue w)) →
  head (dataQueue w) = tail (dataQueue w) →
  producing (start w) [].
Proof. intros Hwf Hnd Hemp. by split. Qed.

Lemma all_batches_length : length all_batches = 30%nat.
Proof. done. Qed.

(** The producer running to its end, then [stop()], then the consumer. *)
Lemma produce_stop_consume env w :
  setThreadAffinity env 0 = inr () →
  setThreadAffinity env 1 = inr () →
  (∀ b, batch_fault env b = None) →
  (∀ n, format_fault env n = None) →
  producing w [] →
  30 < capacity (dataQueue w) →
  ∃ w1 q2,
    generateData 1 env w = Returns () w1
    ∧ processData 31 env (stop w1)
      = Returns ()
          (emit ([Log ConsumerAffinitySet false; Log ConsumerStarted false]
                 ++ processed_lines all_batches
                 ++ [Log (ConsumerSummary 30) false; Log ConsumerExiting false])
             (set_channel q2 (memory w1) (stop w1)))
    ∧ head q2 = tail q2
    ∧ packet_count w1 = bump 10 (packet_count w).
Proof.
  intros Haff0 Haff1 Hbatch Hformat Hprod Hroom.
  destruct (generateData_room env 0 w [] Haff0 Hbatch Hprod)
    as (w' & Hgen & (_ & Hwf & _ & Hst) & Hpc & _); [simpl; lia|].
  set (w1 := emit [Log (ProducerExiting 30) false] w') in *.
  set (w2 := consumer_started (stop w1)).
  destruct (consume_stopped env all_batches 31 zero_counters w2 Hformat)
    as (q2 & Hcons & Hemp); [done|done|done|rewrite all_batches_length; lia|].
  exists w1, q2. split; [done|]. split; [|done].
  unfold processData. rewrite Haff1. fold (consumer_started (stop w1)). fold w2.
  rewrite Hcons, all_batches_length.
  replace (bump 30 (processed_count zero_counters)) with 30 by (by vm_compute).
  f_equal. unfold w2, consumer_started, emit, set_channel. simpl.
  f_equal. by rewrite <- !app_assoc.
Qed.
End pipeline_facts.

(** X12: the pipeline end to end, on the parser as constructed.  When the
    producer runs to its end before [stop()] and the consumer runs after
    it, the consumer logs the thirty records of the ten batches, each once,
    in the order they were built, reports thirty items and leaves the
    channel empty; nothing is lost between [start()] and [stop()]. *)
Theorem X12_pipeline (env : environment) (storage : N) (mem : gmap N MarketData) :
  storage ≠ nullptr →
  setThreadAffinity env 0 = inr () →
  setThreadAffinity env 1 = inr () →
  (∀ b, batch_fault env b = None) →
  (∀ n, format_fault env n = None) →
  ∃ w0 w1 q2 w2,
    MarketDataParser_new storage mem = inr w0
    ∧ generateData 1 env (start w0) = Returns () w1
    ∧ packet_count w1 = 10
    ∧ processData 31 env (stop w1) = Returns () w2
    ∧ w2 = emit ([Log ConsumerAffinitySet false; Log ConsumerStarted false]
                 ++ processed_lines all_batches
                 ++ [Log (ConsumerSummary 30) false; Log ConsumerExiting false])
             (set_channel q2 (memory w1) (stop w1))
    ∧ trace w2
      = trace w1
        ++ [SleepMilliseconds 1100; Log StoppingConsumer false; SleepMilliseconds 100;
            Log ConsumerAffinitySet false; Log ConsumerStarted false]
        ++ processed_lines all_batches
        ++ [Log (ConsumerSummary 30) false; Log ConsumerExiting false]
    ∧ head q2 = tail q2.
Proof.
  intros Hs Haff0 Haff1 Hbatch Hformat.
  destruct (MarketDataParser_new_ok storage mem Hs) as (pool0 & q & _ & Hq & Hnew).
  destruct (MarketDataParser_new_wf _ _ _ Hnew) as (_ & Hwf & Hnd & Hemp & _).
  eexists. 
  destruct (produce_stop_consume env (start _) Haff0 Haff1 Hbatch Hformat
              (producing_start _ Hwf Hnd Hemp))
    as (w1 & q2 & Hgen & Hproc & Hemp2 & Hpc).
  { cbn [start dataQueue set_packet_count set_running emit].
    apply LockFreeQueue_new_inv in Hq as (? & ? & _ & _ & _ & _ & ->).
    by vm_compute. }
  exists w1, q2. eexists. split; [exact Hnew|]. split; [done|].
  split; [rewrite Hpc; by vm_compute|]. split; [exact Hproc|].
  split; [reflexivity|]. split; [|done].
  cbn [trace emit set_channel stop set_running]. by rewrite <- !app_assoc.
Qed.

Lemma X12_pipeline_witness :
  (4096 ≠ nullptr
   ∧ setThreadAffinity env0 0 = inr () ∧ setThreadAffinity env0 1 = inr ()
   ∧ (∀ b, batch_fault env0 b = None) ∧ (∀ n, format_fault env0 n = None))
  ∧ ∃ w0 w1 q2 w2,
      MarketDataParser_new 4096 ∅ = inr w0
      ∧ generateData 1 env0 (start w0) = Returns () w1
      ∧ packet_count w1 = 10
      ∧ processData 31 env0 (stop w1) = Returns () w2
      ∧ w2 = emit ([Log ConsumerAffinitySet false; Log ConsumerStarted false]
                   ++ processed_lines all_batches
                   ++ [Log (ConsumerSummary 30) false; Log ConsumerExiting false])
               (set_channel q2 (memory w1) (stop w1))
      ∧ trace w2
        = trace w1
          ++ [SleepMilliseconds 1100; Log StoppingConsumer false; SleepMilliseconds 100;
              Log ConsumerAffinitySet false; Log ConsumerStarted false]
          ++ processed_lines all_batches
          ++ [Log (ConsumerSummary 30) false; Log ConsumerExiting false]
      ∧ head q2 = tail q2.
Proof.
  assert (4096 ≠ 0) as Hs by discriminate.
  split; [split; [exact Hs|split; [reflexivity|split; [reflexivity|
            split; exact (λ _, eq_refl)]]]|].
  exact (X12_pipeline env0 4096 ∅ Hs eq_refl eq_refl (λ _, eq_refl) (λ _, eq_refl)).
Defined.

Section producer_edges.
Implicit Types (env : environment) (w : world) (data : MarketData).

(** On a full ring the retry loop goes round for as long as the flag is up. *)
Lemma push_retry_full fuel data : ∀ w,
  running w = true →
  push data (dataQueue w) (memory w) = inr (false, dataQueue w, memory w) →
  push_retry fuel data w = OutOfFuel.
Proof.
  induction fuel as [|fuel IH]; intros w Hrun Hfull; [done|].
  simpl. rewrite Hfull, set_channel_id, Hrun. by apply IH.
Qed.
End producer_edges.

(** X13: a record that finds the flag down.  [push] is tried before the
    flag is read: with room in the ring the record is enqueued, but the
    loop over the batch then stops at once, so the record is neither counted
    in [items_pushed] nor logged, and the rest of the batch is not pushed. *)
Theorem X13_push_after_stop (fuel : nat) (data : MarketData)
    (rest : list MarketData) (items_pushed : N) (w : world)
    (items : list MarketData) :
  running w = false →
  queue_wf (dataQueue w) → NoDup (buffer (dataQueue w)) →
  stored (dataQueue w) (memory w) (head (dataQueue w)) items →
  N.of_nat (length items) + 1 < capacity (dataQueue w) →
  ∃ q' mem',
    push_batch (S fuel) (data :: rest) items_pushed w
    = Returns items_pushed (set_channel q' mem' w)
    ∧ stored q' mem' (head q') (items ++ [data]).
Proof.
  intros Hstop Hwf Hnd Hst Hroom.
  pose proof (push_stored data _ _ items Hwf Hnd Hst) as Hpush.
  destruct (N.ltb_spec (N.of_nat (length items) + 1) (capacity (dataQueue w)));
    [|lia].
  destruct Hpush as (q' & mem' & Hp & _ & _ & _ & _ & Hst').
  exists q', mem'. split; [|done].
  cbn [push_batch push_retry]. rewrite Hp. cbn [running set_channel].
  by rewrite Hstop.
Qed.

Lemma X13_push_after_stop_witness :
  let w := stop world0 in
  (running w = false ∧ queue_wf (dataQueue w) ∧ NoDup (buffer (dataQueue w))
   ∧ stored (dataQueue w) (memory w) (head (dataQueue w)) []
   ∧ N.of_nat (length (@nil MarketData)) + 1 < capacity (dataQueue w))
  ∧ ∃ q' mem',
      push_batch 1 [AAPL; GOOG] 7 w = Returns 7 (set_channel q' mem' w)
      ∧ stored q' mem' (head q') ([] ++ [AAPL]).
Proof.
  intros w.
  assert (N.of_nat (length (@nil MarketData)) + 1 < capacity (dataQueue w))
    as Hroom by (by vm_compute).
  assert (stored (dataQueue w) (memory w) (head (dataQueue w)) []) as Hst
    by reflexivity.
  split; [split; [reflexivity|split; [exact queue10_wf|split; [exact queue10_NoDup|
            split; [exact Hst|exact Hroom]]]]|].
  exact (X13_push_after_stop 0 AAPL [GOOG] 7 w [] eq_refl queue10_wf
           queue10_NoDup Hst Hroom).
Defined.

(** X14: a producer facing a full ring.  While the flag is up and nobody
    pops, the retry loop never returns, whatever the number of passes
    allowed; once the flag is down it returns at its first pass, and the
    ring, the memory and the batch counter are as they were. *)
Theorem X14_producer_blocked (data : MarketData) (w : world)
    (items : list MarketData) :
  queue_wf (dataQueue w) →
  stored (dataQueue w) (memory w) (head (dataQueue w)) items →
  N.of_nat (length items) + 1 = capacity (dataQueue w) →
  (running w = true → ∀ fuel, push_retry fuel data w = OutOfFuel)
  ∧ (running w = false → ∀ fuel, push_retry (S fuel) data w = Returns () w).
Proof.
  intros Hwf Hst Hfull.
  assert (push data (dataQueue w) (memory w) = inr (false, dataQueue w, memory w))
    as Hpush.
  { pose proof (stored_length _ _ items _ Hwf (wf_head _ Hwf) Hst) as Hlen.
    destruct (push_wf data _ (memory w) Hwf) as [[_ Hp]|(Hroom & _)]; [done|].
    exfalso. apply Hroom, (full_iff _ Hwf). lia. }
  split.
  - intros Hrun fuel. by apply push_retry_full.
  - intros Hstop fuel. simpl. by rewrite Hpush, set_channel_id, Hstop.
Qed.

Lemma X14_producer_blocked_witness :
  let q := {| buffer := [4160; 4096]; head := 0; tail := 1; capacity := 2 |} in
  let w := {| running := true; pool := set_free_list pool10 []; dataQueue := q;
              packet_count := 0; memory := <[4160 := AAPL]> ∅; trace := [] |} in
  (queue_wf q ∧ stored q (memory w) (head q) [AAPL]
   ∧ N.of_nat (length [AAPL]) + 1 = capacity q)
  ∧ push_retry 5 GOOG w = OutOfFuel.
Proof.
  intros q w.
  assert (queue_wf q) as Hwf.
  { split; simpl; [unfold SIZE_MAX; lia|reflexivity| |lia|lia].
    repeat constructor; discriminate. }
  assert (stored q (memory w) (head q) [AAPL]) as Hst.
  { simpl. split; [discriminate|]. split; [|reflexivity].
    exists 4160. split; reflexivity. }
  split; [split; [exact Hwf|split; [exact Hst|reflexivity]]|].
  exact (proj1 (X14_producer_blocked GOOG w [AAPL] Hwf Hst eq_refl) eq_refl 5%nat).
Defined.

Section consumer_runs.
Implicit Types (env : environment) (w : world) (c : counters)
  (items rest : list MarketData) (x : MarketData).

Lemma consumer_iterations_app env a b : ∀ c w,
  consumer_iterations (a + b) env c w
  = match consumer_iterations a env c w with
    | Returns c' w' => consumer_iterations b env c' w'
    | o => o
    end.
Proof.
  induction a as [|a IH]; intros c w; [done|].
  simpl. destruct (consumer_body env c w) as [c1 w1| | |]; [|done..].
  apply IH.
Qed.

(** The polling loop takes the stored items out one per pass, oldest
    first. *)
Lemma consumer_iterations_items env rest : ∀ x c w,
  (∀ n, format_fault env n = None) →
  queue_wf (dataQueue w) →
  stored (dataQueue w) (memory w) (head (dataQueue w)) (x :: rest) →
  ∃ q',
    consumer_iterations (length (x :: rest)) env c w
    = Returns (idle_counters (bump (length (x :: rest)) (processed_count c)) 0)
        (emit (processed_lines (x :: rest)) (set_channel q' (memory w) w))
    ∧ head q' = tail q'.
Proof.
  induction rest as [|y rest IH]; intros x c w Hfault Hwf Hst.
  - destruct (pop_stored (default_initialised env) _ _ x [] Hwf Hst)
      as (_ & _ & Hst').
    eexists. split.
    + simpl. by rewrite (consumer_body_item env c w x []).
    + simpl in Hst'. done.
  - destruct (pop_stored (default_initialised env) _ _ x (y :: rest) Hwf Hst)
      as (_ & Hwf' & Hst').
    set (w1 := emit [Log (Processed x) false]
                 (set_channel
                    (set_head (dataQueue w) (next (dataQueue w) (head (dataQueue w))))
                    (memory w) w)).
    destruct (IH y (idle_counters (wrap (processed_count c + 1)) 0) w1 Hfault Hwf' Hst')
      as (q' & Hrun & Hemp).
    exists q'. split; [|done].
    change (consumer_iterations (length (x :: y :: rest)) env c w)
      with (match consumer_body env c w with
            | Returns c w => consumer_iterations (length (y :: rest)) env c w
            | o => o
            end).
    rewrite (consumer_body_item env c w x (y :: rest)) by done. fold w1.
    rewrite Hrun.
    change (processed_count (idle_counters (wrap (processed_count c + 1)) 0))
      with (wrap (processed_count c + 1)).
    rewrite bump_S.
    f_equal. unfold w1, emit, set_channel, processed_lines. simpl.
    f_equal. by rewrite <- app_assoc.
Qed.
End consumer_runs.

(** X15: items, then the ladder from its first rung.  When the polling
    loop finds items in the channel it logs them one per pass, oldest first;
    over the passes that follow on the emptied channel it climbs the backoff
    ladder from the start, whatever its counters were before. *)
Theorem X15_items_then_ladder (env : environment) (c : counters) (w : world)
    (x : MarketData) (rest : list MarketData) (n : nat) :
  (∀ k, format_fault env k = None) →
  queue_wf (dataQueue w) →
  stored (dataQueue w) (memory w) (head (dataQueue w)) (x :: rest) →
  ∃ q' w',
    consumer_iterations (length (x :: rest) + n) env c w
    = Returns
        (idle_counters (bump (length (x :: rest)) (processed_count c)) (N.of_nat n))
        w'
    ∧ w' = emit (processed_lines (x :: rest) ++ ladder_trace 0 n)
             (set_channel q' (memory w) w)
    ∧ trace w' = trace w ++ processed_lines (x :: rest) ++ ladder_trace 0 n
    ∧ head q' = tail q'.
Proof.
  intros Hfault Hwf Hst.
  destruct (consumer_iterations_items env rest x c w Hfault Hwf Hst)
    as (q' & Hrun & Hemp).
  exists q'. eexists. split; [|split; [reflexivity|split; [reflexivity|done]]].
  rewrite consumer_iterations_app, Hrun, consumer_iterations_idle by done.
  by rewrite emit_emit.
Qed.

Lemma X15_items_then_ladder_witness :
  let q := set_tail queue10 1 in
  let w := set_channel q (<[4672 := AAPL]> ∅) world0 in
  ((∀ k, format_fault env0 k = None)
   ∧ queue_wf (dataQueue w)
   ∧ stored (dataQueue w) (memory w) (head (dataQueue w)) [AAPL])
  ∧ ∃ q' w',
      consumer_iterations (length [AAPL] + 3) env0 (idle_counters 0 99999) w
      = Returns (idle_counters (bump (length [AAPL]) 0) (N.of_nat 3)) w'
      ∧ w' = emit (processed_lines [AAPL] ++ ladder_trace 0 3)
               (set_channel q' (memory w) w)
      ∧ trace w' = trace w ++ processed_lines [AAPL] ++ ladder_trace 0 3
      ∧ head q' = tail q'.
Proof.
  intros q w.
  assert (queue_wf (dataQueue w)) as Hwf.
  { apply queue_wf_set_tail; [exact queue10_wf|by vm_compute]. }
  assert (stored (dataQueue w) (memory w) (head (dataQueue w)) [AAPL]) as Hst.
  { simpl. split; [discriminate|]. split; [|reflexivity].
    exists 4672. split; reflexivity. }
  split; [split; [exact (λ _, eq_refl)|split; [exact Hwf|exact Hst]]|].
  exact (X15_items_then_ladder env0 (idle_counters 0 99999) w AAPL [] 3
           (λ _, eq_refl) Hwf Hst).
Defined.

(** * The logger *)

Section logger_facts.
Implicit Types (l : Logger) (calls : list (string * bool)).

Lemma log_all_open calls : ∀ l,
  is_open l = true →
  log_all calls l
  = {| is_open := true;
       log_file_ := log_file_ l ++ written calls;
       cout := cout l ++ written (filter (λ call, Is_true call.2) calls) |}.
Proof.
  unfold log_all, written.
  induction calls as [|[message to_console] calls IH]; intros l Hopen.
  - simpl. rewrite !app_nil_r. destruct l. simpl in Hopen. by subst.
  - cbn [foldl fst snd].
    rewrite IH; [|unfold log; rewrite Hopen; simpl; by destruct to_console].
    unfold log. rewrite Hopen. cbn [is_open log_file_ cout orb negb].
    destruct to_console.
    + rewrite filter_cons_True by done.
      cbn [is_open log_file_ cout orb negb fmap list_fmap concat fst snd].
      f_equal; by rewrite <- app_assoc.
    + rewrite filter_cons_False by (simpl; tauto).
      cbn [is_open log_file_ cout orb negb fmap list_fmap concat fst snd].
      f_equal. by rewrite <- app_assoc.
Qed.

Lemma log_all_closed calls : ∀ l,
  is_open l = false →
  log_all calls l
  = {| is_open := false; log_file_ := log_file_ l;
       cout := cout l ++ written calls |}.
Proof.
  unfold log_all, written.
  induction calls as [|[message to_console] calls IH]; intros l Hopen.
  - simpl. rewrite app_nil_r. destruct l. simpl in Hopen. by subst.
  - cbn [foldl fst snd].
    assert (log message to_console l
            = {| is_open := false; log_file_ := log_file_ l;
                 cout := cout l ++ [message; newline] |}) as ->.
    { unfold log. rewrite Hopen. cbv zeta. rewrite Hopen. by destruct to_console. }
    rewrite IH by done.
    cbn [is_open log_file_ cout fmap list_fmap concat fst snd].
    f_equal. by rewrite <- app_assoc.
Qed.
End logger_facts.

(** X16: no line is lost and none is reordered.  With the log file open,
    a run of [log] calls appends every message, each followed by a newline,
    to the file in call order, and copies to the console exactly the ones
    flagged for it.  With the log file not open, the file is left alone and
    every message goes to the console, flagged or not. *)
Theorem X16_logger (opened : bool) (calls : list (string * bool)) :
  log_all calls (Logger_new opened)
  = if opened
    then {| is_open := true; log_file_ := written calls;
            cout := written (filter (λ call, Is_true call.2) calls) |}
    else {| is_open := false; log_file_ := []; cout := written calls |}.
Proof.
  destruct opened.
  - by rewrite log_all_open.
  - by rewrite log_all_closed.
Qed.

(** * Exceptions in mid-run *)

Section mid_run_faults.
Implicit Types (env : environment) (w : world) (c : counters)
  (pre post items : list MarketData) (x data : MarketData).

(** The drain loop up to the item whose line cannot be formatted. *)
Lemma drain_fault env e pre : ∀ fuel data c w x post,
  (∀ i, (i < length pre)%nat → format_fault env (bump i (processed_count c)) = None) →
  format_fault env (bump (length pre) (processed_count c)) = Some e →
  queue_wf (dataQueue w) →
  stored (dataQueue w) (memory w) (head (dataQueue w)) (pre ++ x :: post) →
  (length pre < fuel)%nat →
  ∃ q',
    drain fuel env data c w
    = Throws e (set_processed_count (bump (length pre) (processed_count c)) c)
        (emit (processed_lines pre) (set_channel q' (memory w) w))
    ∧ stored q' (memory w) (head q') post.
Proof.
  induction pre as [|y pre IH]; intros fuel data c w x post Hok Hbad Hwf Hst Hfuel;
    (destruct fuel as [|fuel]; [simpl in Hfuel; lia|]).
  - destruct (pop_stored data _ _ x post Hwf Hst) as (Hpop & _ & Hst').
    eexists. split.
    + simpl drain. simpl in Hbad. rewrite Hpop, Hbad, emit_nil. by destruct c.
    + done.
  - destruct (pop_stored data _ _ y (pre ++ x :: post) Hwf Hst) as (Hpop & Hwf' & Hst').
    pose proof (Hok 0%nat ltac:(simpl; lia)) as Hok0. simpl in Hok0.
    simpl drain. rewrite Hpop, Hok0.
    set (c1 := {| processed_count := wrap (processed_count c + 1);
                  empty_count := empty_count c; yield_count := yield_count c;
                  sleep_count := sleep_count c |}).
    set (w1 := emit [Log (Processed y) false] (set_channel _ (memory w) w)).
    destruct (IH fuel y c1 w1 x post) as (q' & Hrun & Hpost).
    { intros i Hi. simpl. rewrite bump_S. apply Hok. simpl. lia. }
    { simpl. by rewrite bump_S. }
    { done. }
    { done. }
    { simpl in Hfuel. lia. }
    exists q'. split; [|done]. rewrite Hrun. simpl. rewrite bump_S.
    f_equal. unfold w1, emit, set_channel. simpl. by rewrite <- app_assoc.
Qed.

(** The batch loop up to the batch that cannot be allocated. *)
Lemma batches_fault env e fuel k : ∀ n batch items_pushed w items,
  (k < n)%nat →
  (∀ i, (i < k)%nat → batch_fault env (batch + Z.of_nat i) = None) →
  batch_fault env (batch + Z.of_nat k) = Some e →
  producing w items →
  N.of_nat (length items) + N.of_nat (3 * k) < capacity (dataQueue w) →
  ∃ w',
    batches n (S fuel) env batch items_pushed w
    = Throws e (bump (3 * k) items_pushed) w'
    ∧ producing w' (items ++ batches_from k batch)
    ∧ packet_count w' = bump k (packet_count w).
Proof.
  induction k as [|k IH]; intros n batch items_pushed w items Hn Hok Hbad Hprod Hroom;
    (destruct n as [|n]; [lia|]).
  - exists w. cbn [batches]. pose proof Hprod as (Hrun & _).
    rewrite Z.add_0_r in Hbad. rewrite Hrun, Hbad. simpl. by rewrite app_nil_r.
  - cbn [batches batches_from]. pose proof Hprod as (Hrun & _).
    pose proof (Hok 0%nat ltac:(lia)) as Hok0.
    change (Z.of_nat 0) with 0%Z in Hok0. rewrite Z.add_0_r in Hok0.
    rewrite Hrun, Hok0.
    set (w0 := emit [Log (GeneratingBatch (batch + 1)) false] w).
    destruct (push_batch_room fuel (batch_data batch) items_pushed w0 items)
      as (w1 & Hb & Hprod1 & Hc1 & Hpc1 & _); [done| |].
    { rewrite batch_data_length. simpl dataQueue. lia. }
    rewrite Hb, batch_data_length.
    set (w2 := emit _ (set_packet_count _ w1)).
    destruct (IH n (batch + 1)%Z (bump 3 items_pushed) w2 (items ++ batch_data batch))
      as (w' & Hrun' & Hprod' & Hpc'); [lia| | |done| |].
    { intros i Hi. replace (batch + 1 + Z.of_nat i)%Z
        with (batch + Z.of_nat (S i))%Z by lia. apply Hok. lia. }
    { by replace (batch + 1 + Z.of_nat k)%Z with (batch + Z.of_nat (S k))%Z by lia. }
    { rewrite length_app, batch_data_length. simpl dataQueue. rewrite Hc1.
      simpl dataQueue. lia. }
    exists w'. rewrite Hrun', bump_add.
    replace (3 * k + 3)%nat with (3 * S k)%nat by lia.
    split; [done|]. rewrite <- app_assoc in Hprod'. split; [done|].
    rewrite Hpc'. simpl packet_count. rewrite Hpc1. simpl packet_count.
    by rewrite bump_S.
Qed.
End mid_run_faults.

(** X17: an exception in the drain pass loses data.  When the line of an
    item cannot be formatted, that item has already been popped: the
    consumer has logged the items before it, logs the error and returns; the
    item in hand is never logged, and the items behind it stay in the
    channel, undrained. *)
Theorem X17_drain_exception (env : environment) (e : exception) (fuel : nat)
    (c : counters) (w : world) (pre post : list MarketData) (x : MarketData) :
  (∀ i, (i < length pre)%nat → format_fault env (bump i (processed_count c)) = None) →
  format_fault env (bump (length pre) (processed_count c)) = Some e →
  running w = false →
  queue_wf (dataQueue w) →
  stored (dataQueue w) (memory w) (head (dataQueue w)) (pre ++ x :: post) →
  (length pre < fuel)%nat →
  ∃ q' w',
    consume fuel env c w = Returns () w'
    ∧ w' = emit (processed_lines pre
                 ++ [Log (ConsumerError e) false; Log ConsumerErrorConsole true])
             (set_channel q' (memory w) w)
    ∧ trace w'
      = trace w ++ processed_lines pre
        ++ [Log (ConsumerError e) false; Log ConsumerErrorConsole true]
    ∧ stored q' (memory w) (head q') post.
Proof.
  intros Hok Hbad Hstop Hwf Hst Hfuel.
  destruct (drain_fault env e pre fuel (default_initialised env) c w x post
              Hok Hbad Hwf Hst Hfuel) as (q' & Hdrain & Hpost).
  exists q'. eexists. split; [|split; [reflexivity|split; [reflexivity|done]]].
  unfold consume.
  destruct fuel as [|fuel]; [lia|].
  rewrite consumer_loop_stopped, Hdrain by done. by rewrite emit_emit.
Qed.

Lemma X17_drain_exception_witness :
  let q := set_tail queue10 3 in
  let mem : gmap N MarketData := <[4672 := AAPL]> (<[4608 := GOOG]> (<[4544 := MSFT]> ∅)) in
  let w := set_running false (set_channel q mem world0) in
  ((∀ i, (i < length [AAPL])%nat →
      format_fault env_format_fault (bump i (processed_count zero_counters)) = None)
   ∧ format_fault env_format_fault (bump (length [AAPL]) (processed_count zero_counters))
     = Some bad_alloc
   ∧ running w = false
   ∧ queue_wf (dataQueue w)
   ∧ stored (dataQueue w) (memory w) (head (dataQueue w)) ([AAPL] ++ GOOG :: [MSFT])
   ∧ (length [AAPL] < 2)%nat)
  ∧ ∃ q' w',
      consume 2 env_format_fault zero_counters w = Returns () w'
      ∧ w' = emit (processed_lines [AAPL]
                   ++ [Log (ConsumerError bad_alloc) false;
                       Log ConsumerErrorConsole true])
               (set_channel q' (memory w) w)
      ∧ trace w'
        = trace w ++ processed_lines [AAPL]
          ++ [Log (ConsumerError bad_alloc) false; Log ConsumerErrorConsole true]
      ∧ stored q' (memory w) (head q') [MSFT].
Proof.
  intros q mem w.
  assert (∀ i, (i < length [AAPL])%nat →
            format_fault env_format_fault (bump i (processed_count zero_counters)) = None)
    as Hok.
  { intros i Hi. simpl in Hi. by replace i with 0%nat by lia. }
  assert (queue_wf (dataQueue w)) as Hwf.
  { apply queue_wf_set_tail; [exact queue10_wf|by vm_compute]. }
  assert (stored (dataQueue w) (memory w) (head (dataQueue w)) ([AAPL] ++ GOOG :: [MSFT]))
    as Hst.
  { simpl. split; [discriminate|]. split; [exists 4672; split; reflexivity|].
    split; [discriminate|]. split; [exists 4608; split; reflexivity|].
    split; [discriminate|]. split; [exists 4544; split; reflexivity|reflexivity]. }
  assert (length [AAPL] < 2)%nat as Hfuel by (simpl; lia).
  split; [split; [exact Hok|split; [reflexivity|split; [reflexivity|
            split; [exact Hwf|split; [exact Hst|exact Hfuel]]]]]|].
  exact (X17_drain_exception env_format_fault bad_alloc 2 zero_counters w
           [AAPL] [MSFT] GOOG Hok eq_refl eq_refl Hwf Hst Hfuel).
Defined.

(** X18: an exception in the producer keeps what was pushed.  When the
    allocation of batch [k] fails, pinning granted and room in the ring,
    [generateData] returns normally with the flag lowered; the records of
    the [k] batches before it are in the channel, in order, behind what it
    held, [k] batches are counted, and the log ends with the error and the
    number of records pushed so far. *)
Theorem X18_producer_exception (env : environment) (e : exception) (fuel k : nat)
    (w : world) (items : list MarketData) :
  setThreadAffinity env 0 = inr () →
  (k < 10)%nat →
  (∀ i, (i < k)%nat → batch_fault env (Z.of_nat i) = None) →
  batch_fault env (Z.of_nat k) = Some e →
  producing w items →
  N.of_nat (length items) + N.of_nat (3 * k) < capacity (dataQueue w) →
  ∃ w' evs,
    generateData (S fuel) env w = Returns () w'
    ∧ running w' = false
    ∧ queue_wf (dataQueue w')
    ∧ stored (dataQueue w') (memory w') (head (dataQueue w')) (items ++ batches_from k 0)
    ∧ packet_count w' = bump k (packet_count w)
    ∧ trace w' = evs ++ [Log (ProducerError e) false;
                         Log (ProducerExiting (bump (3 * k) 0)) false].
Proof.
  intros Haff Hk Hok Hbad Hprod Hroom.
  destruct (batches_fault env e fuel k 10 0%Z 0 (producer_started w) items
              Hk Hok Hbad) as (w' & Hrun & (_ & Hwf & _ & Hst) & Hpc); [done|done|].
  eexists _, (trace w'). split.
  { rewrite generateData_pinned, Hrun by done. reflexivity. }
  simpl. split; [done|]. split; [done|]. split; [done|]. split; [done|].
  by rewrite <- app_assoc.
Qed.

Lemma X18_producer_exception_witness :
  (setThreadAffinity env_bad_alloc 0 = inr ()
   ∧ (3 < 10)%nat
   ∧ (∀ i, (i < 3)%nat → batch_fault env_bad_alloc (Z.of_nat i) = None)
   ∧ batch_fault env_bad_alloc (Z.of_nat 3) = Some bad_alloc
   ∧ producing world40 []
   ∧ N.of_nat (length (@nil MarketData)) + N.of_nat (3 * 3)
     < capacity (dataQueue world40))
  ∧ ∃ w' evs,
      generateData 1 env_bad_alloc world40 = Returns () w'
      ∧ running w' = false
      ∧ queue_wf (dataQueue w')
      ∧ stored (dataQueue w') (memory w') (head (dataQueue w')) ([] ++ batches_from 3 0)
      ∧ packet_count w' = bump 3 (packet_count world40)
      ∧ trace w' = evs ++ [Log (ProducerError bad_alloc) false;
                           Log (ProducerExiting (bump (3 * 3) 0)) false].
Proof.
  assert (3 < 10)%nat as Hk by lia.
  assert (∀ i, (i < 3)%nat → batch_fault env_bad_alloc (Z.of_nat i) = None) as Hok.
  { intros i Hi.
    assert (i = 0 ∨ i = 1 ∨ i = 2)%nat as [->|[->| ->]] by lia; reflexivity. }
  assert (N.of_nat (length (@nil MarketData)) + N.of_nat (3 * 3)
          < capacity (dataQueue world40)) as Hroom by (simpl; lia).
  split; [split; [reflexivity|split; [exact Hk|split; [exact Hok|split; [reflexivity|
            split; [exact world40_producing|exact Hroom]]]]]|].
  exact (X18_producer_exception env_bad_alloc bad_alloc 0 3 world40 []
           eq_refl Hk Hok eq_refl world40_producing Hroom).
Defined.

(** X19: a pass of the polling loop keeps its counters in range.  With the
    idle counter below 100000 and at most four doublings done, a pass over
    a well-formed channel is defined: it either throws because the line of
    an item it popped cannot be formatted, or it returns with the counters
    in range again, having at most logged, yielded, or slept for no more
    than 100 microseconds; the shift is never out of range. *)
Theorem X19_polling_pass (env : environment) (c : counters) (w : world)
    (items : list MarketData) :
  counters_ok c →
  queue_wf (dataQueue w) →
  stored (dataQueue w) (memory w) (head (dataQueue w)) items →
  (∃ e q',
     consumer_body env c w = Throws e c (set_channel q' (memory w) w)
     ∧ format_fault env (processed_count c) = Some e
     ∧ items ≠ [])
  ∨ (∃ c' q' evs w',
       consumer_body env c w = Returns c' w'
       ∧ w' = emit evs (set_channel q' (memory w) w)
       ∧ trace w' = trace w ++ evs
       ∧ counters_ok c'
       ∧ Forall short_pause evs).
Proof.
  intros [He Hs] Hwf Hst. destruct items as [|x items].
  - right. simpl in Hst. unfold consumer_body. rewrite pop_empty by done.
    assert (empty_count c + 1 < 10000
            ∨ 10000 ≤ empty_count c + 1 < 100000
            ∨ empty_count c + 1 = 100000) as [H|[H|H]] by lia.
    + rewrite backoff_spin by done. eexists _, _, _, _.
      split; [done|]. split; [done|]. split; [done|].
      split; [|by constructor]. split; simpl; lia.
    + rewrite backoff_yield by done. eexists _, _, _, _.
      split; [done|]. split; [done|]. split; [done|].
      split; [|by repeat constructor]. split; simpl; lia.
    + rewrite backoff_sleep by done. eexists _, _, _, _.
      split; [done|]. split; [done|]. split; [done|].
      split; [split; simpl; lia|].
      apply Forall_app. split.
      * by destruct (_ =? 0); repeat constructor.
      * repeat constructor. simpl. lia.
  - destruct (pop_stored (default_initialised env) _ _ x items Hwf Hst) as (Hpop & _ & _).
    unfold consumer_body. rewrite Hpop.
    destruct (format_fault env (processed_count c)) as [e|] eqn:Hf.
    + left. eexists _, _. split; [done|]. split; [done|]. discriminate.
    + right. eexists _, _, _, _.
      split; [done|]. split; [done|]. split; [done|].
      split; [split; simpl; lia|]. by repeat constructor.
Qed.

Lemma X19_polling_pass_witness :
  (counters_ok (idle_counters 0 99999)
   ∧ queue_wf (dataQueue world0)
   ∧ stored (dataQueue world0) (memory world0) (head (dataQueue world0)) [])
  ∧ ((∃ e q',
        consumer_body env0 (idle_counters 0 99999) world0
        = Throws e (idle_counters 0 99999) (set_channel q' (memory world0) world0)
        ∧ format_fault env0 (processed_count (idle_counters 0 99999)) = Some e
        ∧ @nil MarketData ≠ [])
     ∨ (∃ c' q' evs w',
          consumer_body env0 (idle_counters 0 99999) world0 = Returns c' w'
          ∧ w' = emit evs (set_channel q' (memory world0) world0)
          ∧ trace w' = trace world0 ++ evs
          ∧ counters_ok c'
          ∧ Forall short_pause evs)).
Proof.
  assert (counters_ok (idle_counters 0 99999)) as Hc by (split; simpl; lia).
  assert (stored (dataQueue world0) (memory world0) (head (dataQueue world0)) [])
    as Hst by reflexivity.
  split; [split; [exact Hc|split; [exact queue10_wf|exact Hst]]|].
  exact (X19_polling_pass env0 (idle_counters 0 99999) world0 [] Hc queue10_wf Hst).
Defined.

(** * Pinning and the pipeline *)

Section pinning_facts.
Implicit Types (env : environment) (w : world).

(** What [setThreadAffinity] raises for core 1 where that core cannot be
    used: the range check comes first, the return code second. *)
Lemma setThreadAffinity_refused env :
  (CPU_SETSIZE env ≤ 1)%Z ∨ pthread_setaffinity_np env 1 ≠ 0%Z →
  ∃ e,
    setThreadAffinity env 1 = inl e
    ∧ ((CPU_SETSIZE env ≤ 1)%Z → ∃ text, e = runtime_error text)
    ∧ ((1 < CPU_SETSIZE env)%Z →
       ∃ text, e = system_error (pthread_setaffinity_np env 1) text).
Proof.
  intros Hno. unfold setThreadAffinity.
  destruct (Z.ltb_spec 1 0) as [|_]; [lia|].
  destruct (Z.geb_spec 1 (CPU_SETSIZE env)) as [Hbig|Hin]; cbn [orb].
  - eexists. split; [done|]. split; [by eexists|lia].
  - destruct (Z.eqb_spec (pthread_setaffinity_np env 1) 0) as [Hz|Hnz].
    + destruct Hno; [lia|done].
    + eexists. split; [done|]. split; [lia|by eexists].
Qed.
End pinning_facts.

(** X9: a consumer that cannot be pinned processes nothing.  On a machine
    where core 0 can be pinned and core 1 cannot, because the CPU set has a
    single core or because [pthread_setaffinity_np] returns a non-zero code
    for it, the producer of a freshly constructed parser enqueues its thirty
    records, and the consumer, whenever it runs and however long, returns
    after logging the failure twice: it pops nothing, so the thirty records
    are still in the channel after [stop()].  The failure is a
    [runtime_error] in the first case and a [system_error] carrying the
    return code in the second. *)
Theorem X9_consumer_not_pinned (env : environment) (storage : N)
    (mem : gmap N MarketData) :
  storage ≠ nullptr →
  (0 < CPU_SETSIZE env)%Z →
  pthread_setaffinity_np env 0 = 0%Z →
  (CPU_SETSIZE env ≤ 1)%Z ∨ pthread_setaffinity_np env 1 ≠ 0%Z →
  (∀ b, batch_fault env b = None) →
  ∃ w0 w1 w2 e,
    MarketDataParser_new storage mem = inr w0
    ∧ generateData 1 env (start w0) = Returns () w1
    ∧ stored (dataQueue w1) (memory w1) (head (dataQueue w1)) all_batches
    ∧ setThreadAffinity env 1 = inl e
    ∧ ((CPU_SETSIZE env ≤ 1)%Z → ∃ text, e = runtime_error text)
    ∧ ((1 < CPU_SETSIZE env)%Z →
       ∃ text, e = system_error (pthread_setaffinity_np env 1) text)
    ∧ (∀ fuel, processData fuel env (stop w1) = Returns () w2)
    ∧ trace w2
      = trace w1
        ++ [SleepMilliseconds 1100; Log StoppingConsumer false; SleepMilliseconds 100;
            Log (ConsumerAffinityFailed e) false; Log ConsumerAffinityError true]
    ∧ dataQueue w2 = dataQueue w1 ∧ memory w2 = memory w1
    ∧ stored (dataQueue w2) (memory w2) (head (dataQueue w2)) all_batches.
Proof.
  intros Hs Hset Hret0 Hno Hbatch.
  assert (setThreadAffinity env 0 = inr ()) as Haff0
    by (apply setThreadAffinity_ok; [lia|done]).
  destruct (setThreadAffinity_refused env Hno) as (e & Haff1 & Hrange & Hcode).
  destruct (MarketDataParser_new_ok storage mem Hs) as (pool0 & q & _ & Hq & Hnew).
  destruct (MarketDataParser_new_wf _ _ _ Hnew) as (_ & Hwf & Hnd & Hemp & _).
  eexists.
  destruct (generateData_room env 0 (start _) [] Haff0 Hbatch
              (producing_start _ Hwf Hnd Hemp))
    as (w' & Hgen & (_ & _ & _ & Hst) & _ & _).
  { cbn [start dataQueue set_packet_count set_running emit].
    apply LockFreeQueue_new_inv in Hq as (? & ? & _ & _ & _ & _ & ->).
    by vm_compute. }
  eexists _, _, e. split; [exact Hnew|]. split; [exact Hgen|].
  split; [exact Hst|]. split; [exact Haff1|]. split; [exact Hrange|].
  split; [exact Hcode|]. split.
  { intros fuel. unfold processData. rewrite Haff1. reflexivity. }
  cbn [trace dataQueue memory emit stop set_running].
  split; [by rewrite <- !app_assoc|]. split; [done|]. split; [done|exact Hst].
Qed.

Lemma X9_consumer_not_pinned_witness :
  let env := env_one_core in
  (4096 ≠ nullptr
   ∧ (0 < CPU_SETSIZE env)%Z
   ∧ pthread_setaffinity_np env 0 = 0%Z
   ∧ ((CPU_SETSIZE env ≤ 1)%Z ∨ pthread_setaffinity_np env 1 ≠ 0%Z)
   ∧ (∀ b, batch_fault env b = None))
  ∧ ∃ w0 w1 w2 e,
      MarketDataParser_new 4096 ∅ = inr w0
      ∧ generateData 1 env (start w0) = Returns () w1
      ∧ stored (dataQueue w1) (memory w1) (head (dataQueue w1)) all_batches
      ∧ setThreadAffinity env 1 = inl e
      ∧ ((CPU_SETSIZE env ≤ 1)%Z → ∃ text, e = runtime_error text)
      ∧ ((1 < CPU_SETSIZE env)%Z →
         ∃ text, e = system_error (pthread_setaffinity_np env 1) text)
      ∧ (∀ fuel, processData fuel env (stop w1) = Returns () w2)
      ∧ trace w2
        = trace w1
          ++ [SleepMilliseconds 1100; Log StoppingConsumer false; SleepMilliseconds 100;
              Log (ConsumerAffinityFailed e) false; Log ConsumerAffinityError true]
      ∧ dataQueue w2 = dataQueue w1 ∧ memory w2 = memory w1
      ∧ stored (dataQueue w2) (memory w2) (head (dataQueue w2)) all_batches.
Proof.
  intros env.
  assert (4096 ≠ 0) as Hs by discriminate.
  assert (0 < CPU_SETSIZE env)%Z as Hset by (simpl; lia).
  assert ((CPU_SETSIZE env ≤ 1)%Z ∨ pthread_setaffinity_np env 1 ≠ 0%Z) as Hno
    by (left; simpl; lia).
  split; [split; [exact Hs|split; [exact Hset|split; [reflexivity|
            split; [exact Hno|exact (λ _, eq_refl)]]]]|].
  exact (X9_consumer_not_pinned env 4096 ∅ Hs Hset eq_refl Hno (λ _, eq_refl)).
Defined.
